(** * Wallet core of the Ark ts-sdk: size estimator, coin selection, unroll

    A shallow embedding of
      - [src/utils/txSizeEstimator.ts]  (class [TxWeightEstimator]),
      - the on-chain wallet ([selectCoins], [estimateFeesAndSelectCoins],
        [bumpP2A], the transaction [send] builds),
      - the unroll module ([Session.next], [availableExitPath],
        [prepareUnrollTransaction]),
    followed by the properties established about them.

    Conventions.  A JavaScript [number] that the code only ever uses as an
    integer count or size is a [Z]; a [bigint] is a [Z]; a [number] on which
    the code tests [isNaN], truthiness or fractional parts is a
    [JsNumber.number], whose finite values are exact rationals (the model
    covers the range in which double arithmetic on satoshi amounts is
    exact).  The fee rate of a [send] is a fractional [number], and the
    product [vsize * feeRate] is rounded as IEEE 754 rounds it: the rate
    and the product are binary64 values ([Double.t]).  A function that can
    throw returns a [result]. *)

From Stdlib Require Import ZArith QArith Qround Bool List String Lia.
From Stdlib Require Import SpecFloat.
From Stdlib Require Import Sorting.Permutation Sorting.Sorted.
Import ListNotations.

Local Open Scope Z_scope.

(** ** Thrown values *)

(** Modelled from the spec: what the explorer or the indexer rejects a
    request with - the [NotFound] signal, a network failure, a malformed
    response (sections 6 and 7). *)
Inductive ProviderFault : Type :=
| NotFound
| NetworkFailure
| MalformedResponse.

(** One constructor per [throw] site of the modelled code, plus the two
    kinds of exception that come from outside it. *)
Inductive Error : Type :=
| TargetAmountIsNaN          (* "Target amount is NaN, got ..." *)
| TargetAmountIsNegative     (* "Target amount is negative, got ..." *)
| InsufficientFunds          (* "Insufficient funds" *)
| BigIntRangeError           (* RangeError of BigInt() on a non-integer *)
| CouldNotConverge           (* "Fee estimation failed: could not converge" *)
| InvalidFee                 (* "invalid fee, got ..." *)
| AnchorNotFound             (* thrown by findP2AOutput *)
| TxNotFound (txid : string) (* "Tx ... not found" *)
| InputNotFound              (* "Input not found"; [getInput] throws first *)
| TapKeySigNotFound          (* "Tap key sig not found" *)
| NoVtxos                    (* "No vtxos to complete unroll" *)
| NotFullyUnrolled (txid : string)
| TxNotConfirmed (txid : string)
| NoAvailableExitPath (txid : string)
| SpendingLeafNotFound (txid : string)
| FeeGreaterThanTotal        (* "fee amount is greater than the total amount" *)
| Provider (f : ProviderFault)
| Library (what : string).   (* script / PSBT / signer library failure *)

Inductive result (A : Type) : Type :=
| Ok (a : A)
| Throw (e : Error).
Arguments Ok {A} a.
Arguments Throw {A} e.

Definition bind {A B : Type} (r : result A) (k : A -> result B) : result B :=
  match r with
  | Ok a => k a
  | Throw e => Throw e
  end.

Declare Scope result_scope.
Delimit Scope result_scope with result.
Notation "'let*' x ':=' r 'in' k" := (bind r (fun x => k))
  (at level 10, x pattern, r at level 100, k at level 200) : result_scope.

(** ** JavaScript numbers, as far as the wallet inspects them *)

Module JsNumber.

Inductive number : Type :=
| NaN
| PInf
| NInf
| Fin (q : Q).

Definition ofZ (z : Z) : number := Fin (inject_Z z).

Definition isNaN (n : number) : bool :=
  match n with NaN => true | _ => false end.

(** [a < b] *)
Definition lt (a b : number) : bool :=
  match a, b with
  | NaN, _ | _, NaN => false
  | NInf, NInf => false
  | NInf, _ => true
  | _, NInf => false
  | PInf, _ => false
  | Fin _, PInf => true
  | Fin x, Fin y => negb (Qle_bool y x)
  end.

(** [a <= b] *)
Definition le (a b : number) : bool :=
  match a, b with
  | NaN, _ | _, NaN => false
  | NInf, _ => true
  | _, PInf => true
  | PInf, _ => false
  | Fin _, NInf => false
  | Fin x, Fin y => Qle_bool x y
  end.

Definition gt (a b : number) : bool := lt b a.
Definition ge (a b : number) : bool := le b a.

(** [a === b] *)
Definition strictEq (a b : number) : bool :=
  match a, b with
  | PInf, PInf | NInf, NInf => true
  | Fin x, Fin y => Qeq_bool x y
  | _, _ => false
  end.

(** [!n] : zero and NaN are the falsy numbers. *)
Definition falsy (n : number) : bool :=
  match n with
  | NaN => true
  | Fin q => Qeq_bool q 0
  | _ => false
  end.

(** [a + b] *)
Definition add (a b : number) : number :=
  match a, b with
  | NaN, _ | _, NaN => NaN
  | PInf, NInf | NInf, PInf => NaN
  | PInf, _ | _, PInf => PInf
  | NInf, _ | _, NInf => NInf
  | Fin x, Fin y => Fin (x + y)
  end.

(** [a - b] *)
Definition sub (a b : number) : number :=
  match a, b with
  | NaN, _ | _, NaN => NaN
  | PInf, PInf | NInf, NInf => NaN
  | PInf, _ => PInf
  | NInf, _ => NInf
  | Fin _, PInf => NInf
  | Fin _, NInf => PInf
  | Fin x, Fin y => Fin (x - y)
  end.

Definition infTimes (q : Q) (positive : bool) : number :=
  if Qeq_bool q 0 then NaN
  else if Bool.eqb (Qle_bool 0 q) positive then PInf else NInf.

(** [a * b] *)
Definition mul (a b : number) : number :=
  match a, b with
  | NaN, _ | _, NaN => NaN
  | PInf, PInf | NInf, NInf => PInf
  | PInf, NInf | NInf, PInf => NInf
  | PInf, Fin q | Fin q, PInf => infTimes q true
  | NInf, Fin q | Fin q, NInf => infTimes q false
  | Fin x, Fin y => Fin (x * y)
  end.

(** [Math.ceil] *)
Definition ceil (a : number) : number :=
  match a with
  | Fin x => ofZ (Qceiling x)
  | other => other
  end.

Definition isInteger (q : Q) : bool :=
  (Qnum q mod Zpos (Qden q) =? 0)%Z.

(** The numbers [Math.ceil] returns: an integer, an infinity or NaN. *)
Definition integral (n : number) : Prop :=
  match n with
  | Fin _ => exists z, n = ofZ z
  | _ => True
  end.

(** [BigInt(n)] : a RangeError unless [n] is an integer. *)
Definition BigInt (n : number) : result Z :=
  match n with
  | Fin q => if isInteger q then Ok (Qfloor q) else Throw BigIntRangeError
  | _ => Throw BigIntRangeError
  end.

End JsNumber.

(** ** Doubles, where the code's result depends on their rounding

    [Number(estimator.vsize().value) * feeRate] is a product of two
    binary64 values, rounded to the nearest one (ties to even); its
    [Math.ceil] is an integer, an infinity or NaN, and is handed on as a
    [JsNumber.number].  The arithmetic is that of the standard library's
    [SpecFloat], at precision 53 and maximal exponent 1024. *)

Module Double.

Definition prec : Z := 53.
Definition emax : Z := 1024.

(** The exponent of the smallest subnormal. *)
Definition emin : Z := 3 - emax - prec.

Definition t : Type := spec_float.

(** The values of [t] that are doubles: mantissa and exponent in
    canonical form and in range. *)
Definition valid (x : t) : bool := valid_binary prec emax x.

(** [Number(z)] of a bigint [z]. *)
Definition ofZ (z : Z) : t := binary_normalize prec emax z 0 false.

(** [x * y] *)
Definition mul (x y : t) : t := SFmul prec emax x y.

(** The least integer not below [(-1)^s * m * 2^e]. *)
Definition ceilFinite (s : bool) (m : positive) (e : Z) : Z :=
  let signed := if s then Zneg m else Zpos m in
  if 0 <=? e then signed * 2 ^ e else - ((- signed) / 2 ^ (- e)).

(** [Math.ceil(x)] *)
Definition ceil (x : t) : JsNumber.number :=
  match x with
  | S754_nan => JsNumber.NaN
  | S754_infinity false => JsNumber.PInf
  | S754_infinity true => JsNumber.NInf
  | S754_zero _ => JsNumber.ofZ 0
  | S754_finite s m e => JsNumber.ofZ (ceilFinite s m e)
  end.

(** [0 < x], for a double [x]. *)
Definition isPositive (x : t) : bool :=
  match x with
  | S754_infinity false => true
  | S754_finite false _ _ => valid x
  | _ => false
  end.

(** The number of binary digits of a mantissa. *)
Definition digits (m : positive) : Z := Zpos (digits2_pos m).

(** [atLeast k s x]: [x] has sign [s] and is infinite or of magnitude
    [2^(k-1)] at least. *)
Definition atLeast (k : Z) (s : bool) (x : t) : Prop :=
  x = S754_infinity s \/
  exists m e, x = S754_finite s m e /\ k <= digits m + e.

End Double.

(** ** [src/utils/txSizeEstimator.ts] *)

Record VSize : Type := mkVSize {
  value : Z;          (* bigint *)
  fee : Z -> Z        (* fee(feeRate: bigint): bigint *)
}.

Definition getVarIntSize (n : Z) : Z :=
  if n <? 253 (* 0xfd *) then 1
  else if n <? 65535 (* 0xffff *) then 3
  else if n <? 4294967295 (* 0xffffffff *) then 5
  else 9.

(** The length of Bitcoin's CompactSize encoding of [n], the yardstick
    [getVarIntSize] is compared with below: one byte up to 0xfc, three up
    to 0xffff, five up to 0xffffffff, nine beyond. *)
Definition compactSize (n : Z) : Z :=
  if n <=? 252 then 1
  else if n <=? 65535 then 3
  else if n <=? 4294967295 then 5
  else 9.

Module TxWeightEstimator.

Definition P2PKH_SCRIPT_SIG_SIZE : Z := 1 + 73 + 1 + 33.
Definition INPUT_SIZE : Z := 32 + 4 + 1 + 4.
Definition BASE_CONTROL_BLOCK_SIZE : Z := 1 + 32.
Definition OUTPUT_SIZE : Z := 8 + 1.
Definition P2WPKH_OUTPUT_SIZE : Z := 1 + 1 + 20.
Definition BASE_TX_SIZE : Z := 8 + 2.
Definition WITNESS_HEADER_SIZE : Z := 2.
Definition WITNESS_SCALE_FACTOR : Z := 4.
Definition P2TR_OUTPUT_SIZE : Z := 1 + 1 + 32.

Record t : Type := mk {
  hasWitness : bool;
  inputCount : Z;
  outputCount : Z;
  inputSize : Z;
  inputWitnessSize : Z;
  outputSize : Z
}.

Definition create : t := mk false 0 0 0 0 0.

Definition addP2AInput (this : t) : t :=
  mk (hasWitness this)
     (inputCount this + 1)
     (outputCount this)
     (inputSize this + INPUT_SIZE)
     (inputWitnessSize this)
     (outputSize this).

Definition addKeySpendInput (isDefault : bool) (this : t) : t :=
  mk true
     (inputCount this + 1)
     (outputCount this)
     (inputSize this + INPUT_SIZE)
     (inputWitnessSize this + (64 + 1 + (if isDefault then 0 else 1)))
     (outputSize this).

Definition addP2PKHInput (this : t) : t :=
  mk (hasWitness this)
     (inputCount this + 1)
     (outputCount this)
     (inputSize this + (INPUT_SIZE + P2PKH_SCRIPT_SIG_SIZE))
     (inputWitnessSize this + 1)
     (outputSize this).

Definition addTapscriptInput
    (leafWitnessSize leafScriptSize leafControlBlockSize : Z) (this : t) : t :=
  let controlBlockWitnessSize :=
    1 + BASE_CONTROL_BLOCK_SIZE + 1 + leafScriptSize + 1 + leafControlBlockSize in
  mk true
     (inputCount this + 1)
     (outputCount this)
     (inputSize this + INPUT_SIZE)
     (inputWitnessSize this + (leafWitnessSize + 1 + controlBlockWitnessSize))
     (outputSize this).

Definition addP2WPKHOutput (this : t) : t :=
  mk (hasWitness this)
     (inputCount this)
     (outputCount this + 1)
     (inputSize this)
     (inputWitnessSize this)
     (outputSize this + (OUTPUT_SIZE + P2WPKH_OUTPUT_SIZE)).

Definition addP2TROutput (this : t) : t :=
  mk (hasWitness this)
     (inputCount this)
     (outputCount this + 1)
     (inputSize this)
     (inputWitnessSize this)
     (outputSize this + (OUTPUT_SIZE + P2TR_OUTPUT_SIZE)).

(** The method from [const scriptLen = script.length] on.
    [Address(network).decode] and [OutScript.encode] belong to the script
    library and throw on an address they cannot decode; the method uses
    nothing of their result but [script.length], which a caller of the
    model obtains first (see [scriptLengthOf] in the wallet) and passes
    as the argument. *)
Definition addOutputAddress (scriptLen : Z) (this : t) : t :=
  mk (hasWitness this)
     (inputCount this)
     (outputCount this + 1)
     (inputSize this)
     (inputWitnessSize this)
     (outputSize this + (8 + getVarIntSize scriptLen + scriptLen)).

(** The module-level [const vsize = (weight) => ...]. *)
Definition vsizeOfWeight (weight : Z) : VSize :=
  let value := Qceiling (inject_Z weight / inject_Z WITNESS_SCALE_FACTOR) in
  mkVSize value (fun feeRate => feeRate * value).

Definition vsize (this : t) : VSize :=
  let inputCount := getVarIntSize (inputCount this) in
  let outputCount := getVarIntSize (outputCount this) in
  let txSizeStripped :=
    BASE_TX_SIZE + inputCount + inputSize this + outputCount + outputSize this in
  let weight := txSizeStripped * WITNESS_SCALE_FACTOR in
  let weight :=
    if hasWitness this
    then weight + (WITNESS_HEADER_SIZE + inputWitnessSize this)
    else weight in
  vsizeOfWeight weight.

(** The builder calls, reified, so that a property can range over every
    sequence of them. *)
Inductive Op : Type :=
| AddP2AInput
| AddKeySpendInput (isDefault : bool)
| AddP2PKHInput
| AddTapscriptInput (leafWitnessSize leafScriptSize leafControlBlockSize : Z)
| AddP2WPKHOutput
| AddP2TROutput
| AddOutputAddress (scriptLen : Z).

Definition apply (op : Op) (this : t) : t :=
  match op with
  | AddP2AInput => addP2AInput this
  | AddKeySpendInput d => addKeySpendInput d this
  | AddP2PKHInput => addP2PKHInput this
  | AddTapscriptInput w s c => addTapscriptInput w s c this
  | AddP2WPKHOutput => addP2WPKHOutput this
  | AddP2TROutput => addP2TROutput this
  | AddOutputAddress len => addOutputAddress len this
  end.

(** [run ops e] performs [ops] on [e], first call first. *)
Definition run (ops : list Op) (this : t) : t :=
  fold_left (fun e op => apply op e) ops this.

(** Sizes are lengths of byte strings. *)
Definition validOp (op : Op) : Prop :=
  match op with
  | AddTapscriptInput w s c => 0 <= w /\ 0 <= s /\ 0 <= c
  | AddOutputAddress len => 0 <= len
  | _ => True
  end.

End TxWeightEstimator.

(** *** The size formula, in the words of the specification

    These follow section 4.1 of the specification, independently of the
    class above: they read the sizes off the list of calls. *)

Module SizeSpec.
Import TxWeightEstimator.

Definition isInput (op : Op) : bool :=
  match op with
  | AddP2AInput | AddKeySpendInput _ | AddP2PKHInput | AddTapscriptInput _ _ _ => true
  | _ => false
  end.

Definition isOutput (op : Op) : bool := negb (isInput op).

(** Inputs that mark the witness-present flag. *)
Definition marksWitness (op : Op) : bool :=
  match op with
  | AddKeySpendInput _ | AddTapscriptInput _ _ _ => true
  | _ => false
  end.

(** Non-witness bytes of one call: 41 per input (plus the 108-byte
    scriptSig of a legacy input), amount + varint + script per output. *)
Definition strippedBytes (op : Op) : Z :=
  match op with
  | AddP2AInput | AddKeySpendInput _ | AddTapscriptInput _ _ _ => 41
  | AddP2PKHInput => 41 + 108
  | AddP2WPKHOutput => 8 + 1 + 22
  | AddP2TROutput => 8 + 1 + 34
  | AddOutputAddress len => 8 + getVarIntSize len + len
  end.

Definition witnessBytes (op : Op) : Z :=
  match op with
  | AddKeySpendInput true => 65
  | AddKeySpendInput false => 66
  | AddP2PKHInput => 1
  | AddTapscriptInput w s c => w + 1 + (1 + 33 + 1 + s + 1 + c)
  | _ => 0
  end.

Definition total (f : Op -> Z) (ops : list Op) : Z :=
  fold_right (fun op acc => f op + acc) 0 ops.

Definition count (p : Op -> bool) (ops : list Op) : Z :=
  Z.of_nat (List.length (filter p ops)).

Definition strippedSize (ops : list Op) : Z :=
  10 + getVarIntSize (count isInput ops) + getVarIntSize (count isOutput ops)
     + total strippedBytes ops.

Definition witnessPresent (ops : list Op) : bool := existsb marksWitness ops.

Definition weight (ops : list Op) : Z :=
  strippedSize ops * 4
  + (if witnessPresent ops then 2 + total witnessBytes ops else 0).

End SizeSpec.

(** ** Data shared by the wallet and the unroll module *)

(** Modelled from the spec: [Coin] of the wallet's index module, by the
    fields of section 3 that the modelled code reads. *)
Module Coin.
Record t : Type := mk {
  txid : string;
  vout : Z;
  value : Z          (* satoshis *)
}.
End Coin.

(** Modelled from the spec: the answer of [getTxStatus] (section 6),
    [{ confirmed: false } | { confirmed: true, blockHeight, blockTime }]. *)
Inductive TxStatus : Type :=
| Unconfirmed
| Confirmed (blockHeight blockTime : Z).

Definition confirmed (s : TxStatus) : bool :=
  match s with Unconfirmed => false | Confirmed _ _ => true end.

Record BlockTime : Type := mkBlockTime {
  height : Z;
  time : Z
}.

(** The transaction builder ([utils/transaction], over @scure/btc-signer) is
    an external library: the model keeps the fields the wallet writes and
    reads, and takes serialisation, sizes and finalisation from
    [TransactionLib] below. *)
Module Tx.
Record Input : Type := mkInput {
  txid : string;
  index : Z;
  witnessAmount : Z;
  tapKeySig : option string;
  finalScriptWitness : option (list string)
}.

Record Output : Type := mkOutput {
  address : string;
  amount : Z
}.

Record t : Type := mk {
  version : Z;
  inputs : list Input;
  outputs : list Output
}.

Definition addInput (i : Input) (tx : t) : t :=
  mk (version tx) (inputs tx ++ [i]) (outputs tx).

(** [tx.addOutputAddress(address, amount, network)] for an address the
    library decodes.  On an address it cannot decode the method throws;
    that exception is outside the model, and the properties that go
    through this function concern calls that succeed or that have thrown
    before reaching it. *)
Definition addOutputAddress (addr : string) (amt : Z) (tx : t) : t :=
  mk (version tx) (inputs tx) (outputs tx ++ [mkOutput addr amt]).

Definition inputsLength (tx : t) : nat := List.length (inputs tx).
End Tx.

(** What the inputs of a transaction bring in and what its outputs pay
    out; the difference is the fee the transaction pays. *)
Definition inputValue (tx : Tx.t) : Z :=
  fold_right (fun i acc => Tx.witnessAmount i + acc) 0 (Tx.inputs tx).

Definition outputValue (tx : Tx.t) : Z :=
  fold_right (fun o acc => Tx.amount o + acc) 0 (Tx.outputs tx).

Record TransactionLib : Type := {
  hex : Tx.t -> string;
  id : Tx.t -> string;
  vsizeOf : Tx.t -> Z;                       (* the [vsize] getter *)
  fromPSBT : string -> result Tx.t;          (* of the base64 payload *)
  finalize : Tx.t -> result Tx.t;
  finalizeIdx : nat -> Tx.t -> result Tx.t;
  findP2AOutput : Tx.t -> result Tx.Input    (* throws if not found *)
}.

(** Modelled from the spec: the explorer of section 6 ([OnchainProvider] of
    [../providers/onchain]).  The chain is taken not to change while one
    of the modelled functions runs, so a request is given by its answer,
    [Throw] when the provider rejects it. *)
Record OnchainProvider : Type := {
  getCoins : string -> result (list Coin.t);
  getFeeRate : result JsNumber.number;
  broadcastTransaction : list string -> result string;
  getTxStatus : string -> result TxStatus;
  getChainTip : result BlockTime
}.

(** Modelled from the spec: the external signer of section 6. *)
Record Identity : Type := {
  sign : Tx.t -> result Tx.t
}.

(** ** The on-chain wallet *)

Record Selection : Type := mkSelection {
  inputs : list Coin.t;
  changeAmount : Z      (* bigint *)
}.

Definition sumValues (coins : list Coin.t) : Z :=
  fold_right (fun c acc => Coin.value c + acc) 0 coins.

(** [[...coins].sort((a, b) => b.value - a.value)] : the sort of an array is
    stable, so the outcome is the one descending order that keeps equal
    values in their input order; insertion from the right computes it. *)
Fixpoint insertDescending (c : Coin.t) (sorted : list Coin.t) : list Coin.t :=
  match sorted with
  | [] => [c]
  | d :: rest =>
      if Coin.value d <=? Coin.value c then c :: d :: rest
      else d :: insertDescending c rest
  end.

Definition sortDescending (coins : list Coin.t) : list Coin.t :=
  fold_right insertDescending [] coins.

(** [descending a b]: [a] may stand before [b] in the sorted array. *)
Definition descending (a b : Coin.t) : Prop := Coin.value b <= Coin.value a.

(** The [for (const coin of sortedCoins)] loop with its [break]; the pair
    is [(selectedCoins, selectedAmount)]. *)
Fixpoint accumulate (forceChange : bool) (targetAmount : JsNumber.number)
    (sortedCoins selectedCoins : list Coin.t) (selectedAmount : Z)
  : list Coin.t * Z :=
  match sortedCoins with
  | [] => (selectedCoins, selectedAmount)
  | coin :: rest =>
      let selectedCoins := selectedCoins ++ [coin] in
      let selectedAmount := selectedAmount + Coin.value coin in
      if (if forceChange
          then JsNumber.gt (JsNumber.ofZ selectedAmount) targetAmount
          else JsNumber.ge (JsNumber.ofZ selectedAmount) targetAmount)
      then (selectedCoins, selectedAmount)
      else accumulate forceChange targetAmount rest selectedCoins selectedAmount
  end.

Definition selectCoins (coins : list Coin.t) (targetAmount : JsNumber.number)
    (forceChange : bool) : result Selection :=
  if JsNumber.isNaN targetAmount then Throw TargetAmountIsNaN
  else if JsNumber.lt targetAmount (JsNumber.ofZ 0) then Throw TargetAmountIsNegative
  else if JsNumber.strictEq targetAmount (JsNumber.ofZ 0) then Ok (mkSelection [] 0)
  else
    let sortedCoins := sortDescending coins in
    let '(selectedCoins, selectedAmount) :=
      accumulate forceChange targetAmount sortedCoins [] 0 in
    if JsNumber.strictEq (JsNumber.ofZ selectedAmount) targetAmount
    then Ok (mkSelection selectedCoins 0)
    else if JsNumber.lt (JsNumber.ofZ selectedAmount) targetAmount
    then Throw InsufficientFunds
    else
      (let* changeAmount :=
         JsNumber.BigInt (JsNumber.sub (JsNumber.ofZ selectedAmount) targetAmount) in
       Ok (mkSelection selectedCoins changeAmount))%result.

Module OnchainWallet.

Definition MIN_FEE_RATE : Z := 1.   (* sat/vbyte *)

Record t : Type := mk {
  identity : Identity;
  address : string;            (* onchainP2TR.address *)
  addressScriptLen : Z;        (* length of the output script of [address] *)
  provider : OnchainProvider
}.

(** How a call completes, and what it wrote to the console meanwhile. *)
Record Outcome (A : Type) : Type := mkOutcome {
  completion : result A;
  consoleError : list Error    (* what went to [console.error] *)
}.
Arguments mkOutcome {A} completion consoleError.
Arguments completion {A} o.
Arguments consoleError {A} o.

Definition threw {A : Type} (e : Error) : Outcome A := mkOutcome (Throw e) [].

Section Wallet.
(** [DUST_AMOUNT] of [./utils] and [P2A.amount] of [../utils/anchor] are
    constants declared outside the modelled files. *)
Variable DUST_AMOUNT : Z.
Variable P2A_amount : Z.
Variable lib : TransactionLib.
Variable this : t.

Definition getCoins : result (list Coin.t) :=
  getCoins (provider this) (address this).

(** [OutScript.encode(Address(this.network).decode(address)).length]: the
    script library's decoding of an address on the wallet's network, which
    throws on an address it cannot decode. *)
Variable scriptLengthOf : string -> result Z.

(** The loop of [estimateFeesAndSelectCoins], with [remaining] iterations
    to go.  [amount] is in satoshis and [amount + fee] is their exact
    sum; [feeRate] is the double the caller passes, and the product with
    the size is the double product.  The recipient's address is decoded
    in every pass, after the selection; the wallet's own address is the
    encoding of its own script, of length [addressScriptLen this]. *)
Fixpoint feeLoop (remaining : nat) (coins : list Coin.t) (amount : Z)
    (feeRate : Double.t) (recipientAddress : string) (fee : JsNumber.number)
  : result (Selection * JsNumber.number) :=
  match remaining with
  | O => Throw CouldNotConverge
  | S remaining =>
      let totalNeeded := JsNumber.add (JsNumber.ofZ amount) fee in
      match selectCoins coins totalNeeded false with
      | Throw e => Throw e
      | Ok selected =>
          let estimator := TxWeightEstimator.create in
          let estimator :=
            fold_left (fun e _ => TxWeightEstimator.addKeySpendInput true e)
                      (inputs selected) estimator in
          match scriptLengthOf recipientAddress with
          | Throw e => Throw e
          | Ok scriptLen =>
              let estimator :=
                TxWeightEstimator.addOutputAddress scriptLen estimator in
              let estimator :=
                if changeAmount selected >=? DUST_AMOUNT
                then TxWeightEstimator.addOutputAddress (addressScriptLen this)
                       estimator
                else estimator in
              let newFee :=
                Double.mul (Double.ofZ (value (TxWeightEstimator.vsize estimator)))
                           feeRate in
              let roundedNewFee := Double.ceil newFee in
              if JsNumber.le roundedNewFee fee then Ok (selected, roundedNewFee)
              else feeLoop remaining coins amount feeRate recipientAddress
                     roundedNewFee
          end
      end
  end.

Definition MAX_ITERATIONS : nat := 10.

Definition estimateFeesAndSelectCoins (coins : list Coin.t) (amount : Z)
    (feeRate : Double.t) (recipientAddress : string)
  : result (Selection * JsNumber.number) :=
  feeLoop MAX_ITERATIONS coins amount feeRate recipientAddress (JsNumber.ofZ 0).

Definition coinInput (input : Coin.t) : Tx.Input :=
  Tx.mkInput (Coin.txid input) (Coin.vout input) (Coin.value input) None None.

(** [for (let i = 1; i < child.inputsLength; i++) child.finalizeIdx(i)] *)
Fixpoint finalizeFrom (i count : nat) (child : Tx.t) : result Tx.t :=
  match count with
  | O => Ok child
  | S count =>
      (let* child := finalizeIdx lib i child in
       finalizeFrom (S i) count child)%result
  end.

(** [bumpP2A] down to the [try] statement: the signed child. *)
Definition buildChild (parent : Tx.t) : result Tx.t :=
  let parentVsize := vsizeOf lib parent in
  let child := Tx.mk 3 [] [] in
  (let* anchor := findP2AOutput lib parent in
  let child := Tx.addInput anchor child in
  let childVsize :=
    value (TxWeightEstimator.vsize
             (TxWeightEstimator.addOutputAddress (addressScriptLen this)
                (TxWeightEstimator.addP2AInput
                   (TxWeightEstimator.addKeySpendInput true
                      TxWeightEstimator.create)))) in
  let packageVSize := parentVsize + childVsize in
  let* feeRate := getFeeRate (provider this) in
  let feeRate :=
    if JsNumber.falsy feeRate
       || JsNumber.lt feeRate (JsNumber.ofZ MIN_FEE_RATE)
    then JsNumber.ofZ MIN_FEE_RATE else feeRate in
  let fee := JsNumber.ceil (JsNumber.mul feeRate (JsNumber.ofZ packageVSize)) in
  if JsNumber.falsy fee then Throw InvalidFee else
  let* coins := getCoins in
  let* selected := selectCoins coins fee true in
  let child := fold_left (fun tx input => Tx.addInput (coinInput input) tx)
                         (inputs selected) child in
  let child :=
    Tx.addOutputAddress (address this) (P2A_amount + changeAmount selected) child in
  let* child := sign (identity this) child in
  finalizeFrom 1 (Tx.inputsLength child - 1) child)%result.

Definition bumpP2A (parent : Tx.t) : Outcome (string * string) :=
  match buildChild parent with
  | Throw e => threw e
  | Ok child =>
      (* try { await broadcastTransaction(parent.hex, child.hex) }
         catch (error) { console.error(error) }
         finally { return [parent.hex, child.hex] } *)
      let logged :=
        match broadcastTransaction (provider this) [hex lib parent; hex lib child] with
        | Ok _ => []
        | Throw error => [error]
        end in
      mkOutcome (Ok (hex lib parent, hex lib child)) logged
  end.

(** The two amount tests that open [send]. *)
Inductive AmountRejection : Type :=
| AmountMustBePositive       (* "Amount must be positive" *)
| AmountBelowDustLimit.      (* "Amount is below dust limit" *)

Definition checkAmount (amount : Z) : option AmountRejection :=
  if amount <=? 0 then Some AmountMustBePositive
  else if amount <? DUST_AMOUNT then Some AmountBelowDustLimit
  else None.

(** The version [new Transaction()] gives a transaction by default. *)
Variable defaultVersion : Z.

(** [send] from [let tx = new Transaction()] down to the change output:
    the transaction handed to the signer, for the [inputs] and
    [changeAmount] that [estimateFeesAndSelectCoins] returned. *)
Definition sendTransaction (recipientAddress : string) (amount : Z)
    (selectedInputs : list Coin.t) (change : Z) : Tx.t :=
  let tx := Tx.mk defaultVersion [] [] in
  let tx := fold_left (fun tx input => Tx.addInput (coinInput input) tx)
                      selectedInputs tx in
  let tx := Tx.addOutputAddress recipientAddress amount tx in
  if change >=? DUST_AMOUNT
  then Tx.addOutputAddress (address this) change tx
  else tx.

(** [bumpP2A] down to the output of the child: the child handed to the
    signer. *)
Definition unsignedChild (parent : Tx.t) : result Tx.t :=
  let parentVsize := vsizeOf lib parent in
  let child := Tx.mk 3 [] [] in
  (let* anchor := findP2AOutput lib parent in
  let child := Tx.addInput anchor child in
  let childVsize :=
    value (TxWeightEstimator.vsize
             (TxWeightEstimator.addOutputAddress (addressScriptLen this)
                (TxWeightEstimator.addP2AInput
                   (TxWeightEstimator.addKeySpendInput true
                      TxWeightEstimator.create)))) in
  let packageVSize := parentVsize + childVsize in
  let* feeRate := getFeeRate (provider this) in
  let feeRate :=
    if JsNumber.falsy feeRate
       || JsNumber.lt feeRate (JsNumber.ofZ MIN_FEE_RATE)
    then JsNumber.ofZ MIN_FEE_RATE else feeRate in
  let fee := JsNumber.ceil (JsNumber.mul feeRate (JsNumber.ofZ packageVSize)) in
  if JsNumber.falsy fee then Throw InvalidFee else
  let* coins := getCoins in
  let* selected := selectCoins coins fee true in
  let child := fold_left (fun tx input => Tx.addInput (coinInput input) tx)
                         (inputs selected) child in
  Ok (Tx.addOutputAddress (address this) (P2A_amount + changeAmount selected) child))%result.

End Wallet.
End OnchainWallet.

(** ** The unroll module *)

(** Modelled from the spec: [ChainTxType] and [ChainTx] of
    [../providers/indexer], as section 3 lists them. *)
Inductive ChainTxType : Type :=
| UNSPECIFIED
| COMMITMENT
| ARK
| TREE
| CHECKPOINT.

Module ChainTx.
Record t : Type := mk {
  txid : string;
  type : ChainTxType
}.
End ChainTx.

(** Modelled from the spec: the indexer of section 6, as far as [next]
    calls it. *)
Record IndexerProvider : Type := {
  getVirtualTxs : list string -> result (list string)   (* [.txs] *)
}.

(** Modelled from the spec: the interface [AnchorBumper] of
    [../utils/anchor] (section 4.4). *)
Record AnchorBumper : Type := {
  bumpP2A : Tx.t -> result (string * string)
}.

(** Modelled from the spec: a relative timelock is in blocks or in seconds
    (section 4.5). *)
Inductive TimelockType : Type :=
| blocks
| seconds.

Module ExitPath.
(** Modelled from the spec: [exit.params.timelock] and [exit.script] of a
    CSV tapscript of [../script/tapscript]. *)
Record t : Type := mk {
  timelockType : TimelockType;
  timelockValue : Z;       (* bigint *)
  script : string
}.
End ExitPath.

Module Vtxo.
(** A spending leaf [[controlBlock, script]], by the two lengths read. *)
Record TapLeaf : Type := mkLeaf {
  controlBlockLen : Z;     (* TaprootControlBlock.encode(leaf[0]).length *)
  leafScriptLen : Z        (* leaf[1].length *)
}.

(** Modelled from the spec: [ExtendedVirtualCoin] (the VTXO of section 3),
    with [VtxoScript.decode(vtxo.tapTree)] of the script library already
    applied: [exitPaths] and [findLeaf] are its methods. *)
Record t : Type := mk {
  txid : string;
  vout : Z;
  value : Z;
  isUnrolled : bool;
  exitPaths : list ExitPath.t;
  findLeaf : string -> option TapLeaf
}.
End Vtxo.

Module Unroll.

Inductive Step : Type :=
| UNROLL (tx : Tx.t) (pkg : string * string)
| WAIT (txid : string)
| DONE (vtxoTxid : string).

Module Session.

Record t : Type := mk {
  txid : string;                 (* toUnroll.txid *)
  vout : Z;                      (* toUnroll.vout *)
  chain : list ChainTx.t;        (* toUnroll.chain, leaf first *)
  bumper : AnchorBumper;
  explorer : OnchainProvider;
  indexer : IndexerProvider
}.

(** How the [for] loop of [next] is left. *)
Inductive LoopExit : Type :=
| Returned (step : Step)                           (* [return] in the body *)
| Ended (nextTxToBroadcast : option ChainTx.t).    (* [break], or [i < 0] *)

Definition skipped (chainTx : ChainTx.t) : bool :=
  match ChainTx.type chainTx with
  | COMMITMENT | UNSPECIFIED => true
  | _ => false
  end.

(** The loop [for (let i = chain.length - 1; i >= 0; i--)], on the nodes
    [chain[length-1], ..., chain[0]] still to visit. *)
Fixpoint scan (explorer : OnchainProvider) (toVisit : list ChainTx.t) : LoopExit :=
  match toVisit with
  | [] => Ended None
  | chainTx :: rest =>
      if skipped chainTx then scan explorer rest
      else
        match getTxStatus explorer (ChainTx.txid chainTx) with
        | Ok txInfo =>
            if negb (confirmed txInfo) then Returned (WAIT (ChainTx.txid chainTx))
            else scan explorer rest
        | Throw e =>
            (* catch (e) { nextTxToBroadcast = chainTx; break; } *)
            Ended (Some chainTx)
        end
  end.

Section Next.
Variable lib : TransactionLib.
Variable this : t.

(** [next] after the loop and the [DONE] test: fetch, finalise and bump
    the transaction to broadcast. *)
Definition unrollStep (nextTxToBroadcast : ChainTx.t) : result Step :=
  (let* virtualTxs :=
     getVirtualTxs (indexer this) [ChainTx.txid nextTxToBroadcast] in
   match virtualTxs with
   | [] => Throw (TxNotFound (ChainTx.txid nextTxToBroadcast))
   | psbt :: _ =>
       let* tx := fromPSBT lib psbt in
       let* tx :=
         match ChainTx.type nextTxToBroadcast with
         | TREE =>
             match Tx.inputs tx with
             | [] =>
                 (* [tx.getInput(0)] throws before [if (!input)] is reached *)
                 Throw (Library "Wrong input index=0"%string)
             | input :: others =>
                 match Tx.tapKeySig input with
                 | None => Throw TapKeySigNotFound
                 | Some tapKeySig =>
                     Ok (Tx.mk (Tx.version tx)
                           (Tx.mkInput (Tx.txid input) (Tx.index input)
                              (Tx.witnessAmount input) (Tx.tapKeySig input)
                              (Some [tapKeySig]) :: others)
                           (Tx.outputs tx))
                 end
             end
         | _ => finalize lib tx
         end in
       let* pkg := bumpP2A (bumper this) tx in
       Ok (UNROLL tx pkg)
   end)%result.

(** The step of the result; its [do] closure is determined by the
    step and the explorer, and is left out. *)
Definition next : result Step :=
  match scan (explorer this) (rev (chain this)) with
  | Returned step => Ok step
  | Ended None => Ok (DONE (txid this))
  | Ended (Some nextTxToBroadcast) => unrollStep nextTxToBroadcast
  end.
End Next.
End Session.
End Unroll.

(** Section 4.5: the timelock condition of one exit path. *)
Definition matured (confirmedAt current : BlockTime) (exit : ExitPath.t) : bool :=
  match ExitPath.timelockType exit with
  | blocks => height current >=? height confirmedAt + ExitPath.timelockValue exit
  | seconds => time current >=? time confirmedAt + ExitPath.timelockValue exit
  end.

(** The [for (const exit of exits)] loop of [availableExitPath]. *)
Fixpoint firstMatured (confirmedAt current : BlockTime) (exits : list ExitPath.t)
  : option ExitPath.t :=
  match exits with
  | [] => None
  | exit :: rest =>
      match ExitPath.timelockType exit with
      | blocks =>
          if height current >=? height confirmedAt + ExitPath.timelockValue exit
          then Some exit
          else firstMatured confirmedAt current rest
      | seconds =>
          if time current >=? time confirmedAt + ExitPath.timelockValue exit
          then Some exit
          else firstMatured confirmedAt current rest
      end
  end.

Definition availableExitPath (confirmedAt current : BlockTime) (vtxo : Vtxo.t)
  : option ExitPath.t :=
  let exits := Vtxo.exitPaths vtxo in
  firstMatured confirmedAt current exits.

Definition vtxoValues (vtxos : list Vtxo.t) : Z :=
  fold_right (fun v acc => Vtxo.value v + acc) 0 vtxos.

(** Modelled from the spec: the class [Wallet] of [./wallet], as far as
    [prepareUnrollTransaction] uses it. *)
Module Wallet.
Record t : Type := mk {
  onchainProvider : OnchainProvider;
  identity : Identity;
  getVtxos : result (list Vtxo.t)     (* getVtxos({ withUnrolled: true }) *)
}.
End Wallet.

Section PrepareUnroll.
(** [Wallet.MIN_FEE_RATE], a constant of the wallet class. *)
Variable Wallet_MIN_FEE_RATE : JsNumber.number.
Variable lib : TransactionLib.
Variable wallet : Wallet.t.

(** What the [for (const vtxo of vtxos)] loop has built so far. *)
Record Gathered : Type := mkGathered {
  gInputs : list Tx.Input;
  totalAmount : Z;                       (* bigint *)
  txWeightEstimator : TxWeightEstimator.t
}.

Fixpoint gather (chainTip : BlockTime) (vtxos : list Vtxo.t) (acc : Gathered)
  : result Gathered :=
  match vtxos with
  | [] => Ok acc
  | vtxo :: rest =>
      if negb (Vtxo.isUnrolled vtxo) then Throw (NotFullyUnrolled (Vtxo.txid vtxo))
      else
        (let* txStatus := getTxStatus (Wallet.onchainProvider wallet) (Vtxo.txid vtxo) in
         match txStatus with
         | Unconfirmed => Throw (TxNotConfirmed (Vtxo.txid vtxo))
         | Confirmed blockHeight blockTime =>
             match availableExitPath (mkBlockTime blockHeight blockTime) chainTip vtxo with
             | None => Throw (NoAvailableExitPath (Vtxo.txid vtxo))
             | Some exit =>
                 match Vtxo.findLeaf vtxo (ExitPath.script exit) with
                 | None => Throw (SpendingLeafNotFound (Vtxo.txid vtxo))
                 | Some spendingLeaf =>
                     gather chainTip rest
                       (mkGathered
                          (gInputs acc ++
                             [Tx.mkInput (Vtxo.txid vtxo) (Vtxo.vout vtxo)
                                         (Vtxo.value vtxo) None None])
                          (totalAmount acc + Vtxo.value vtxo)
                          (TxWeightEstimator.addTapscriptInput 64
                             (Vtxo.leafScriptLen spendingLeaf)
                             (Vtxo.controlBlockLen spendingLeaf)
                             (txWeightEstimator acc)))
                 end
             end
         end)%result
  end.

Definition includes (vtxoTxIds : list string) (txid : string) : bool :=
  existsb (String.eqb txid) vtxoTxIds.

(** [prepareUnrollTransaction] up to and including [tx.addOutputAddress]:
    the transaction handed to the signer, with the two amounts. *)
Definition buildUnrollTransaction (vtxoTxIds : list string) (outputAddress : string)
  : result (Tx.t * Z * Z) :=
  (let* chainTip := getChainTip (Wallet.onchainProvider wallet) in
   let* vtxos := Wallet.getVtxos wallet in
   let vtxos := filter (fun vtxo => includes vtxoTxIds (Vtxo.txid vtxo)) vtxos in
   match vtxos with
   | [] => Throw NoVtxos
   | _ =>
       let* g := gather chainTip vtxos
                   (mkGathered [] 0 TxWeightEstimator.create) in
       let tx := Tx.mk 2 [] [] in
       let tx := fold_left (fun tx input => Tx.addInput input tx) (gInputs g) tx in
       let txWeightEstimator :=
         TxWeightEstimator.addP2TROutput (txWeightEstimator g) in
       let* feeRate := getFeeRate (Wallet.onchainProvider wallet) in
       let feeRate :=
         if JsNumber.falsy feeRate || JsNumber.lt feeRate Wallet_MIN_FEE_RATE
         then Wallet_MIN_FEE_RATE else feeRate in
       let* rate := JsNumber.BigInt feeRate in
       let feeAmount := fee (TxWeightEstimator.vsize txWeightEstimator) rate in
       if feeAmount >? totalAmount g then Throw FeeGreaterThanTotal
       else
         Ok (Tx.addOutputAddress outputAddress (totalAmount g - feeAmount) tx,
             totalAmount g, feeAmount)
   end)%result.

Definition prepareUnrollTransaction (vtxoTxIds : list string) (outputAddress : string)
  : result Tx.t :=
  (let* built := buildUnrollTransaction vtxoTxIds outputAddress in
   let '(tx, _, _) := built in
   let* signedTx := sign (Wallet.identity wallet) tx in
   finalize lib signedTx)%result.

End PrepareUnroll.

(** What [prepareUnrollTransaction] requires of a VTXO it sweeps: fully
    unrolled, confirmed, with a matured exit path whose spending leaf the
    script knows. *)
Definition sweepable (wallet : Wallet.t) (chainTip : BlockTime) (vtxo : Vtxo.t) : Prop :=
  Vtxo.isUnrolled vtxo = true /\
  exists blockHeight blockTime exit leaf,
    getTxStatus (Wallet.onchainProvider wallet) (Vtxo.txid vtxo)
      = Ok (Confirmed blockHeight blockTime) /\
    availableExitPath (mkBlockTime blockHeight blockTime) chainTip vtxo = Some exit /\
    Vtxo.findLeaf vtxo (ExitPath.script exit) = Some leaf.

(** The input the sweep gives a VTXO. *)
Definition vtxoInput (vtxo : Vtxo.t) : Tx.Input :=
  Tx.mkInput (Vtxo.txid vtxo) (Vtxo.vout vtxo) (Vtxo.value vtxo) None None.

(** ** Selection and the fee loop, in the words of the specification

    Section 4.2, for a selection without forced change: a negative or NaN
    target is refused; a target of zero selects nothing; otherwise the
    coins are taken in descending order of value until their sum reaches
    the target, the change being the excess, and the funds are
    insufficient if the target exceeds the sum of all coins.  The order
    among coins of equal value is left open here.

    Section 4.3, for the loop: start [fee = 0]; each iteration selects
    coins for [amount + fee], estimates a transaction of one payment
    output plus a change output if [changeAmount >= dustLimit], and
    computes [newFee = ceil(vsize * feeRate)]; if [newFee <= fee] it
    returns the selection and [newFee], otherwise it retries with
    [fee = newFee]; exhausting the cap fails.  The size is the one of
    section 4.1 ([SizeSpec]), the product is the product of doubles. *)

Module SendPlan.
Import TxWeightEstimator.

Inductive selects (coins : list Coin.t)
  : JsNumber.number -> result Selection -> Prop :=
| selects_nan :
    selects coins JsNumber.NaN (Throw TargetAmountIsNaN)
| selects_negative (target : JsNumber.number) :
    JsNumber.lt target (JsNumber.ofZ 0) = true ->
    selects coins target (Throw TargetAmountIsNegative)
| selects_nothing :
    selects coins (JsNumber.ofZ 0) (Ok (mkSelection [] 0))
| selects_insufficient (target : JsNumber.number) :
    JsNumber.lt (JsNumber.ofZ 0) target = true ->
    JsNumber.lt (JsNumber.ofZ (sumValues coins)) target = true ->
    selects coins target (Throw InsufficientFunds)
| selects_greedy (target : Z) (chosen rest : list Coin.t) :
    0 < target ->
    Permutation coins (chosen ++ rest) ->
    Sorted descending (chosen ++ rest) ->
    target <= sumValues chosen ->
    (forall shorter more : list Coin.t,
       chosen = shorter ++ more -> more <> [] -> sumValues shorter < target) ->
    selects coins (JsNumber.ofZ target)
      (Ok (mkSelection chosen (sumValues chosen - target))).

(** [vsize = ceil(weight / 4)] of a transaction given by its parts. *)
Definition estimatedVsize (parts : list Op) : Z :=
  Qceiling (inject_Z (SizeSpec.weight parts) / inject_Z 4).

Section Plan.
Variable dustLimit : Z.
Variable scriptLengthOf : string -> result Z.
Variable changeScriptLen : Z.
Variable coins : list Coin.t.
Variable amount : Z.
Variable feeRate : Double.t.
Variable recipientAddress : string.

(** The transaction a selection stands for: a key-spend input per selected
    coin, the payment output, and the change output when it is kept. *)
Definition composition (paymentScriptLen : Z) (sel : Selection) : list Op :=
  map (fun _ => AddKeySpendInput true) (inputs sel)
  ++ [AddOutputAddress paymentScriptLen]
  ++ (if dustLimit <=? changeAmount sel then [AddOutputAddress changeScriptLen] else []).

Definition newFee (paymentScriptLen : Z) (sel : Selection) : JsNumber.number :=
  Double.ceil
    (Double.mul (Double.ofZ (estimatedVsize (composition paymentScriptLen sel)))
                feeRate).

(** [plan n fee r]: with [n] iterations left and the current [fee], the
    loop ends in [r]. *)
Inductive plan : nat -> JsNumber.number -> result (Selection * JsNumber.number) -> Prop :=
| plan_exhausted (fee : JsNumber.number) :
    plan 0 fee (Throw CouldNotConverge)
| plan_unselectable (n : nat) (fee : JsNumber.number) (e : Error) :
    selects coins (JsNumber.add (JsNumber.ofZ amount) fee) (Throw e) ->
    plan (S n) fee (Throw e)
| plan_undecodable (n : nat) (fee : JsNumber.number) (sel : Selection) (e : Error) :
    selects coins (JsNumber.add (JsNumber.ofZ amount) fee) (Ok sel) ->
    scriptLengthOf recipientAddress = Throw e ->
    plan (S n) fee (Throw e)
| plan_converged (n : nat) (fee : JsNumber.number) (sel : Selection)
    (paymentScriptLen : Z) :
    selects coins (JsNumber.add (JsNumber.ofZ amount) fee) (Ok sel) ->
    scriptLengthOf recipientAddress = Ok paymentScriptLen ->
    JsNumber.le (newFee paymentScriptLen sel) fee = true ->
    plan (S n) fee (Ok (sel, newFee paymentScriptLen sel))
| plan_retry (n : nat) (fee : JsNumber.number) (sel : Selection)
    (paymentScriptLen : Z) (r : result (Selection * JsNumber.number)) :
    selects coins (JsNumber.add (JsNumber.ofZ amount) fee) (Ok sel) ->
    scriptLengthOf recipientAddress = Ok paymentScriptLen ->
    JsNumber.le (newFee paymentScriptLen sel) fee = false ->
    plan n (newFee paymentScriptLen sel) r ->
    plan (S n) fee r.

End Plan.
End SendPlan.

(** ** The unroll scan, in the words of the specification *)

Module ScanSpec.
Import Unroll.Session.

(** A node the scan continues past: skipped by its type, or found
    confirmed. *)
Definition passed (explorer : OnchainProvider) (node : ChainTx.t) : Prop :=
  skipped node = true \/
  exists h t, getTxStatus explorer (ChainTx.txid node) = Ok (Confirmed h t).

(** A node found on-chain but unconfirmed. *)
Definition unconfirmed (explorer : OnchainProvider) (node : ChainTx.t) : Prop :=
  skipped node = false /\
  getTxStatus explorer (ChainTx.txid node) = Ok Unconfirmed.

(** [node] sits at index [i], and the scan, coming down from the highest
    index, continues past every node above it. *)
Definition reached (explorer : OnchainProvider) (chain : list ChainTx.t)
    (i : nat) (node : ChainTx.t) : Prop :=
  nth_error chain i = Some node /\
  forall (j : nat) (above : ChainTx.t),
    (i < j)%nat -> nth_error chain j = Some above -> passed explorer above.

(** Rule 4 of section 4.6, the witness of the transaction to broadcast:
    for a TREE node, [tx] is [raw] with the key signature stored on its
    first input applied as that input's witness; for any other node, [tx]
    is what the library's script finalisation makes of [raw]. *)
Definition finalised (lib : TransactionLib) (node : ChainTx.t) (raw tx : Tx.t) : Prop :=
  match ChainTx.type node with
  | TREE =>
      exists input others tapKeySig,
        Tx.inputs raw = input :: others /\
        Tx.tapKeySig input = Some tapKeySig /\
        Tx.version tx = Tx.version raw /\
        Tx.outputs tx = Tx.outputs raw /\
        Tx.inputs tx =
          Tx.mkInput (Tx.txid input) (Tx.index input) (Tx.witnessAmount input)
                     (Some tapKeySig) (Some [tapKeySig]) :: others
  | _ => finalize lib raw = Ok tx
  end.

(** The same session, asking another explorer. *)
Definition asking (explorer' : OnchainProvider) (this : t) : t :=
  mk (txid this) (vout this) (chain this) (bumper this) explorer' (indexer this).

End ScanSpec.

(** ** Statements of the specification that are examined below

    Each is the sentence of the specification as it is worded, over the
    definitions above; the properties part settles whether it holds. *)

Module Stated.
Import JsNumber.

(** A coin's value is a non-negative number of satoshis (section 3). *)
Definition nonNegative (c : Coin.t) : Prop := 0 <= Coin.value c.

(** Section 8: for [0 <= target <= sum(values)], [select] returns inputs
    summing to at least target (strictly greater if [forceChange]), with
    [changeAmount = sum(inputs) - target]. *)
Definition coversTarget (coins : list Coin.t) (target : Z) (forceChange : bool) : Prop :=
  0 <= target <= sumValues coins ->
  exists sel,
    selectCoins coins (ofZ target) forceChange = Ok sel /\
    target <= sumValues (inputs sel) /\
    (forceChange = true -> target < sumValues (inputs sel)) /\
    changeAmount sel = sumValues (inputs sel) - target.

Definition invalidAmount (e : Error) : Prop :=
  e = TargetAmountIsNaN \/ e = TargetAmountIsNegative.

Definition finiteInteger (n : number) : bool :=
  match n with
  | Fin q => isInteger q
  | _ => false
  end.

(** Section 4.2: fails with [InvalidAmount] if target is negative or not a
    finite integer. *)
Definition rejectsInvalidAmount (coins : list Coin.t) (target : number)
    (forceChange : bool) : Prop :=
  lt target (ofZ 0) = true \/ finiteInteger target = false ->
  exists e, selectCoins coins target forceChange = Throw e /\ invalidAmount e.

(** Section 7: any provider error other than [NotFound], met while probing
    confirmation status during the scan, propagates and aborts the step. *)
Definition otherFaultsPropagate (lib : TransactionLib) (this : Unroll.Session.t) : Prop :=
  forall (i : nat) (node : ChainTx.t) (f : ProviderFault),
    ScanSpec.reached (Unroll.Session.explorer this) (Unroll.Session.chain this) i node ->
    Unroll.Session.skipped node = false ->
    getTxStatus (Unroll.Session.explorer this) (ChainTx.txid node) = Throw (Provider f) ->
    f <> NotFound ->
    Unroll.Session.next lib this = Throw (Provider f).

(** Sections 4.4 and 7: a package whose submission fails is a failed outcome
    of the call. *)
Definition submissionFailureSurfaced (P2A_amount : Z) (lib : TransactionLib)
    (this : OnchainWallet.t) (parent : Tx.t) : Prop :=
  forall (child : Tx.t) (e : Error),
    OnchainWallet.buildChild P2A_amount lib this parent = Ok child ->
    broadcastTransaction (OnchainWallet.provider this) [hex lib parent; hex lib child]
      = Throw e ->
    exists e', OnchainWallet.completion
                 (OnchainWallet.bumpP2A P2A_amount lib this parent) = Throw e'.

End Stated.

(** ** A wallet whose explorer is unreachable

    The concrete collaborators used to run the model: a transaction library
    that always succeeds, a signer, an indexer that knows every
    transaction, and an explorer on which every status query and every
    broadcast fails with a network error. *)

Module Scenario.
Import JsNumber.

Definition anchor : Tx.Input := Tx.mkInput "parent" 1 240 None None.

Definition lib : TransactionLib := {|
  hex := fun tx => if (Tx.version tx =? 3)%Z then "childhex" else "parenthex";
  id := fun _ => "id";
  vsizeOf := fun _ => 150;
  fromPSBT := fun _ => Ok (Tx.mk 2 [Tx.mkInput "prev" 0 1000 (Some "sig") None] []);
  finalize := fun tx => Ok tx;
  finalizeIdx := fun _ tx => Ok tx;
  findP2AOutput := fun _ => Ok anchor
|}%string.

(** The script library's decoder on testnet addresses, as far as the
    lengths go: 34 bytes for a taproot script, 22 for a native-segwit one,
    and a failure on anything else. *)
Definition scriptLengthOf (address : string) : result Z :=
  if String.prefix "tb1p" address then Ok 34
  else if String.prefix "tb1q" address then Ok 22
  else Throw (Library "Unknown address type").

(** The doubles nearest to 1.1 and to 1.3. *)
Definition rate_1_1 : Double.t := S754_finite false 4953959590107546 (-52).
Definition rate_1_3 : Double.t := S754_finite false 5854679515581645 (-52).

Definition unreachable : OnchainProvider := {|
  getCoins := fun _ => Ok [Coin.mk "funds" 0 10000];
  getFeeRate := Ok (ofZ 1);
  broadcastTransaction := fun _ => Throw (Provider NetworkFailure);
  getTxStatus := fun _ => Throw (Provider NetworkFailure);
  getChainTip := Ok (mkBlockTime 800000 1700000000)
|}%string.

Definition signer : Identity := {| sign := fun tx => Ok tx |}.

Definition wallet : OnchainWallet.t :=
  OnchainWallet.mk signer "tb1p-wallet" 34 unreachable.

Definition bumper : AnchorBumper := {|
  bumpP2A := fun tx => OnchainWallet.completion (OnchainWallet.bumpP2A 240 lib wallet tx)
|}.

Definition indexer : IndexerProvider := {|
  getVirtualTxs := fun _ => Ok ["psbt"%string]
|}.

Definition session : Unroll.Session.t :=
  Unroll.Session.mk "vtxo" 0
    [ChainTx.mk "leaf" ARK; ChainTx.mk "root" COMMITMENT]
    bumper unreachable indexer.

Definition parent : Tx.t := Tx.mk 2 [Tx.mkInput "prev" 0 1000 None None] [].

(** For the final sweep: an explorer on which everything is confirmed, and a
    wallet that holds one fully unrolled VTXO of the given value, with a
    block-denominated and a time-denominated exit. *)
Definition settled : OnchainProvider := {|
  getCoins := fun _ => Ok [];
  getFeeRate := Ok (ofZ 2);
  broadcastTransaction := fun _ => Ok "txid";
  getTxStatus := fun _ => Ok (Confirmed 799000 1690000000);
  getChainTip := Ok (mkBlockTime 800000 1700000000)
|}%string.

Definition exits : list ExitPath.t :=
  [ExitPath.mk blocks 144 "csv-blocks"; ExitPath.mk seconds 300 "csv-seconds"].

Definition vtxoWorth (value : Z) : Vtxo.t :=
  Vtxo.mk "vtxo" 0 value true exits (fun _ => Some (Vtxo.mkLeaf 33 40)).

Definition holding (value : Z) : Wallet.t :=
  Wallet.mk settled signer (Ok [vtxoWorth value]).

(** For the scan: a chain of three nodes, and two explorers that know the
    middle one as unconfirmed and differ on the leaf below it. *)
Definition threeNodes : list ChainTx.t :=
  [ChainTx.mk "leaf" ARK; ChainTx.mk "mid" TREE; ChainTx.mk "root" COMMITMENT].

Definition midPending (leaf : result TxStatus) : OnchainProvider := {|
  getCoins := fun _ => Ok [];
  getFeeRate := Ok (ofZ 1);
  broadcastTransaction := fun _ => Ok "txid";
  getTxStatus := fun txid => if (txid =? "mid")%string then Ok Unconfirmed else leaf;
  getChainTip := Ok (mkBlockTime 800000 1700000000)
|}%string.

Definition watching (explorer : OnchainProvider) : Unroll.Session.t :=
  Unroll.Session.mk "vtxo" 0 threeNodes bumper explorer indexer.


End Scenario.

(** * Properties *)

(** ** The size estimator *)

Section EstimatorFacts.
Import TxWeightEstimator SizeSpec.

(** Steps through one builder call and spells the size constants out. *)
Ltac est_simpl :=
  cbn [apply addP2AInput addKeySpendInput addP2PKHInput addTapscriptInput
       addP2WPKHOutput addP2TROutput addOutputAddress create
       hasWitness inputCount outputCount inputSize outputSize
       inputWitnessSize isInput marksWitness strippedBytes witnessBytes
       validOp negb orb] in *;
  unfold INPUT_SIZE, P2PKH_SCRIPT_SIG_SIZE, BASE_CONTROL_BLOCK_SIZE,
         OUTPUT_SIZE, P2WPKH_OUTPUT_SIZE, P2TR_OUTPUT_SIZE in *.

Lemma Qceiling_quarter (w : Z) :
  Qceiling (inject_Z w / inject_Z 4) = (w + 3) / 4.
Proof.
  unfold Qceiling, Qfloor, Qdiv, Qmult, Qinv, Qopp, inject_Z; simpl.
  rewrite Z.mul_1_r.
  Z.to_euclidean_division_equations; lia.
Qed.

Lemma vsize_value (e : t) :
  value (vsize e) =
  ((10 + getVarIntSize (inputCount e) + inputSize e
       + getVarIntSize (outputCount e) + outputSize e) * 4
   + (if hasWitness e then 2 + inputWitnessSize e else 0) + 3) / 4.
Proof.
  unfold vsize, vsizeOfWeight; cbn [value].
  unfold WITNESS_SCALE_FACTOR, BASE_TX_SIZE, WITNESS_HEADER_SIZE.
  rewrite Qceiling_quarter.
  destruct (hasWitness e); f_equal; lia.
Qed.

Lemma getVarIntSize_mono (a b : Z) : a <= b -> getVarIntSize a <= getVarIntSize b.
Proof.
  intros Hab; unfold getVarIntSize.
  repeat match goal with
         | |- context [?x <? ?y] => destruct (Z.ltb_spec x y)
         end; lia.
Qed.

Lemma getVarIntSize_pos (a : Z) : 1 <= getVarIntSize a.
Proof.
  unfold getVarIntSize.
  repeat match goal with
         | |- context [?x <? ?y] => destruct (Z.ltb_spec x y)
         end; lia.
Qed.

Lemma count_cons (p : Op -> bool) (op : Op) (ops : list Op) :
  count p (op :: ops) = (if p op then 1 else 0) + count p ops.
Proof.
  unfold count; cbn [filter]. destruct (p op); cbn [List.length]; lia.
Qed.

(** What a run adds to each field of the estimator it starts from. *)
Lemma run_fields (ops : list Op) : forall e,
  let e' := run ops e in
  hasWitness e' = hasWitness e || witnessPresent ops /\
  inputCount e' = inputCount e + count isInput ops /\
  outputCount e' = outputCount e + count isOutput ops /\
  inputSize e' + outputSize e' = inputSize e + outputSize e + total strippedBytes ops /\
  inputWitnessSize e' = inputWitnessSize e + total witnessBytes ops.
Proof.
  induction ops as [|op ops IH]; intros e; cbn zeta.
  - unfold run, witnessPresent, count, total; cbn.
    rewrite orb_false_r. repeat split; lia.
  - change (run (op :: ops) e) with (run ops (apply op e)).
    destruct (IH (apply op e)) as (Hw & Hi & Ho & Hs & Hb).
    rewrite Hw, Hi, Ho, Hs, Hb, !count_cons.
    unfold witnessPresent, total, isOutput; cbn [existsb fold_right].
    destruct op as [| d | | w s c | | | len]; est_simpl; try destruct d;
      rewrite ?orb_true_r, ?orb_false_r; repeat split; try lia;
      try reflexivity.
Qed.

Lemma total_witnessBytes_nonneg (ops : list Op) :
  Forall validOp ops -> 0 <= total witnessBytes ops.
Proof.
  induction 1 as [|op ops Hop _ IH]; [cbn; lia|].
  change (total witnessBytes (op :: ops))
    with (witnessBytes op + total witnessBytes ops).
  destruct op as [| d | | w s c | | | len]; est_simpl; try destruct d; lia.
Qed.

Lemma vsize_le (e e' : t) :
  (10 + getVarIntSize (inputCount e) + inputSize e
      + getVarIntSize (outputCount e) + outputSize e) * 4
    + (if hasWitness e then 2 + inputWitnessSize e else 0)
  <= (10 + getVarIntSize (inputCount e') + inputSize e'
        + getVarIntSize (outputCount e') + outputSize e') * 4
    + (if hasWitness e' then 2 + inputWitnessSize e' else 0) ->
  value (vsize e) <= value (vsize e').
Proof.
  intros H. rewrite !vsize_value. apply Z.div_le_mono; lia.
Qed.

Lemma apply_monotone (op : Op) (e : t) :
  validOp op -> 0 <= inputWitnessSize e ->
  value (vsize e) <= value (vsize (apply op e)).
Proof.
  intros Hop Hw. apply vsize_le.
  pose proof (getVarIntSize_mono (inputCount e) (inputCount e + 1) ltac:(lia)).
  pose proof (getVarIntSize_mono (outputCount e) (outputCount e + 1) ltac:(lia)).
  destruct op as [| d | | w s c | | | len]; est_simpl;
    try destruct d; try pose proof (getVarIntSize_pos len);
    destruct (hasWitness e); lia.
Qed.

(** The size of a run on a fresh estimator, by its weight. *)
Lemma vsize_of_run (ops : list Op) :
  value (vsize (run ops create)) = (weight ops + 3) / 4.
Proof.
  destruct (run_fields ops create) as (Hw & Hi & Ho & Hs & Hb).
  cbn [create hasWitness inputCount outputCount inputSize outputSize
       inputWitnessSize orb] in *.
  rewrite vsize_value, Hw, Hi, Ho, Hb.
  unfold weight, strippedSize. rewrite !Z.add_0_l.
  f_equal. destruct (witnessPresent ops); lia.
Qed.

(** C7.  For every sequence of add-input / add-output calls on a fresh
    estimator, [vsize()] has [value = ceil(weight / 4)], where [weight]
    is four times the stripped size (10 bytes of base, the two counts as
    varints, 41 bytes per input besides a legacy scriptSig, the output
    bytes) plus, only when some added input marked the witness-present
    flag, the 2-byte witness header and the accumulated witness bytes;
    and [fee(rate) = rate * value] in exact integer arithmetic. *)
Theorem vsize_is_ceil_of_weight (ops : list Op) :
  let v := vsize (run ops create) in
  value v = Qceiling (inject_Z (weight ops) / inject_Z 4) /\
  4 * (value v - 1) < weight ops <= 4 * value v /\
  (forall rate : Z, fee v rate = rate * value v).
Proof.
  cbn zeta.
  destruct (run_fields ops create) as (Hw & Hi & Ho & Hs & Hb).
  cbn [create hasWitness inputCount outputCount inputSize outputSize
       inputWitnessSize orb] in *.
  assert (Hv : value (vsize (run ops create)) = (weight ops + 3) / 4).
  { rewrite vsize_value, Hw, Hi, Ho, Hb.
    unfold weight, strippedSize. rewrite !Z.add_0_l.
    f_equal. destruct (witnessPresent ops); lia. }
  split; [|split].
  - rewrite Qceiling_quarter. exact Hv.
  - rewrite Hv. Z.to_euclidean_division_equations; lia.
  - intros rate. reflexivity.
Qed.

(** C8.  On every estimator reached by calls with byte lengths as
    sizes, one more add-input or add-output call does not decrease
    [vsize]; and on any estimator a Taproot output gives a strictly larger
    [vsize], and a strictly larger fee at any positive rate, than a
    native-segwit output. *)
Theorem vsize_monotone_taproot_larger
    (ops : list Op) (op : Op) (e : t) (rate : Z) :
  Forall validOp ops -> validOp op -> 0 < rate ->
  value (vsize (run ops create)) <= value (vsize (run (ops ++ [op]) create)) /\
  value (vsize (addP2WPKHOutput e)) < value (vsize (addP2TROutput e)) /\
  value (vsize (addOutputAddress 22 e)) < value (vsize (addOutputAddress 34 e)) /\
  fee (vsize (addP2WPKHOutput e)) rate < fee (vsize (addP2TROutput e)) rate /\
  fee (vsize (addOutputAddress 22 e)) rate < fee (vsize (addOutputAddress 34 e)) rate.
Proof.
  intros Hops Hop Hrate.
  assert (Hlt1 : value (vsize (addP2WPKHOutput e)) < value (vsize (addP2TROutput e))).
  { rewrite !vsize_value; est_simpl.
    destruct (hasWitness e); Z.to_euclidean_division_equations; lia. }
  assert (Hlt2 : value (vsize (addOutputAddress 22 e))
                 < value (vsize (addOutputAddress 34 e))).
  { rewrite !vsize_value; est_simpl.
    change (getVarIntSize 22) with 1; change (getVarIntSize 34) with 1.
    destruct (hasWitness e); Z.to_euclidean_division_equations; lia. }
  split; [|split; [exact Hlt1|split; [exact Hlt2|split]]].
  - unfold run at 2. rewrite fold_left_app. cbn [fold_left].
    fold (run ops create).
    apply apply_monotone; [exact Hop|].
    destruct (run_fields ops create) as (_ & _ & _ & _ & Hb).
    rewrite Hb. cbn. apply total_witnessBytes_nonneg; exact Hops.
  - change (rate * value (vsize (addP2WPKHOutput e))
            < rate * value (vsize (addP2TROutput e))).
    apply Z.mul_lt_mono_pos_l; assumption.
  - change (rate * value (vsize (addOutputAddress 22 e))
            < rate * value (vsize (addOutputAddress 34 e))).
    apply Z.mul_lt_mono_pos_l; assumption.
Qed.

Lemma vsize_monotone_taproot_larger_witness :
  let ops := [AddKeySpendInput true; AddP2PKHInput] in
  let op := AddTapscriptInput 64 40 33 in
  Forall validOp ops /\ validOp op /\
  value (vsize (run ops create)) <= value (vsize (run (ops ++ [op]) create)) /\
  fee (vsize (addP2WPKHOutput create)) 10 < fee (vsize (addP2TROutput create)) 10.
Proof.
  cbn zeta.
  assert (Hops : Forall validOp [AddKeySpendInput true; AddP2PKHInput])
    by (repeat constructor).
  assert (Hop : validOp (AddTapscriptInput 64 40 33)) by (cbn; lia).
  split; [exact Hops|split; [exact Hop|]].
  pose proof (vsize_monotone_taproot_larger
                [AddKeySpendInput true; AddP2PKHInput]
                (AddTapscriptInput 64 40 33) create 10 Hops Hop ltac:(lia))
    as (H1 & _ & _ & H4 & _).
  split; [exact H1 | exact H4].
Defined.

End EstimatorFacts.

(** ** Numbers that are integers *)

Section NumberFacts.
Import JsNumber.

Lemma lt_ofZ (a b : Z) : lt (ofZ a) (ofZ b) = (a <? b).
Proof.
  unfold lt, ofZ, Qle_bool, inject_Z; cbn [Qnum Qden].
  rewrite !Z.mul_1_r. symmetry; apply Z.ltb_antisym.
Qed.

Lemma le_ofZ (a b : Z) : le (ofZ a) (ofZ b) = (a <=? b).
Proof.
  unfold le, ofZ, Qle_bool, inject_Z; cbn [Qnum Qden].
  rewrite !Z.mul_1_r. reflexivity.
Qed.

Lemma strictEq_ofZ (a b : Z) : strictEq (ofZ a) (ofZ b) = (a =? b).
Proof.
  unfold strictEq, ofZ, Qeq_bool, inject_Z; cbn [Qnum Qden].
  rewrite !Z.mul_1_r. reflexivity.
Qed.

Lemma BigInt_sub_ofZ (a b : Z) : BigInt (sub (ofZ a) (ofZ b)) = Ok (a - b).
Proof.
  unfold BigInt, sub, ofZ, isInteger, Qfloor, Qminus, Qplus, Qopp, inject_Z;
    cbn [Qnum Qden Pos.mul].
  rewrite Z.mod_1_r, Z.div_1_r, !Z.mul_1_r. cbn [Z.eqb]. f_equal; lia.
Qed.

Lemma add_ofZ (a b : Z) : add (ofZ a) (ofZ b) = ofZ (a + b).
Proof.
  unfold add, ofZ, Qplus, inject_Z; cbn [Qnum Qden Pos.mul].
  rewrite !Z.mul_1_r. reflexivity.
Qed.

Lemma add_integral (a : Z) (n : number) : integral n -> integral (add (ofZ a) n).
Proof.
  destruct n as [| | |q]; cbn [add ofZ integral]; try (intros _; exact I).
  intros [z Hz]. exists (a + z). fold (ofZ a). rewrite <- add_ofZ, <- Hz. reflexivity.
Qed.

(** What is at most an integer is at most every larger integer. *)
Lemma le_ofZ_trans (n : number) (a b : Z) :
  le n (ofZ a) = true -> a <= b -> le n (ofZ b) = true.
Proof.
  destruct n as [| | |q]; cbn [le ofZ]; intros Hle Hab; try assumption.
  apply Qle_bool_iff in Hle. apply Qle_bool_iff.
  apply Qle_trans with (inject_Z a); [exact Hle|].
  rewrite <- Zle_Qle. exact Hab.
Qed.

(** A number above an integer is above every smaller integer. *)
Lemma below_stays_below (a b : Z) (n : number) :
  a <= b -> lt (ofZ b) n = true ->
  ge (ofZ a) n = false /\ gt (ofZ a) n = false /\
  strictEq (ofZ a) n = false /\ lt (ofZ a) n = true.
Proof.
  intros Hab Hlt. destruct n as [| | |q]; cbn in Hlt |- *; try discriminate;
    try (repeat split; reflexivity).
  apply negb_true_iff in Hlt.
  assert (Hbq : (inject_Z b < q)%Q).
  { apply Qnot_le_lt. intros Hle. apply Qle_bool_iff in Hle. congruence. }
  assert (Haq : (inject_Z a < q)%Q).
  { apply Qle_lt_trans with (inject_Z b); [|exact Hbq].
    rewrite <- Zle_Qle. exact Hab. }
  assert (Hnle : Qle_bool q (inject_Z a) = false).
  { apply not_true_is_false. intros Hle. apply Qle_bool_iff in Hle.
    apply Qlt_not_le in Haq. contradiction. }
  unfold ge, gt, le, lt, strictEq, ofZ. repeat split.
  - exact Hnle.
  - apply negb_false_iff. apply Qle_bool_iff. apply Qlt_le_weak. exact Haq.
  - apply not_true_is_false. intros Heq. apply Qeq_bool_iff in Heq.
    rewrite Heq in Haq. apply Qlt_irrefl in Haq. exact Haq.
  - rewrite Hnle. reflexivity.
Qed.

End NumberFacts.

(** ** Doubles *)

Section DoubleFacts.
Import Double.

Lemma digits2_pos_size (m : positive) : digits2_pos m = Pos.size m.
Proof. induction m; cbn; congruence. Qed.

Lemma digits_log2 (m : positive) : digits m = Z.log2 (Zpos m) + 1.
Proof.
  unfold digits. rewrite digits2_pos_size.
  destruct m; cbn; rewrite ?Pos.add_1_r; reflexivity.
Qed.

Lemma digits_pos (m : positive) : 1 <= digits m.
Proof. unfold digits. lia. Qed.

Lemma Zdigits2_log2 (x : Z) : 0 < x -> Zdigits2 x = Z.log2 x + 1.
Proof. destruct x as [|p|p]; try lia. intros _. apply digits_log2. Qed.

Lemma shr_1_m (r : shr_record) :
  0 <= shr_m r -> shr_m (shr_1 r) = shr_m r / 2.
Proof.
  destruct r as [m b1 b2]. cbn [shr_m]. intros Hm.
  destruct m as [|[p|p|]|p]; cbn [shr_1 shr_m];
    Z.to_euclidean_division_equations; lia.
Qed.

Lemma pow2_pos (k : Z) : 0 <= k -> 0 < 2 ^ k.
Proof. intros. apply Z.pow_pos_nonneg; lia. Qed.

Lemma pow2_xO (p : positive) : 2 ^ Zpos p~0 = 2 ^ Zpos p * 2 ^ Zpos p.
Proof.
  replace (Zpos p~0) with (Zpos p + Zpos p) by lia.
  apply Z.pow_add_r; lia.
Qed.

Lemma pow2_xI (p : positive) : 2 ^ Zpos p~1 = 2 * (2 ^ Zpos p * 2 ^ Zpos p).
Proof.
  replace (Zpos p~1) with (1 + Zpos p~0) by lia.
  rewrite Z.pow_add_r by lia. rewrite pow2_xO. reflexivity.
Qed.

Lemma iter_shr_1_m (p : positive) : forall r,
  0 <= shr_m r -> shr_m (iter_pos shr_1 p r) = shr_m r / 2 ^ Zpos p.
Proof.
  induction p as [p IH|p IH|]; intros r Hr; cbn [iter_pos].
  - assert (H1 : 0 <= shr_m (shr_1 r)) by (rewrite shr_1_m by lia; apply Z.div_pos; lia).
    assert (H2 : 0 <= shr_m (iter_pos shr_1 p (shr_1 r)))
      by (rewrite IH by lia; apply Z.div_pos; [lia|apply Z.pow_pos_nonneg; lia]).
    rewrite IH, IH, shr_1_m by lia.
    rewrite !Z.div_div by (pose proof (pow2_pos (Zpos p) ltac:(lia)); lia).
    rewrite pow2_xI. f_equal; lia.
  - assert (H2 : 0 <= shr_m (iter_pos shr_1 p r))
      by (rewrite IH by lia; apply Z.div_pos; [lia|apply Z.pow_pos_nonneg; lia]).
    rewrite IH, IH by lia.
    rewrite !Z.div_div by (pose proof (pow2_pos (Zpos p) ltac:(lia)); lia).
    rewrite pow2_xO. reflexivity.
  - rewrite shr_1_m by lia. reflexivity.
Qed.

Lemma shr_spec (r : shr_record) (e n : Z) :
  0 <= shr_m r ->
  shr_m (fst (shr r e n)) = shr_m r / 2 ^ Z.max 0 n /\
  snd (shr r e n) = e + Z.max 0 n.
Proof.
  intros Hr. destruct n as [|p|p]; cbn [shr fst snd].
  - cbn. rewrite Z.div_1_r. lia.
  - rewrite iter_shr_1_m by exact Hr. rewrite Z.max_r by lia. lia.
  - cbn. rewrite Z.div_1_r. lia.
Qed.

Lemma shr_record_of_loc_m (m : Z) (l : location) : shr_m (shr_record_of_loc m l) = m.
Proof. destruct l as [|[| |]]; reflexivity. Qed.

Lemma round_nearest_even_range (m : Z) (l : location) :
  round_nearest_even m l = m \/ round_nearest_even m l = m + 1.
Proof.
  destruct l as [|[| |]]; cbn; try (left; reflexivity); try (right; reflexivity).
  destruct (Z.even m); [left|right]; reflexivity.
Qed.

Lemma log2_div_pow2 (x k : Z) :
  0 < x -> 0 <= k -> k <= Z.log2 x -> Z.log2 (x / 2 ^ k) = Z.log2 x - k /\ 0 < x / 2 ^ k.
Proof.
  intros Hx Hk Hle.
  rewrite <- Z.shiftr_div_pow2 by lia.
  rewrite Z.log2_shiftr by lia. split; [lia|].
  rewrite Z.shiftr_div_pow2 by lia.
  apply Z.div_str_pos. split; [apply Z.pow_pos_nonneg; lia|].
  apply Z.le_trans with (2 ^ Z.log2 x).
  - apply Z.pow_le_mono_r; lia.
  - apply Z.log2_spec. lia.
Qed.

Lemma fexp_eq (x : Z) : fexp prec emax x = Z.max (x - 53) emin.
Proof. reflexivity. Qed.

(** Rounding a positive value to a double keeps its sign and does not
    lower its binary order of magnitude. *)
Lemma binary_round_aux_atLeast (s : bool) (m : positive) (e : Z) :
  emin < digits m + e ->
  atLeast (digits m + e) s
    (binary_round_aux prec emax s (Zpos m) e loc_Exact).
Proof.
  intros Hmin. unfold binary_round_aux, shr_fexp.
  set (d := digits m) in *.
  assert (Hd : Zdigits2 (Zpos m) = d) by reflexivity.
  rewrite Hd, fexp_eq.
  set (n1 := Z.max (d + e - 53) emin - e).
  pose proof (shr_spec (shr_record_of_loc (Zpos m) loc_Exact) e n1 ltac:(cbn; lia))
    as [Hm1 He1].
  destruct (shr (shr_record_of_loc (Zpos m) loc_Exact) e n1) as [mrs' e'].
  cbn [fst snd] in Hm1, He1. cbn [shr_record_of_loc shr_m] in Hm1.
  pose proof (digits_log2 m) as Hlog. fold d in Hlog.
  pose proof (digits_pos m) as Hdpos. fold d in Hdpos.
  assert (Hk1 : 0 <= Z.max 0 n1 <= Z.log2 (Zpos m)) by (unfold n1; lia).
  destruct (log2_div_pow2 (Zpos m) (Z.max 0 n1) ltac:(lia) ltac:(lia) ltac:(lia))
    as [Hlog1 Hpos1].
  rewrite <- Hm1 in Hlog1, Hpos1.
  set (m1 := shr_m mrs') in *.
  set (m2 := round_nearest_even m1 (loc_of_shr_record mrs')).
  assert (Hm2 : m2 = m1 \/ m2 = m1 + 1) by apply round_nearest_even_range.
  assert (Hm2pos : 0 < m2) by lia.
  assert (Hlog2 : Z.log2 m1 <= Z.log2 m2 <= Z.log2 m1 + 1).
  { destruct Hm2 as [->| ->]; [lia|]. split.
    - apply Z.log2_le_mono. lia.
    - pose proof (Z.log2_succ_le m1). unfold Z.succ in *. lia. }
  rewrite fexp_eq, (Zdigits2_log2 m2 Hm2pos).
  set (n2 := Z.max (Z.log2 m2 + 1 + e' - 53) emin - e').
  pose proof (shr_spec (shr_record_of_loc m2 loc_Exact) e' n2
                ltac:(rewrite shr_record_of_loc_m; lia)) as [Hm3 He3].
  destruct (shr (shr_record_of_loc m2 loc_Exact) e' n2) as [mrs'' e''].
  cbn [fst snd] in Hm3, He3. rewrite shr_record_of_loc_m in Hm3.
  assert (Hk2 : 0 <= Z.max 0 n2 <= Z.log2 m2) by (unfold n2, n1 in *; lia).
  destruct (log2_div_pow2 m2 (Z.max 0 n2) Hm2pos ltac:(lia) ltac:(lia))
    as [Hlog3 Hpos3].
  rewrite <- Hm3 in Hlog3, Hpos3.
  destruct (shr_m mrs'') as [|m3|m3] eqn:Hm3eq; try lia.
  destruct (e'' <=? emax - prec); [right|left; reflexivity].
  exists m3, e''. split; [reflexivity|].
  rewrite (digits_log2 m3). unfold n2, n1 in *. lia.
Qed.


Lemma atLeast_weaken (k k' : Z) (s : bool) (x : spec_float) :
  k <= k' -> atLeast k' s x -> atLeast k s x.
Proof.
  intros Hk [->|(m & e & -> & H)]; [left; reflexivity|right].
  exists m, e. split; [reflexivity|lia].
Qed.

Lemma digits_iter_xO (d : positive) (m : positive) :
  digits (Pos.iter xO m d) = digits m + Zpos d.
Proof.
  revert m. induction d as [|d IH] using Pos.peano_ind; intros m.
  - cbn [Pos.iter]. unfold digits. cbn [digits2_pos]. lia.
  - rewrite Pos.iter_succ. unfold digits in *. cbn [digits2_pos].
    specialize (IH m). lia.
Qed.

Lemma shl_align_digits (mx : positive) (ex ex' : Z) :
  digits (fst (shl_align mx ex ex')) + snd (shl_align mx ex ex') = digits mx + ex.
Proof.
  unfold shl_align. destruct (ex' - ex) as [|d|d] eqn:Hd; cbn [fst snd]; try reflexivity.
  rewrite digits_iter_xO. lia.
Qed.

Lemma ofZ_atLeast (p : positive) : atLeast (digits p) false (ofZ (Zpos p)).
Proof.
  unfold ofZ, binary_normalize, binary_round.
  pose proof (shl_align_digits p 0
     (fexp prec emax (Zpos (digits2_pos p) + 0))) as H.
  destruct (shl_align p 0 (fexp prec emax (Zpos (digits2_pos p) + 0)))
    as [mz ez].
  cbn [fst snd] in H. rewrite Z.add_0_r in H. rewrite <- H.
  apply binary_round_aux_atLeast. pose proof (digits_pos p).
  unfold emin, emax, prec. lia.
Qed.

Lemma digits_mul (a b : positive) : digits a + digits b - 1 <= digits (a * b).
Proof.
  rewrite !digits_log2. rewrite Pos2Z.inj_mul.
  pose proof (Z.log2_mul_below (Zpos a) (Zpos b) ltac:(lia) ltac:(lia)). lia.
Qed.

Lemma mul_atLeast (kx ky : Z) (sx sy : bool) (x y : spec_float) :
  atLeast kx sx x -> atLeast ky sy y -> emin < kx + ky - 1 ->
  atLeast (kx + ky - 1) (xorb sx sy) (mul x y).
Proof.
  intros [->|(mx & ex & -> & Hx)] [->|(my & ey & -> & Hy)] Hmin;
    try (left; reflexivity).
  unfold mul, SFmul.
  pose proof (digits_mul mx my) as Hd.
  apply atLeast_weaken with (digits (mx * my) + (ex + ey)); [lia|].
  apply binary_round_aux_atLeast. lia.
Qed.

Lemma ceil_integral (x : t) : JsNumber.integral (ceil x).
Proof.
  destruct x as [s|[|]| |s m e]; cbn [ceil JsNumber.integral JsNumber.ofZ];
    try exact I; eexists; reflexivity.
Qed.

Lemma ceilFinite_positive (m : positive) (e : Z) : 1 <= ceilFinite false m e.
Proof.
  unfold ceilFinite. destruct (Z.leb_spec 0 e) as [He|He].
  - pose proof (pow2_pos e He). nia.
  - pose proof (pow2_pos (- e) ltac:(lia)) as Hp.
    pose proof (Z.div_lt_upper_bound (- Zpos m) (2 ^ (- e)) 0 Hp ltac:(lia)). lia.
Qed.

(** The ceiling of a positive double is an integer at least one, or
    infinite. *)
Lemma ceil_atLeast (k : Z) (x : t) :
  atLeast k false x ->
  ceil x = JsNumber.PInf \/ exists z, 1 <= z /\ ceil x = JsNumber.ofZ z.
Proof.
  intros [->|(m & e & -> & _)]; [left; reflexivity|right].
  exists (ceilFinite false m e). split; [apply ceilFinite_positive|reflexivity].
Qed.

Lemma isPositive_atLeast (x : t) :
  isPositive x = true -> atLeast (emin + 1) false x.
Proof.
  destruct x as [s|[|]| |[|] m e]; cbn [isPositive]; try discriminate.
  - intros _. left. reflexivity.
  - unfold valid, valid_binary, bounded, canonical_mantissa. intros H.
    apply andb_prop in H as [H _]. apply Z.eqb_eq in H. rewrite fexp_eq in H.
    right. exists m, e. split; [reflexivity|]. unfold digits. lia.
Qed.

(** The fee of a transaction of positive size at a positive rate is an
    integer at least one, or infinite, however the product is rounded. *)
Lemma priced_positive (v : Z) (rate : t) :
  1 <= v -> isPositive rate = true ->
  ceil (mul (ofZ v) rate) = JsNumber.PInf \/
  exists z, 1 <= z /\ ceil (mul (ofZ v) rate) = JsNumber.ofZ z.
Proof.
  intros Hv Hrate. destruct v as [|p|p]; try lia.
  apply (ceil_atLeast (digits p + (emin + 1) - 1)).
  change false with (xorb false false).
  apply mul_atLeast.
  - apply ofZ_atLeast.
  - apply isPositive_atLeast. exact Hrate.
  - pose proof (digits_pos p). lia.
Qed.

Lemma shr_1_even (m : Z) :
  0 <= m -> m mod 2 = 0 ->
  shr_1 (Build_shr_record m false false) = Build_shr_record (m / 2) false false.
Proof.
  intros Hm Heven. destruct m as [|[p|p|]|p]; cbn [shr_1 orb]; try lia.
  - reflexivity.
  - exfalso. rewrite Pos2Z.inj_xI in Heven. Z.to_euclidean_division_equations; lia.
  - f_equal. rewrite Pos2Z.inj_xO. Z.to_euclidean_division_equations; lia.
  - cbn in Heven. discriminate.
Qed.

Lemma iter_shr_1_exact (p : positive) : forall m,
  0 <= m -> (2 ^ Zpos p | m) ->
  iter_pos shr_1 p (Build_shr_record m false false)
  = Build_shr_record (m / 2 ^ Zpos p) false false.
Proof.
  induction p as [p IH|p IH|]; intros m Hm [c Hc]; cbn [iter_pos].
  - rewrite pow2_xI in Hc.
    pose proof (pow2_pos (Zpos p) ltac:(lia)) as Hp.
    rewrite shr_1_even; [|exact Hm|subst m; Z.to_euclidean_division_equations; nia].
    assert (H1 : m / 2 = c * (2 ^ Zpos p * 2 ^ Zpos p)).
    { subst m. Z.to_euclidean_division_equations; nia. }
    rewrite IH; [|lia|exists (c * 2 ^ Zpos p); lia].
    assert (H2 : m / 2 / 2 ^ Zpos p = c * 2 ^ Zpos p).
    { rewrite H1. rewrite Z.mul_assoc. apply Z.div_mul. lia. }
    rewrite IH; [|rewrite H2; nia|exists c; lia].
    f_equal. rewrite pow2_xI, H2.
    rewrite Z.div_mul by lia.
    subst m. symmetry. apply Z.div_mul. nia.
  - rewrite pow2_xO in Hc.
    pose proof (pow2_pos (Zpos p) ltac:(lia)) as Hp.
    rewrite IH; [|lia|exists (c * 2 ^ Zpos p); lia].
    assert (H2 : m / 2 ^ Zpos p = c * 2 ^ Zpos p).
    { subst m. rewrite Z.mul_assoc. apply Z.div_mul. lia. }
    rewrite IH; [|rewrite H2; nia|exists c; lia].
    f_equal. rewrite pow2_xO, H2. rewrite Z.div_mul by lia.
    subst m. symmetry. apply Z.div_mul. nia.
  - rewrite shr_1_even; [reflexivity|exact Hm|].
    change (2 ^ 1) with 2 in Hc. subst m. apply Z.mod_mul. lia.
Qed.


Lemma digits_mul_pow2 (q m : positive) (n : Z) :
  0 <= n -> Zpos m = Zpos q * 2 ^ n -> digits m = digits q + n.
Proof.
  intros Hn Hm. rewrite !digits_log2, Hm, Z.log2_mul_pow2 by lia. lia.
Qed.

(** Rounding what needs no rounding: a mantissa whose surplus digits are
    zeros only loses them. *)
Lemma binary_round_aux_exact (s : bool) (m q : positive) (e n e' : Z) :
  n = fexp prec emax (digits m + e) - e -> 0 <= n ->
  Zpos m = Zpos q * 2 ^ n -> e' = e + n -> e' <= emax - prec ->
  binary_round_aux prec emax s (Zpos m) e loc_Exact = S754_finite s q e'.
Proof.
  intros Hn Hn0 Hm He' Hmax.
  assert (Hfirst :
    shr (Build_shr_record (Zpos m) false false) e n
    = (Build_shr_record (Zpos q) false false, e')).
  { destruct n as [|p|p]; cbn [shr]; try lia.
    - rewrite Z.mul_1_r in Hm. rewrite Hm, He', Z.add_0_r. reflexivity.
    - rewrite iter_shr_1_exact; [|lia|exists (Zpos q); exact Hm].
      rewrite Hm, Z.div_mul by (pose proof (pow2_pos (Zpos p)); lia).
      rewrite He'. reflexivity. }
  unfold binary_round_aux, shr_fexp.
  change (Zdigits2 (Zpos m)) with (digits m). rewrite <- Hn.
  cbn [shr_record_of_loc]. rewrite Hfirst.
  cbn [shr_m loc_of_shr_record round_nearest_even shr_record_of_loc].
  change (Zdigits2 (Zpos q)) with (digits q).
  replace (fexp prec emax (digits q + e') - e') with 0.
  2:{ rewrite (digits_mul_pow2 q m n Hn0 Hm) in Hn.
      replace (digits q + e') with (digits q + n + e) by lia. lia. }
  cbn [shr shr_m].
  destruct (Z.leb_spec e' (emax - prec)); [reflexivity|lia].
Qed.

Lemma iter_xO_pow2 (k p : positive) : Zpos (Pos.iter xO p k) = Zpos p * 2 ^ Zpos k.
Proof.
  induction k as [|k IH] using Pos.peano_ind.
  - cbn [Pos.iter]. change (2 ^ 1) with 2. lia.
  - rewrite Pos.iter_succ, Pos2Z.inj_xO, IH, Pos2Z.inj_succ, Z.pow_succ_r by lia. ring.
Qed.

Lemma digits_small (p : positive) : digits p <= 53 <-> Zpos p < 2 ^ 53.
Proof.
  rewrite digits_log2. split; intros H.
  - apply Z.log2_lt_pow2; lia.
  - apply Z.log2_lt_pow2 in H; lia.
Qed.

(** [Number(z)] of an integer of at most 53 binary digits: the integer,
    its mantissa padded to 53 digits. *)
Lemma ofZ_exact (p : positive) :
  digits p <= 53 ->
  exists m, ofZ (Zpos p) = S754_finite false m (digits p - 53) /\
            Zpos m = Zpos p * 2 ^ (53 - digits p).
Proof.
  intros Hd. pose proof (digits_pos p) as Hpos.
  unfold ofZ, binary_normalize, binary_round.
  change (Zpos (digits2_pos p)) with (digits p).
  rewrite Z.add_0_r, fexp_eq, Z.max_l by (unfold emin, emax, prec; lia).
  unfold shl_align. rewrite Z.sub_0_r.
  destruct (digits p - 53) as [|k|k] eqn:Hk; try lia.
  - exists p. split.
    + apply binary_round_aux_exact with 0; try lia.
      * rewrite Z.add_0_r, fexp_eq. unfold emin, emax, prec. lia.
      * unfold emax, prec. lia.
    + replace (53 - digits p) with 0 by lia. lia.
  - exists (Pos.iter xO p k). split.
    + apply binary_round_aux_exact with 0; try lia.
      * rewrite fexp_eq, digits_iter_xO. unfold emin, emax, prec. lia.
      * unfold emax, prec. lia.
    + rewrite iter_xO_pow2. f_equal. f_equal. lia.
Qed.

Lemma digits_le_mul (a b : positive) : digits a <= digits (a * b).
Proof.
  rewrite !digits_log2. pose proof (Z.log2_le_mono (Zpos a) (Zpos (a * b))). nia.
Qed.

(** The product of two integers, as doubles, is their product as long as
    it has at most 53 binary digits. *)
Lemma mul_ofZ (a b : positive) :
  digits (a * b) <= 53 -> mul (ofZ (Zpos a)) (ofZ (Zpos b)) = ofZ (Zpos (a * b)).
Proof.
  intros Hd.
  pose proof (digits_le_mul a b) as Ha.
  pose proof (digits_le_mul b a) as Hb. rewrite (Pos.mul_comm b a) in Hb.
  pose proof (digits_mul a b) as Hlow.
  pose proof (digits_pos a) as Hpa. pose proof (digits_pos b) as Hpb.
  destruct (ofZ_exact a ltac:(lia)) as (ma & -> & Hma).
  destruct (ofZ_exact b ltac:(lia)) as (mb & -> & Hmb).
  destruct (ofZ_exact (a * b) Hd) as (mab & -> & Hmab).
  unfold mul, SFmul. cbn [xorb].
  assert (Hprod : Zpos (ma * mb)
                  = Zpos (a * b) * 2 ^ (106 - digits a - digits b)).
  { rewrite !Pos2Z.inj_mul, Hma, Hmb.
    replace (106 - digits a - digits b) with ((53 - digits a) + (53 - digits b)) by lia.
    rewrite Z.pow_add_r by lia. ring. }
  assert (Hdig : digits (ma * mb) = digits (a * b) + (106 - digits a - digits b)).
  { apply digits_mul_pow2; [lia|exact Hprod]. }
  apply binary_round_aux_exact
    with (digits (a * b) - 53 - (digits a - 53 + (digits b - 53))).
  - rewrite Hdig, fexp_eq. unfold emin, emax, prec. lia.
  - lia.
  - rewrite Hprod, Hmab, <- Z.mul_assoc, <- Z.pow_add_r by lia.
    f_equal. f_equal. lia.
  - lia.
  - unfold emax, prec. lia.
Qed.

Lemma ceil_ofZ (p : positive) :
  digits p <= 53 -> ceil (ofZ (Zpos p)) = JsNumber.ofZ (Zpos p).
Proof.
  intros Hd. destruct (ofZ_exact p Hd) as (m & -> & Hm).
  cbn [ceil]. f_equal. unfold ceilFinite.
  pose proof (pow2_pos (53 - digits p) ltac:(lia)) as Hp.
  destruct (Z.leb_spec 0 (digits p - 53)) as [He|He].
  - replace (digits p - 53) with 0 by lia.
    replace (53 - digits p) with 0 in Hm by lia. lia.
  - replace (- (digits p - 53)) with (53 - digits p) by lia.
    rewrite Hm, <- Z.mul_opp_l, Z.div_mul by lia. lia.
Qed.

(** [ceil] on a finite double is the ceiling of its value
    [(-1)^s * m * 2^e]. *)
Lemma ceil_is_ceiling (s : bool) (m : positive) (e : Z) :
  let signed := if s then Zneg m else Zpos m in
  exists z,
    ceil (S754_finite s m e) = JsNumber.ofZ z /\
    (0 <= e -> z = signed * 2 ^ e) /\
    (e < 0 -> (z - 1) * 2 ^ (- e) < signed <= z * 2 ^ (- e)).
Proof.
  cbn zeta. exists (ceilFinite s m e). split; [reflexivity|].
  unfold ceilFinite. split; intros He.
  - destruct (Z.leb_spec 0 e); [reflexivity|lia].
  - destruct (Z.leb_spec 0 e); [lia|].
    pose proof (pow2_pos (- e) ltac:(lia)) as Hp.
    set (b := 2 ^ (- e)) in *. clearbody b.
    destruct s; Z.to_euclidean_division_equations; nia.
Qed.

End DoubleFacts.

(** ** Coin selection *)

Section SelectionFacts.
Import JsNumber Stated.

Lemma sumValues_cons (c : Coin.t) (l : list Coin.t) :
  sumValues (c :: l) = Coin.value c + sumValues l.
Proof. reflexivity. Qed.

Lemma sumValues_app (a b : list Coin.t) :
  sumValues (a ++ b) = sumValues a + sumValues b.
Proof.
  induction a as [|c a IH]; [reflexivity|].
  rewrite <- app_comm_cons, !sumValues_cons, IH. lia.
Qed.

Lemma sumValues_insertDescending (c : Coin.t) (l : list Coin.t) :
  sumValues (insertDescending c l) = Coin.value c + sumValues l.
Proof.
  induction l as [|d l IH]; cbn [insertDescending]; [reflexivity|].
  destruct (Coin.value d <=? Coin.value c);
    rewrite ?sumValues_cons, ?IH; lia.
Qed.

Lemma sumValues_sortDescending (l : list Coin.t) :
  sumValues (sortDescending l) = sumValues l.
Proof.
  induction l as [|c l IH]; [reflexivity|].
  cbn [sortDescending fold_right]. fold (sortDescending l).
  rewrite sumValues_insertDescending, sumValues_cons, IH. reflexivity.
Qed.

Lemma insertDescending_nonNegative (c : Coin.t) (l : list Coin.t) :
  nonNegative c -> Forall nonNegative l -> Forall nonNegative (insertDescending c l).
Proof.
  intros Hc Hl. induction Hl as [|d l Hd Hl IH]; cbn [insertDescending].
  - constructor; [exact Hc|constructor].
  - destruct (Coin.value d <=? Coin.value c); repeat constructor; assumption.
Qed.

Lemma sortDescending_nonNegative (l : list Coin.t) :
  Forall nonNegative l -> Forall nonNegative (sortDescending l).
Proof.
  induction 1 as [|c l Hc Hl IH]; [constructor|].
  cbn [sortDescending fold_right]. fold (sortDescending l).
  apply insertDescending_nonNegative; assumption.
Qed.

(** The order [selectCoins] walks the coins in: the coins themselves, by
    descending value. *)
Lemma insertDescending_permutation (c : Coin.t) (l : list Coin.t) :
  Permutation (c :: l) (insertDescending c l).
Proof.
  induction l as [|d l IH]; cbn [insertDescending]; [reflexivity|].
  destruct (Coin.value d <=? Coin.value c); [reflexivity|].
  rewrite perm_swap. apply perm_skip. exact IH.
Qed.

Lemma sortDescending_permutation (l : list Coin.t) :
  Permutation l (sortDescending l).
Proof.
  induction l as [|c l IH]; [reflexivity|].
  cbn [sortDescending fold_right]. fold (sortDescending l).
  rewrite <- insertDescending_permutation. apply perm_skip. exact IH.
Qed.

Lemma insertDescending_sorted (c : Coin.t) (l : list Coin.t) :
  Sorted descending l -> Sorted descending (insertDescending c l).
Proof.
  induction 1 as [|d l Hl IH Hd]; cbn [insertDescending].
  - repeat constructor.
  - destruct (Z.leb_spec (Coin.value d) (Coin.value c)) as [Hle|Hgt].
    + constructor; [constructor; assumption|constructor; exact Hle].
    + constructor; [exact IH|].
      destruct l as [|x l]; cbn [insertDescending].
      * constructor. unfold descending. lia.
      * inversion Hd; subst.
        destruct (Coin.value x <=? Coin.value c); constructor;
          unfold descending in *; lia.
Qed.

Lemma sortDescending_sorted (l : list Coin.t) : Sorted descending (sortDescending l).
Proof.
  induction l as [|c l IH]; [constructor|].
  cbn [sortDescending fold_right]. fold (sortDescending l).
  apply insertDescending_sorted. exact IH.
Qed.

Lemma sumValues_nonneg (l : list Coin.t) :
  Forall nonNegative l -> 0 <= sumValues l.
Proof.
  induction 1 as [|c l Hc Hl IH]; [cbn; lia|].
  rewrite sumValues_cons. unfold nonNegative in Hc. lia.
Qed.

(** The loop on an integer target: it stops on a prefix that meets the
    stopping rule, or takes every coin. *)
Lemma accumulate_integer (forceChange : bool) (t : Z) (l : list Coin.t) :
  forall sel amt,
  exists taken,
    accumulate forceChange (ofZ t) l sel amt = (sel ++ taken, amt + sumValues taken) /\
    ((if forceChange then t <? amt + sumValues taken else t <=? amt + sumValues taken) = true
     \/ taken = l).
Proof.
  induction l as [|c l IH]; intros sel amt.
  - exists []. cbn [accumulate sumValues fold_right].
    rewrite app_nil_r, Z.add_0_r. split; [reflexivity|right; reflexivity].
  - cbn [accumulate]. unfold gt, ge. rewrite lt_ofZ, le_ofZ.
    destruct (if forceChange then t <? amt + Coin.value c else t <=? amt + Coin.value c)
      eqn:Hstop.
    + exists [c]. rewrite sumValues_cons. cbn [sumValues fold_right].
      rewrite Z.add_0_r. split; [reflexivity|left; exact Hstop].
    + destruct (IH (sel ++ [c]) (amt + Coin.value c)) as (taken & Heq & Hend).
      exists (c :: taken). rewrite Heq, sumValues_cons, <- app_assoc.
      cbn [app]. rewrite Z.add_assoc. split; [reflexivity|].
      destruct Hend as [Hend|Hend]; [left; exact Hend|right; congruence].
Qed.

(** The loop never stops below a target that exceeds all the coins. *)
Lemma accumulate_exhausts (forceChange : bool) (target : number) (l : list Coin.t) :
  forall sel amt,
  Forall nonNegative l ->
  lt (ofZ (amt + sumValues l)) target = true ->
  accumulate forceChange target l sel amt = (sel ++ l, amt + sumValues l).
Proof.
  induction l as [|c l IH]; intros sel amt Hnn Hlt.
  - cbn [accumulate sumValues fold_right]. rewrite app_nil_r, Z.add_0_r. reflexivity.
  - inversion Hnn as [|c' l' Hc Hl]; subst.
    rewrite sumValues_cons in Hlt |- *. cbn [accumulate].
    pose proof (sumValues_nonneg l Hl) as Hs.
    destruct (below_stays_below (amt + Coin.value c) (amt + (Coin.value c + sumValues l))
                target ltac:(lia) Hlt) as (Hge & Hgt & _).
    rewrite Hge, Hgt. destruct forceChange.
    + rewrite IH; [|exact Hl|rewrite <- Z.add_assoc; exact Hlt].
      rewrite <- app_assoc, Z.add_assoc. reflexivity.
    + rewrite IH; [|exact Hl|rewrite <- Z.add_assoc; exact Hlt].
      rewrite <- app_assoc, Z.add_assoc. reflexivity.
Qed.

End SelectionFacts.

Section SelectCoinsTheorems.
Import JsNumber Stated.

Lemma strictEq_sym (a b : number) : strictEq a b = strictEq b a.
Proof.
  destruct a, b; cbn; try reflexivity. unfold Qeq_bool. apply Z.eqb_sym.
Qed.

(** [selectCoins] past its three guards, on an integer target. *)
Lemma selectCoins_integer (coins : list Coin.t) (t : Z) (forceChange : bool) :
  0 < t ->
  exists taken,
    accumulate forceChange (ofZ t) (sortDescending coins) [] 0
      = (taken, sumValues taken) /\
    ((if forceChange then t <? sumValues taken else t <=? sumValues taken) = true
     \/ sumValues taken = sumValues coins) /\
    selectCoins coins (ofZ t) forceChange =
      if sumValues taken =? t then Ok (mkSelection taken 0)
      else if sumValues taken <? t then Throw InsufficientFunds
      else Ok (mkSelection taken (sumValues taken - t)).
Proof.
  intros Ht.
  destruct (accumulate_integer forceChange t (sortDescending coins) [] 0)
    as (taken & Hacc & Hend).
  cbn [app] in Hacc. rewrite Z.add_0_l in Hacc, Hend.
  exists taken. split; [exact Hacc|split].
  - destruct Hend as [Hend|Hend]; [left; exact Hend|right].
    rewrite Hend. apply sumValues_sortDescending.
  - unfold selectCoins. cbn [isNaN ofZ]. fold (ofZ 0) (ofZ t).
    rewrite lt_ofZ, strictEq_ofZ.
    destruct (Z.ltb_spec t 0); [lia|]. destruct (Z.eqb_spec t 0); [lia|].
    rewrite Hacc, strictEq_ofZ, lt_ofZ, BigInt_sub_ofZ. reflexivity.
Qed.

Lemma selectCoins_returns (coins : list Coin.t) (t : Z) (forceChange : bool) :
  0 <= t <= sumValues coins ->
  exists sel, selectCoins coins (ofZ t) forceChange = Ok sel.
Proof.
  intros [Hlo Hhi].
  destruct (Z.eq_dec t 0) as [->|Hnz]; [eexists; reflexivity|].
  destruct (selectCoins_integer coins t forceChange ltac:(lia))
    as (taken & _ & Hend & ->).
  destruct (Z.eqb_spec (sumValues taken) t); [eexists; reflexivity|].
  destruct (Z.ltb_spec (sumValues taken) t); [|eexists; reflexivity].
  exfalso. destruct Hend as [Hend|Hend]; [destruct forceChange|]; lia.
Qed.

(** C3, as the code has it.  For every coin list, every integer target with
    [0 <= target <= sum of the values] and either setting of [forceChange],
    [selectCoins] returns inputs whose values sum to at least the target,
    with [changeAmount = sum(inputs) - target]; when [forceChange] is set
    and [0 < target < sum of the values], the sum is strictly greater than
    the target and the change is non-zero. *)
Theorem selectCoins_covers_target
    (coins : list Coin.t) (target : Z) (forceChange : bool) :
  0 <= target <= sumValues coins ->
  exists sel,
    selectCoins coins (ofZ target) forceChange = Ok sel /\
    target <= sumValues (inputs sel) /\
    changeAmount sel = sumValues (inputs sel) - target /\
    (forceChange = true -> 0 < target < sumValues coins ->
     target < sumValues (inputs sel) /\ 0 < changeAmount sel).
Proof.
  intros [Hlo Hhi].
  destruct (Z.eq_dec target 0) as [->|Hnz].
  - exists (mkSelection [] 0). cbn [inputs changeAmount].
    repeat split; try reflexivity; lia.
  - destruct (selectCoins_integer coins target forceChange ltac:(lia))
      as (taken & _ & Hend & Hsel).
    rewrite Hsel.
    assert (Hreach : target <= sumValues taken).
    { destruct Hend as [Hend|Hend]; [|lia].
      destruct forceChange; lia. }
    assert (Hstrict : forceChange = true -> target < sumValues coins ->
                      target < sumValues taken).
    { intros -> Hlt. destruct Hend as [Hend|Hend]; lia. }
    destruct (Z.eqb_spec (sumValues taken) target) as [Heq|Hne].
    + exists (mkSelection taken 0). cbn [inputs changeAmount].
      split; [reflexivity|]. split; [lia|]. split; [lia|].
      intros Hfc Hin. specialize (Hstrict Hfc ltac:(lia)). lia.
    + destruct (Z.ltb_spec (sumValues taken) target); [lia|].
      exists (mkSelection taken (sumValues taken - target)).
      cbn [inputs changeAmount].
      split; [reflexivity|]. split; [lia|]. split; [lia|].
      intros Hfc Hin. specialize (Hstrict Hfc ltac:(lia)). lia.
Qed.

Lemma selectCoins_covers_target_witness :
  let coins := [Coin.mk "a" 0 100000; Coin.mk "b" 1 12000] in
  0 <= 111500 <= sumValues coins /\
  exists sel,
    selectCoins coins (ofZ 111500) true = Ok sel /\
    111500 <= sumValues (inputs sel) /\
    changeAmount sel = sumValues (inputs sel) - 111500 /\
    (true = true -> 0 < 111500 < sumValues coins ->
     111500 < sumValues (inputs sel) /\ 0 < changeAmount sel).
Proof.
  cbn zeta.
  assert (H : 0 <= 111500 <= sumValues [Coin.mk "a" 0 100000; Coin.mk "b" 1 12000])
    by (cbn; lia).
  split; [exact H|].
  exact (selectCoins_covers_target
           [Coin.mk "a" 0 100000; Coin.mk "b" 1 12000] 111500 true H).
Defined.

(** With [forceChange] set and the target equal to all the funds, the
    selection sums to the target exactly: no change is left. *)
Lemma selectCoins_forceChange_exact_funds :
  ~ coversTarget [Coin.mk "a" 0 5] 5 true.
Proof.
  unfold coversTarget. intros H.
  destruct (H ltac:(cbn; lia)) as (sel & Hsel & _ & Hstrict & _).
  vm_compute in Hsel. injection Hsel as <-.
  specialize (Hstrict eq_refl). cbn in Hstrict. lia.
Qed.

(** C9, as the code has it.  [selectCoins] fails with an invalid-amount
    error whenever the target is NaN or negative; it returns empty inputs
    and zero change when the target is 0; it fails with the
    insufficient-funds error whenever the target exceeds the summed value
    of all the coins; and on an integer target it throws in no other
    case. *)
Theorem selectCoins_failures
    (coins : list Coin.t) (target : number) (forceChange : bool) :
  Forall nonNegative coins ->
  (isNaN target = true ->
   selectCoins coins target forceChange = Throw TargetAmountIsNaN) /\
  (lt target (ofZ 0) = true ->
   selectCoins coins target forceChange = Throw TargetAmountIsNegative) /\
  (strictEq target (ofZ 0) = true ->
   selectCoins coins target forceChange = Ok (mkSelection [] 0)) /\
  (lt (ofZ (sumValues coins)) target = true ->
   selectCoins coins target forceChange = Throw InsufficientFunds) /\
  (forall t : Z, target = ofZ t ->
   (exists e, selectCoins coins target forceChange = Throw e) ->
   t < 0 \/ sumValues coins < t).
Proof.
  intros Hnn. repeat split.
  - destruct target; cbn; intros H; try discriminate. reflexivity.
  - intros H. unfold selectCoins. rewrite H.
    destruct target; cbn in H |- *; try discriminate; reflexivity.
  - intros H. unfold selectCoins. rewrite H.
    destruct target as [| | |q]; try discriminate.
    cbn [isNaN]. unfold strictEq, ofZ in H. apply Qeq_bool_iff in H.
    assert (Hle : Qle_bool (inject_Z 0) q = true).
    { apply Qle_bool_iff. rewrite H. apply Qle_refl. }
    unfold lt, ofZ. rewrite Hle. reflexivity.
  - intros H.
    pose proof (sumValues_nonneg coins Hnn) as Hs.
    destruct (below_stays_below 0 (sumValues coins) target Hs H)
      as (_ & Hneg & Hzero & _).
    destruct (below_stays_below (sumValues coins) (sumValues coins) target
                ltac:(lia) H) as (_ & _ & Heq & Hlt).
    unfold selectCoins.
    replace (isNaN target) with false
      by (destruct target; try reflexivity; unfold lt, ofZ in H; discriminate).
    unfold gt in Hneg. rewrite Hneg, strictEq_sym, Hzero.
    rewrite accumulate_exhausts.
    + cbn [app]. rewrite Z.add_0_l, sumValues_sortDescending, Heq, Hlt. reflexivity.
    + apply sortDescending_nonNegative; exact Hnn.
    + rewrite Z.add_0_l, sumValues_sortDescending. exact H.
  - intros t -> [e He].
    destruct (Z.ltb_spec t 0) as [Hneg|Hpos]; [left; exact Hneg|right].
    destruct (Z.ltb_spec (sumValues coins) t) as [Hhi|Hlo]; [exact Hhi|exfalso].
    destruct (selectCoins_returns coins t forceChange ltac:(lia)) as (sel & Hsel).
    congruence.
Qed.

Lemma selectCoins_failures_witness :
  let coins := [Coin.mk "a" 0 100000; Coin.mk "b" 1 12000] in
  Forall nonNegative coins /\
  selectCoins coins NaN false = Throw TargetAmountIsNaN /\
  selectCoins coins (ofZ (-1)) false = Throw TargetAmountIsNegative /\
  selectCoins coins (ofZ 0) false = Ok (mkSelection [] 0) /\
  selectCoins coins PInf false = Throw InsufficientFunds /\
  selectCoins coins (ofZ 112001) false = Throw InsufficientFunds.
Proof.
  cbn zeta.
  assert (Hnn : Forall nonNegative [Coin.mk "a" 0 100000; Coin.mk "b" 1 12000])
    by (repeat constructor; unfold nonNegative; cbn; lia).
  split; [exact Hnn|].
  split; [apply (selectCoins_failures _ NaN false Hnn); reflexivity|].
  split; [apply (selectCoins_failures _ (ofZ (-1)) false Hnn); reflexivity|].
  split; [apply (selectCoins_failures _ (ofZ 0) false Hnn); reflexivity|].
  split; [apply (selectCoins_failures _ PInf false Hnn); reflexivity|].
  apply (selectCoins_failures _ (ofZ 112001) false Hnn); reflexivity.
Defined.

(** A fractional target is not rejected as an invalid amount: the loop
    runs, and the conversion of the change to a [bigint] raises. *)
Lemma selectCoins_fractional_target :
  ~ rejectsInvalidAmount [Coin.mk "a" 0 2] (Fin (3 # 2)) false.
Proof.
  unfold rejectsInvalidAmount. intros H.
  destruct (H (or_intror eq_refl)) as (e & He & Hinv).
  vm_compute in He. injection He as <-.
  destruct Hinv; discriminate.
Qed.

End SelectCoinsTheorems.

(** ** Selection and the fee loop *)

Section SelectsFacts.
Import JsNumber SendPlan.

(** On an integer target the loop stops on the shortest run of coins that
    reaches it, or takes every coin without reaching it. *)
Lemma accumulate_shortest (t : Z) (l : list Coin.t) : forall sel amt,
  amt < t ->
  exists taken rest,
    l = taken ++ rest /\
    accumulate false (ofZ t) l sel amt = (sel ++ taken, amt + sumValues taken) /\
    (forall shorter more : list Coin.t,
       taken = shorter ++ more -> more <> [] -> amt + sumValues shorter < t) /\
    (t <= amt + sumValues taken \/ rest = [] /\ amt + sumValues taken < t).
Proof.
  induction l as [|c l IH]; intros sel amt Hamt.
  - exists [], []. cbn [accumulate sumValues fold_right app].
    rewrite app_nil_r, Z.add_0_r. split; [reflexivity|]. split; [reflexivity|].
    split; [|right; split; [reflexivity|exact Hamt]].
    intros shorter more Heq Hmore. symmetry in Heq.
    apply app_eq_nil in Heq as [_ ->]. contradiction.
  - cbn [accumulate]. unfold ge. rewrite le_ofZ.
    destruct (Z.leb_spec t (amt + Coin.value c)) as [Hstop|Hgo].
    + exists [c], l. rewrite sumValues_cons. cbn [sumValues fold_right app].
      rewrite Z.add_0_r. split; [reflexivity|]. split; [reflexivity|].
      split; [|left; exact Hstop].
      intros shorter more Heq Hmore.
      destruct shorter as [|s shorter].
      * cbn [sumValues fold_right]. lia.
      * cbn [app] in Heq. injection Heq as _ Heq. symmetry in Heq.
        apply app_eq_nil in Heq as [_ ->]. contradiction.
    + destruct (IH (sel ++ [c]) (amt + Coin.value c) Hgo)
        as (taken & rest & Hl & Hacc & Hshort & Hend).
      exists (c :: taken), rest. rewrite Hacc, sumValues_cons, <- app_assoc.
      cbn [app]. rewrite Z.add_assoc.
      split; [rewrite Hl; reflexivity|]. split; [reflexivity|].
      split; [|exact Hend].
      intros shorter more Heq Hmore.
      destruct shorter as [|s shorter].
      * cbn [sumValues fold_right]. lia.
      * cbn [app] in Heq. injection Heq as <- Heq.
        rewrite sumValues_cons, Z.add_assoc. eapply Hshort; eassumption.
Qed.

(** [selectCoins], without forced change and on the targets the fee loop
    gives it, answers as section 4.2 says. *)
Lemma selectCoins_selects (coins : list Coin.t) (target : number) :
  integral target -> selects coins target (selectCoins coins target false).
Proof.
  intros Hint. destruct target as [| | |q].
  - apply selects_nan.
  - unfold selectCoins. cbn [isNaN lt ofZ strictEq].
    destruct (accumulate false PInf (sortDescending coins) [] 0) as [chosen sum].
    cbn [strictEq lt ofZ]. apply selects_insufficient; reflexivity.
  - apply selects_negative. reflexivity.
  - destruct Hint as [z ->].
    destruct (Z.lt_trichotomy z 0) as [Hneg|[->|Hpos]].
    + unfold selectCoins. cbn [isNaN ofZ]. fold (ofZ 0) (ofZ z).
      rewrite lt_ofZ. destruct (Z.ltb_spec z 0); [|lia].
      apply selects_negative. rewrite lt_ofZ. apply Z.ltb_lt. exact Hneg.
    + apply selects_nothing.
    + destruct (accumulate_shortest z (sortDescending coins) [] 0 Hpos)
        as (taken & rest & Hl & Hacc & Hshort & Hend).
      cbn [app] in Hacc. rewrite Z.add_0_l in Hacc, Hend.
      assert (Hgreedy : z <= sumValues taken ->
                selects coins (ofZ z) (Ok (mkSelection taken (sumValues taken - z)))).
      { intros Hreach. apply selects_greedy with rest.
        - exact Hpos.
        - rewrite <- Hl. apply sortDescending_permutation.
        - rewrite <- Hl. apply sortDescending_sorted.
        - exact Hreach.
        - intros shorter more Heq Hmore.
          specialize (Hshort shorter more Heq Hmore). lia. }
      unfold selectCoins. cbn [isNaN ofZ]. fold (ofZ 0) (ofZ z).
      rewrite lt_ofZ, strictEq_ofZ.
      destruct (Z.ltb_spec z 0); [lia|]. destruct (Z.eqb_spec z 0); [lia|].
      rewrite Hacc, strictEq_ofZ, lt_ofZ, BigInt_sub_ofZ.
      destruct (Z.eqb_spec (sumValues taken) z) as [Heq|Hne].
      * replace (mkSelection taken 0) with (mkSelection taken (sumValues taken - z))
          by (f_equal; lia).
        apply Hgreedy. lia.
      * destruct (Z.ltb_spec (sumValues taken) z) as [Hlt|Hge].
        -- destruct Hend as [Hreach|[-> _]]; [lia|].
           rewrite app_nil_r in Hl. apply selects_insufficient.
           ++ rewrite lt_ofZ. apply Z.ltb_lt. exact Hpos.
           ++ rewrite lt_ofZ. apply Z.ltb_lt.
              rewrite <- (sumValues_sortDescending coins), Hl. exact Hlt.
        -- cbn [bind]. apply Hgreedy. exact Hge.
Qed.

End SelectsFacts.

Section FeeLoopFacts.
Import JsNumber TxWeightEstimator SendPlan.

Variable DUST_AMOUNT : Z.
Variable this : OnchainWallet.t.
Variable scriptLengthOf : string -> result Z.
Variable coins : list Coin.t.
Variable amount : Z.
Variable feeRate : Double.t.
Variable recipientAddress : string.

Lemma keySpendInputs_run (selected : list Coin.t) : forall e,
  fold_left (fun e _ => addKeySpendInput true e) selected e
  = run (map (fun _ => AddKeySpendInput true) selected) e.
Proof.
  induction selected as [|c l IH]; intros e; [reflexivity|].
  cbn [fold_left map]. rewrite IH. reflexivity.
Qed.

Lemma run_app (ops ops' : list Op) (e : t) :
  run (ops ++ ops') e = run ops' (run ops e).
Proof. unfold run. apply fold_left_app. Qed.

(** The estimator the loop body builds is the one of [composition]. *)
Lemma loop_estimator (scriptLen : Z) (selected : Selection) :
  (let estimator :=
     fold_left (fun e _ => addKeySpendInput true e) (inputs selected) create in
   let estimator := addOutputAddress scriptLen estimator in
   if changeAmount selected >=? DUST_AMOUNT
   then addOutputAddress (OnchainWallet.addressScriptLen this) estimator
   else estimator)
  = run (composition DUST_AMOUNT (OnchainWallet.addressScriptLen this)
           scriptLen selected) create.
Proof.
  cbn zeta. unfold composition. rewrite keySpendInputs_run, !run_app, Z.geb_leb.
  destruct (DUST_AMOUNT <=? changeAmount selected); reflexivity.
Qed.

(** The size the class computes for a run is the size of section 4.1. *)
Lemma estimatedVsize_run (ops : list Op) :
  value (vsize (run ops create)) = estimatedVsize ops.
Proof.
  unfold estimatedVsize. rewrite Qceiling_quarter. apply vsize_of_run.
Qed.

Lemma feeLoop_step (n : nat) (fee : number) :
  OnchainWallet.feeLoop DUST_AMOUNT this scriptLengthOf (S n) coins amount feeRate
    recipientAddress fee
  = match selectCoins coins (add (ofZ amount) fee) false with
    | Throw e => Throw e
    | Ok selected =>
        match scriptLengthOf recipientAddress with
        | Throw e => Throw e
        | Ok scriptLen =>
            let roundedNewFee :=
              newFee DUST_AMOUNT (OnchainWallet.addressScriptLen this) feeRate
                     scriptLen selected in
            if le roundedNewFee fee then Ok (selected, roundedNewFee)
            else OnchainWallet.feeLoop DUST_AMOUNT this scriptLengthOf n coins amount
                   feeRate recipientAddress roundedNewFee
        end
    end.
Proof.
  cbn [OnchainWallet.feeLoop].
  destruct (selectCoins coins (add (ofZ amount) fee) false) as [selected|e];
    [|reflexivity].
  destruct (scriptLengthOf recipientAddress) as [scriptLen|e]; [|reflexivity].
  cbn zeta. unfold newFee.
  rewrite <- estimatedVsize_run, <- (loop_estimator scriptLen selected). reflexivity.
Qed.

Lemma feeLoop_follows_plan (n : nat) : forall fee,
  integral fee ->
  plan DUST_AMOUNT scriptLengthOf (OnchainWallet.addressScriptLen this) coins amount
       feeRate recipientAddress n fee
       (OnchainWallet.feeLoop DUST_AMOUNT this scriptLengthOf n coins amount feeRate
          recipientAddress fee).
Proof.
  induction n as [|n IH]; intros fee Hfee.
  - apply plan_exhausted.
  - rewrite feeLoop_step.
    pose proof (selectCoins_selects coins (add (ofZ amount) fee)
                  (add_integral amount fee Hfee)) as Hsel.
    destruct (selectCoins coins (add (ofZ amount) fee) false) as [selected|e].
    + destruct (scriptLengthOf recipientAddress) as [scriptLen|e] eqn:Hlen.
      * cbn zeta.
        destruct (le (newFee DUST_AMOUNT (OnchainWallet.addressScriptLen this)
                        feeRate scriptLen selected) fee) eqn:Hle.
        -- apply plan_converged; assumption.
        -- eapply plan_retry; [exact Hsel|exact Hlen|exact Hle|].
           apply IH. apply ceil_integral.
      * eapply plan_undecodable; eassumption.
    + apply plan_unselectable. exact Hsel.
Qed.

(** C4.  The fee loop starts with [fee = 0]; each iteration selects coins
    for [amount + fee] - the coins of largest value first, as few as reach
    that target -, estimates the size of a transaction with one key-spend
    input per selected coin, one payment output and a change output only
    when the change is at least the dust limit, and sets
    [newFee = ceil(vsize * feeRate)], the product being the product of
    doubles; it returns that iteration's selection with [fee = newFee] as
    soon as [newFee <= fee], retries with [fee = newFee] otherwise, and
    fails with the convergence error once 10 iterations are used up.  A
    selection that fails and a recipient address that cannot be decoded
    end the loop with their error.  The result of the loop is one that the
    plan of sections 4.2 and 4.3 allows. *)
Theorem estimateFeesAndSelectCoins_follows_plan :
  plan DUST_AMOUNT scriptLengthOf (OnchainWallet.addressScriptLen this) coins amount
       feeRate recipientAddress 10 (ofZ 0)
       (OnchainWallet.estimateFeesAndSelectCoins DUST_AMOUNT this scriptLengthOf coins
          amount feeRate recipientAddress).
Proof.
  unfold OnchainWallet.estimateFeesAndSelectCoins, OnchainWallet.MAX_ITERATIONS.
  apply feeLoop_follows_plan. exists 0. reflexivity.
Qed.

End FeeLoopFacts.

(** The dust-boundary scenario of section 8, a coin of 51,910 for an amount
    of 50,000 at 10 sat/vbyte: the first pass prices a transaction with a
    change output (144 vbytes), the second finds the change (470) below the
    dust limit, prices the transaction without it (101 vbytes) and
    converges. *)
Example estimateFeesAndSelectCoins_dust_boundary :
  OnchainWallet.estimateFeesAndSelectCoins 546 Scenario.wallet Scenario.scriptLengthOf
    [Coin.mk "c" 0 51910] 50000 (Double.ofZ 10) "tb1q-recipient"
  = Ok (mkSelection [Coin.mk "c" 0 51910] 470, JsNumber.ofZ 1010).
Proof. vm_compute. reflexivity. Qed.

(** The two fractional rates of the scenario are doubles, and the
    nearest ones: each is within half a unit in the last place of the
    decimal it stands for. *)
Example rate_1_1_nearest :
  Double.valid Scenario.rate_1_1 = true /\
  2 * Z.abs (10 * 4953959590107546 - 11 * 2 ^ 52) < 10.
Proof. split; [reflexivity|vm_compute; reflexivity]. Qed.

Example rate_1_3_nearest :
  Double.valid Scenario.rate_1_3 = true /\
  2 * Z.abs (10 * 5854679515581645 - 13 * 2 ^ 52) < 10.
Proof. split; [reflexivity|vm_compute; reflexivity]. Qed.

(** At a fractional rate the rounding of the product shows.  Two coins for
    an amount of 1,200 and a taproot recipient make 170 vbytes; at the
    double 1.1 the product is 187.00000000000003 and the fee 188, and at
    the double 1.3, whose exact product lies above 221, the product is
    221 and so is the fee. *)
Example estimateFeesAndSelectCoins_rate_1_1 :
  OnchainWallet.estimateFeesAndSelectCoins 546 Scenario.wallet Scenario.scriptLengthOf
    [Coin.mk "a" 0 1000; Coin.mk "b" 1 500] 1200 Scenario.rate_1_1 "tb1p-recipient"
  = Ok (mkSelection [Coin.mk "a" 0 1000; Coin.mk "b" 1 500] 112, JsNumber.ofZ 188).
Proof. vm_compute. reflexivity. Qed.

Example estimateFeesAndSelectCoins_rate_1_3 :
  OnchainWallet.estimateFeesAndSelectCoins 546 Scenario.wallet Scenario.scriptLengthOf
    [Coin.mk "a" 0 1000; Coin.mk "b" 1 500] 1200 Scenario.rate_1_3 "tb1p-recipient"
  = Ok (mkSelection [Coin.mk "a" 0 1000; Coin.mk "b" 1 500] 79, JsNumber.ofZ 221).
Proof. vm_compute. reflexivity. Qed.

(** ** The unroll scan *)

Section ScanFacts.
Import Unroll Unroll.Session ScanSpec.

Variable explorer : OnchainProvider.

Lemma passed_dec (node : ChainTx.t) :
  {passed explorer node} + {~ passed explorer node}.
Proof.
  unfold passed. destruct (skipped node) eqn:Hs; [left; left; reflexivity|].
  destruct (getTxStatus explorer (ChainTx.txid node)) as [[|h t]|e] eqn:Hq.
  - right. intros [H|(h & t & H)]; discriminate.
  - left. right. exists h, t. reflexivity.
  - right. intros [H|(h & t & H)]; discriminate.
Defined.

Lemma scan_passed (node : ChainTx.t) (rest : list ChainTx.t) :
  passed explorer node -> scan explorer (node :: rest) = scan explorer rest.
Proof.
  intros [Hs|(h & t & Hq)]; cbn [scan].
  - rewrite Hs. reflexivity.
  - rewrite Hq. cbn. destruct (skipped node); reflexivity.
Qed.

Lemma scan_past (before rest : list ChainTx.t) :
  Forall (passed explorer) before ->
  scan explorer (before ++ rest) = scan explorer rest.
Proof.
  induction 1 as [|node before Hn _ IH]; [reflexivity|].
  rewrite <- app_comm_cons, scan_passed; assumption.
Qed.

(** Where the scan stands when it meets a node it does not pass. *)
Lemma scan_stops (node : ChainTx.t) (rest : list ChainTx.t) :
  ~ passed explorer node ->
  skipped node = false /\
  ((getTxStatus explorer (ChainTx.txid node) = Ok Unconfirmed /\
    scan explorer (node :: rest) = Returned (WAIT (ChainTx.txid node)))
   \/
   (exists e, getTxStatus explorer (ChainTx.txid node) = Throw e /\
    scan explorer (node :: rest) = Ended (Some node))).
Proof.
  intros Hnp. unfold passed in Hnp. cbn [scan].
  destruct (skipped node); [exfalso; apply Hnp; left; reflexivity|].
  split; [reflexivity|].
  destruct (getTxStatus explorer (ChainTx.txid node)) as [[|h t]|e].
  - left. split; reflexivity.
  - exfalso. apply Hnp. right. exists h, t. reflexivity.
  - right. exists e. split; reflexivity.
Qed.

(** The nodes to visit are all passed, or split at the first that is not. *)
Lemma first_not_passed (l : list ChainTx.t) :
  Forall (passed explorer) l \/
  exists before node after,
    l = before ++ node :: after /\
    Forall (passed explorer) before /\ ~ passed explorer node.
Proof.
  induction l as [|n l IH]; [left; constructor|].
  destruct (passed_dec n) as [Hp|Hnp].
  - destruct IH as [Hall|(before & node & after & -> & Hb & Hn)].
    + left. constructor; assumption.
    + right. exists (n :: before), node, after.
      split; [reflexivity|split; [constructor; assumption|exact Hn]].
  - right. exists [], n, l. split; [reflexivity|split; [constructor|exact Hnp]].
Qed.

(** From scan order to indices of the chain. *)
Lemma reached_split (chain : list ChainTx.t) (i : nat) (node : ChainTx.t) :
  reached explorer chain i node <->
  exists before after,
    rev chain = before ++ node :: after /\
    Forall (passed explorer) before /\ List.length after = i.
Proof.
  unfold reached. split.
  - intros [Hnth Habove].
    apply nth_error_split in Hnth as (l1 & l2 & -> & Hlen).
    exists (rev l2), (rev l1). split; [|split].
    + rewrite rev_app_distr. cbn [rev]. rewrite <- app_assoc. reflexivity.
    + apply Forall_rev. apply Forall_forall. intros x Hx.
      apply In_nth_error in Hx as [k Hk].
      apply (Habove (List.length l1 + S k)%nat); [lia|].
      rewrite nth_error_app2 by lia.
      replace (List.length l1 + S k - List.length l1)%nat with (S k) by lia.
      exact Hk.
    + rewrite length_rev. exact Hlen.
  - intros (before & after & Hrev & Hpassed & Hlen).
    assert (Hchain : chain = rev after ++ node :: rev before).
    { rewrite <- (rev_involutive chain), Hrev, rev_app_distr. cbn [rev].
      rewrite <- app_assoc. reflexivity. }
    subst chain. split.
    + rewrite nth_error_app2 by (rewrite length_rev; lia).
      rewrite length_rev, Hlen, Nat.sub_diag. reflexivity.
    + intros j above Hj Hnth.
      rewrite nth_error_app2 in Hnth by (rewrite length_rev; lia).
      rewrite length_rev, Hlen in Hnth.
      destruct (j - i)%nat as [|k] eqn:Hk; [lia|]. cbn [nth_error] in Hnth.
      apply nth_error_In in Hnth. apply in_rev in Hnth.
      rewrite Forall_forall in Hpassed. apply Hpassed. exact Hnth.
Qed.

Lemma scan_wait (l : list ChainTx.t) (step : Step) :
  scan explorer l = Returned step <->
  exists before node after,
    l = before ++ node :: after /\ Forall (passed explorer) before /\
    unconfirmed explorer node /\ step = WAIT (ChainTx.txid node).
Proof.
  split.
  - intros Hscan.
    destruct (first_not_passed l) as [Hall|(before & node & after & -> & Hb & Hn)].
    + rewrite <- (app_nil_r l), scan_past in Hscan by exact Hall. discriminate.
    + rewrite scan_past in Hscan by exact Hb.
      destruct (scan_stops node after Hn) as (Hs & [(Hq & Hr)|(e & Hq & Hr)]);
        rewrite Hr in Hscan; [|discriminate].
      injection Hscan as <-.
      exists before, node, after. repeat split; assumption.
  - intros (before & node & after & -> & Hb & (Hs & Hq) & ->).
    rewrite scan_past by exact Hb. cbn [scan]. rewrite Hs, Hq. reflexivity.
Qed.

Lemma scan_completes (l : list ChainTx.t) :
  scan explorer l = Ended None <-> Forall (passed explorer) l.
Proof.
  split.
  - intros Hscan.
    destruct (first_not_passed l) as [Hall|(before & node & after & -> & Hb & Hn)];
      [exact Hall|].
    rewrite scan_past in Hscan by exact Hb.
    destruct (scan_stops node after Hn) as (_ & [(_ & Hr)|(e & _ & Hr)]);
      rewrite Hr in Hscan; discriminate.
  - intros Hall. rewrite <- (app_nil_r l), scan_past by exact Hall. reflexivity.
Qed.

Lemma scan_candidate (l before after : list ChainTx.t) (node : ChainTx.t) (e : Error) :
  l = before ++ node :: after -> Forall (passed explorer) before ->
  skipped node = false ->
  getTxStatus explorer (ChainTx.txid node) = Throw e ->
  scan explorer l = Ended (Some node).
Proof.
  intros -> Hb Hs Hq. rewrite scan_past by exact Hb.
  cbn [scan]. rewrite Hs, Hq. reflexivity.
Qed.

End ScanFacts.

Section NextTheorems.
Import Unroll Unroll.Session ScanSpec Stated.

Variable lib : TransactionLib.
Variable this : Session.t.

(** What follows the scan yields an [UNROLL] step or throws. *)
Lemma unrollStep_unrolls (node : ChainTx.t) (step : Step) :
  unrollStep lib this node = Ok step -> exists tx pkg, step = UNROLL tx pkg.
Proof.
  unfold unrollStep, bind. intros H.
  destruct (getVirtualTxs (indexer this) [ChainTx.txid node]) as [[|psbt rest]|];
    try discriminate.
  destruct (fromPSBT lib psbt) as [tx|]; try discriminate.
  match type of H with
  | match ?finalised with Ok _ => _ | Throw _ => _ end = _ =>
      destruct finalised as [tx'|]; try discriminate
  end.
  destruct (bumpP2A (bumper this) tx') as [pkg|]; try discriminate.
  injection H as <-. exists tx', pkg. reflexivity.
Qed.

(** C5.  [next] scans the chain from its highest index towards index 0
    and continues past every node typed COMMITMENT or UNSPECIFIED and past
    every node found confirmed; it emits [WAIT(txid)] exactly for the first
    node it does not continue past when that node is found on-chain but
    unconfirmed; and it emits [DONE], with [vtxoTxid] the txid of the
    outpoint of the session and nothing else, exactly when the scan
    continues past every node of the chain. *)
Theorem next_wait_and_done :
  (forall node, skipped node = true <->
     ChainTx.type node = COMMITMENT \/ ChainTx.type node = UNSPECIFIED) /\
  (forall waited,
     next lib this = Ok (WAIT waited) <->
     exists i node,
       reached (explorer this) (chain this) i node /\
       unconfirmed (explorer this) node /\ waited = ChainTx.txid node) /\
  (forall vtxoTxid,
     next lib this = Ok (DONE vtxoTxid) <->
     vtxoTxid = txid this /\ Forall (passed (explorer this)) (chain this)).
Proof.
  split; [|split].
  - intros node. unfold skipped.
    destruct (ChainTx.type node); split; intros H;
      try discriminate; try reflexivity; try (left; reflexivity);
      try (right; reflexivity); destruct H; discriminate.
  - intros waited. unfold next. split.
    + intros Hnext.
      destruct (scan (explorer this) (rev (chain this))) as [step|[cand|]] eqn:Hscan.
      * injection Hnext as ->.
        apply scan_wait in Hscan as (before & node & after & Hrev & Hb & Hu & Hw).
        injection Hw as ->.
        exists (List.length after), node. split; [|split; [exact Hu|reflexivity]].
        apply reached_split. exists before, after. repeat split; assumption.
      * apply unrollStep_unrolls in Hnext as (tx & pkg & H). discriminate.
      * discriminate.
    + intros (i & node & Hreach & Hu & ->).
      apply reached_split in Hreach as (before & after & Hrev & Hb & _).
      assert (Hscan : scan (explorer this) (rev (chain this))
                      = Returned (WAIT (ChainTx.txid node))).
      { apply scan_wait. exists before, node, after.
        split; [exact Hrev|split; [exact Hb|split; [exact Hu|reflexivity]]]. }
      rewrite Hscan. reflexivity.
  - intros vtxoTxid. unfold next. split.
    + intros Hnext.
      destruct (scan (explorer this) (rev (chain this))) as [step|[cand|]] eqn:Hscan.
      * injection Hnext as ->.
        apply scan_wait in Hscan as (_ & node & _ & _ & _ & _ & Hw). discriminate.
      * apply unrollStep_unrolls in Hnext as (tx & pkg & H). discriminate.
      * injection Hnext as <-. split; [reflexivity|].
        apply scan_completes in Hscan. apply Forall_rev in Hscan.
        rewrite rev_involutive in Hscan. exact Hscan.
    + intros [-> Hall]. apply Forall_rev in Hall.
      apply scan_completes in Hall. rewrite Hall. reflexivity.
Qed.

(** C2, as the code has it.  During the scan, whatever [getTxStatus]
    throws for the first node the scan does not continue past - the
    not-found signal or any other provider error - is intercepted and taken
    to identify the next node to broadcast: [next] goes on to prepare the
    unroll step of that node, and the thrown value does not reach the
    caller. *)
Theorem next_intercepts_lookup_errors (i : nat) (node : ChainTx.t) (e : Error) :
  reached (explorer this) (chain this) i node ->
  skipped node = false ->
  getTxStatus (explorer this) (ChainTx.txid node) = Throw e ->
  scan (explorer this) (rev (chain this)) = Ended (Some node) /\
  next lib this = unrollStep lib this node.
Proof.
  intros Hreach Hs Hq.
  apply reached_split in Hreach as (before & after & Hrev & Hb & _).
  assert (Hscan : scan (explorer this) (rev (chain this)) = Ended (Some node))
    by (eapply scan_candidate; eassumption).
  split; [exact Hscan|]. unfold next. rewrite Hscan. reflexivity.
Qed.

End NextTheorems.

Lemma Scenario_leaf_reached :
  ScanSpec.reached Scenario.unreachable (Unroll.Session.chain Scenario.session)
    0 (ChainTx.mk "leaf" ARK).
Proof.
  split; [reflexivity|].
  intros [|[|[|j]]] above Hj Hnth; cbn in Hnth; try lia; try discriminate.
  injection Hnth as <-. left. reflexivity.
Qed.

Lemma next_intercepts_lookup_errors_witness :
  Unroll.Session.next Scenario.lib Scenario.session
  = Unroll.Session.unrollStep Scenario.lib Scenario.session (ChainTx.mk "leaf" ARK).
Proof.
  exact (proj2 (next_intercepts_lookup_errors Scenario.lib Scenario.session
                  0 (ChainTx.mk "leaf" ARK) (Provider NetworkFailure)
                  Scenario_leaf_reached eq_refl eq_refl)).
Defined.

(** A network failure of the status query does not abort the step: the
    scan takes the node for one never broadcast, and [next] answers with an
    [UNROLL] step for it. *)
Lemma next_swallows_network_failure :
  ~ Stated.otherFaultsPropagate Scenario.lib Scenario.session.
Proof.
  unfold Stated.otherFaultsPropagate. intros H.
  specialize (H 0%nat (ChainTx.mk "leaf" ARK) NetworkFailure
                Scenario_leaf_reached eq_refl eq_refl ltac:(discriminate)).
  vm_compute in H. discriminate.
Qed.

(** ** Exit paths *)

Section ExitPathFacts.

Variables confirmedAt current : BlockTime.

Lemma firstMatured_cons (exit : ExitPath.t) (rest : list ExitPath.t) :
  firstMatured confirmedAt current (exit :: rest)
  = if matured confirmedAt current exit then Some exit
    else firstMatured confirmedAt current rest.
Proof.
  cbn [firstMatured]. unfold matured.
  destruct (ExitPath.timelockType exit); reflexivity.
Qed.

Lemma firstMatured_some (exits : list ExitPath.t) (exit : ExitPath.t) :
  firstMatured confirmedAt current exits = Some exit <->
  exists before after,
    exits = before ++ exit :: after /\
    Forall (fun e => matured confirmedAt current e = false) before /\
    matured confirmedAt current exit = true.
Proof.
  induction exits as [|x exits IH].
  - split; [discriminate|]. intros (before & after & Heq & _).
    destruct before; discriminate.
  - rewrite firstMatured_cons. destruct (matured confirmedAt current x) eqn:Hx.
    + split.
      * intros [= ->]. exists [], exits. repeat split; [constructor|exact Hx].
      * intros (before & after & Heq & Hb & He).
        destruct before as [|y before]; cbn in Heq; injection Heq as -> Heq.
        -- reflexivity.
        -- inversion Hb; congruence.
    + rewrite IH. split.
      * intros (before & after & -> & Hb & He).
        exists (x :: before), after.
        repeat split; [constructor; assumption|exact He].
      * intros (before & after & Heq & Hb & He).
        destruct before as [|y before]; cbn in Heq; injection Heq as -> Heq.
        -- congruence.
        -- inversion Hb; subst. exists before, after. repeat split; assumption.
Qed.

Lemma firstMatured_none (exits : list ExitPath.t) :
  firstMatured confirmedAt current exits = None <->
  Forall (fun e => matured confirmedAt current e = false) exits.
Proof.
  induction exits as [|x exits IH].
  - split; [constructor|reflexivity].
  - rewrite firstMatured_cons. destruct (matured confirmedAt current x) eqn:Hx.
    + split; [discriminate|]. intros H; inversion H; congruence.
    + rewrite IH. split; [intros H; constructor; assumption|].
      intros H; inversion H; assumption.
Qed.

(** C6.  Given the exit paths of a VTXO, its confirmation block-time and
    the chain tip, [availableExitPath] returns the first path in declared
    order whose timelock is satisfied - [tip.height >= confirmedAt.height +
    value] for a lock in blocks, [tip.time >= confirmedAt.time + value] for
    a lock in seconds - and returns none exactly when no path has
    matured. *)
Theorem availableExitPath_first_matured (vtxo : Vtxo.t) :
  (forall exit,
     matured confirmedAt current exit = true <->
     (ExitPath.timelockType exit = blocks /\
      height current >= height confirmedAt + ExitPath.timelockValue exit)
     \/
     (ExitPath.timelockType exit = seconds /\
      time current >= time confirmedAt + ExitPath.timelockValue exit)) /\
  (forall exit,
     availableExitPath confirmedAt current vtxo = Some exit <->
     exists before after,
       Vtxo.exitPaths vtxo = before ++ exit :: after /\
       Forall (fun e => matured confirmedAt current e = false) before /\
       matured confirmedAt current exit = true) /\
  (availableExitPath confirmedAt current vtxo = None <->
   Forall (fun e => matured confirmedAt current e = false) (Vtxo.exitPaths vtxo)).
Proof.
  split; [|split].
  - intros exit. unfold matured.
    destruct (ExitPath.timelockType exit); rewrite Z.geb_le; split.
    + intros H. left. split; [reflexivity|lia].
    + intros [[_ H]|[H _]]; [lia|discriminate].
    + intros H. right. split; [reflexivity|lia].
    + intros [[H _]|[_ H]]; [discriminate|lia].
  - intros exit. apply firstMatured_some.
  - apply firstMatured_none.
Qed.

End ExitPathFacts.

(** The scenario of section 8: paths of 144 blocks and of 300 seconds,
    confirmed at height 1000 and time 5000. *)
Example availableExitPath_scenario :
  let confirmedAt := mkBlockTime 1000 5000 in
  let at_ (h t : Z) :=
    availableExitPath confirmedAt (mkBlockTime h t) (Scenario.vtxoWorth 1000) in
  at_ 1144 5001 = Some (ExitPath.mk blocks 144 "csv-blocks") /\
  at_ 1144 9999 = Some (ExitPath.mk blocks 144 "csv-blocks") /\
  at_ 1143 5300 = Some (ExitPath.mk seconds 300 "csv-seconds") /\
  at_ 1143 5299 = None.
Proof. repeat split. Qed.

(** ** The anchor bump *)

Section BumpFacts.

Variable P2A_amount : Z.
Variable lib : TransactionLib.
Variable this : OnchainWallet.t.

(** C1, as the code has it.  Whenever [bumpP2A] has built the parent+child
    package, the call succeeds and returns [[parent.hex, child.hex]],
    whether the submission of the package succeeded or failed; what a
    failed submission threw goes to [console.error] and is not raised. *)
Theorem bumpP2A_returns_package (parent child : Tx.t) :
  OnchainWallet.buildChild P2A_amount lib this parent = Ok child ->
  OnchainWallet.completion (OnchainWallet.bumpP2A P2A_amount lib this parent)
    = Ok (hex lib parent, hex lib child) /\
  OnchainWallet.consoleError (OnchainWallet.bumpP2A P2A_amount lib this parent)
    = match broadcastTransaction (OnchainWallet.provider this)
              [hex lib parent; hex lib child] with
      | Ok _ => []
      | Throw error => [error]
      end.
Proof.
  intros Hbuilt. unfold OnchainWallet.bumpP2A. rewrite Hbuilt.
  split; reflexivity.
Qed.

End BumpFacts.

Lemma bumpP2A_returns_package_witness :
  exists child,
    OnchainWallet.buildChild 240 Scenario.lib Scenario.wallet Scenario.parent = Ok child /\
    OnchainWallet.completion
      (OnchainWallet.bumpP2A 240 Scenario.lib Scenario.wallet Scenario.parent)
      = Ok (hex Scenario.lib Scenario.parent, hex Scenario.lib child) /\
    OnchainWallet.consoleError
      (OnchainWallet.bumpP2A 240 Scenario.lib Scenario.wallet Scenario.parent)
      = [Provider NetworkFailure].
Proof.
  eexists. split; [vm_compute; reflexivity|].
  apply (bumpP2A_returns_package 240 Scenario.lib Scenario.wallet Scenario.parent).
  vm_compute. reflexivity.
Defined.

(** The explorer rejects the package, and the call still succeeds. *)
Lemma bumpP2A_swallows_submission_failure :
  ~ Stated.submissionFailureSurfaced 240 Scenario.lib Scenario.wallet Scenario.parent.
Proof.
  unfold Stated.submissionFailureSurfaced. intros H.
  edestruct H as [e' He'];
    [vm_compute; reflexivity|vm_compute; reflexivity|].
  vm_compute in He'. discriminate.
Qed.

(** ** The final sweep *)

Section PrepareUnrollFacts.

Variable Wallet_MIN_FEE_RATE : JsNumber.number.
Variable lib : TransactionLib.
Variable wallet : Wallet.t.

Lemma gather_totalAmount (chainTip : BlockTime) (vtxos : list Vtxo.t) :
  forall acc g,
    gather wallet chainTip vtxos acc = Ok g ->
    totalAmount g = totalAmount acc + vtxoValues vtxos.
Proof.
  induction vtxos as [|v vtxos IH]; intros acc g H.
  - injection H as <-. cbn. lia.
  - cbn [gather] in H. unfold bind in H.
    destruct (negb (Vtxo.isUnrolled v)); [discriminate|].
    destruct (getTxStatus (Wallet.onchainProvider wallet) (Vtxo.txid v))
      as [[|h t]|]; try discriminate.
    destruct (availableExitPath _ chainTip v) as [exit|]; [|discriminate].
    destruct (Vtxo.findLeaf v (ExitPath.script exit)) as [leaf|]; [|discriminate].
    apply IH in H. cbn [totalAmount] in H.
    change (vtxoValues (v :: vtxos)) with (Vtxo.value v + vtxoValues vtxos). lia.
Qed.

Lemma addInputs_outputs (inputs : list Tx.Input) : forall tx,
  Tx.outputs (fold_left (fun tx input => Tx.addInput input tx) inputs tx)
  = Tx.outputs tx.
Proof.
  induction inputs as [|i inputs IH]; intros tx; [reflexivity|].
  cbn [fold_left]. rewrite IH. reflexivity.
Qed.

(** C10.  In [prepareUnrollTransaction], once every per-VTXO check has
    passed, an estimated fee above the summed value of the selected VTXOs
    makes the function throw, and no transaction with an output is built;
    so whenever it succeeds, the transaction handed to the signer has the
    single output [totalAmount - feeAmount], which is not negative, where
    [totalAmount] is the summed value of the selected VTXOs. *)
Theorem prepareUnrollTransaction_fee_guard
    (vtxoTxIds : list string) (outputAddress : string) :
  (forall signedTx,
     prepareUnrollTransaction Wallet_MIN_FEE_RATE lib wallet vtxoTxIds outputAddress
       = Ok signedTx ->
     exists tx total feeAmount vtxos,
       buildUnrollTransaction Wallet_MIN_FEE_RATE wallet vtxoTxIds outputAddress
         = Ok (tx, total, feeAmount) /\
       Wallet.getVtxos wallet = Ok vtxos /\
       total = vtxoValues
                 (filter (fun v => includes vtxoTxIds (Vtxo.txid v)) vtxos) /\
       Tx.outputs tx = [Tx.mkOutput outputAddress (total - feeAmount)] /\
       0 <= total - feeAmount) /\
  (forall chainTip vtxos g feeRate rate,
     getChainTip (Wallet.onchainProvider wallet) = Ok chainTip ->
     Wallet.getVtxos wallet = Ok vtxos ->
     filter (fun v => includes vtxoTxIds (Vtxo.txid v)) vtxos <> [] ->
     gather wallet chainTip
       (filter (fun v => includes vtxoTxIds (Vtxo.txid v)) vtxos)
       (mkGathered [] 0 TxWeightEstimator.create) = Ok g ->
     getFeeRate (Wallet.onchainProvider wallet) = Ok feeRate ->
     JsNumber.BigInt
       (if JsNumber.falsy feeRate || JsNumber.lt feeRate Wallet_MIN_FEE_RATE
        then Wallet_MIN_FEE_RATE else feeRate) = Ok rate ->
     fee (TxWeightEstimator.vsize
            (TxWeightEstimator.addP2TROutput (txWeightEstimator g))) rate
       > totalAmount g ->
     buildUnrollTransaction Wallet_MIN_FEE_RATE wallet vtxoTxIds outputAddress
       = Throw FeeGreaterThanTotal /\
     prepareUnrollTransaction Wallet_MIN_FEE_RATE lib wallet vtxoTxIds outputAddress
       = Throw FeeGreaterThanTotal).
Proof.
  split.
  - intros signedTx H. unfold prepareUnrollTransaction in H.
    destruct (buildUnrollTransaction Wallet_MIN_FEE_RATE wallet vtxoTxIds outputAddress)
      as [[[tx total] feeAmount]|] eqn:Hbuild; [|discriminate].
    clear H. exists tx, total, feeAmount.
    unfold buildUnrollTransaction, bind in Hbuild.
    destruct (getChainTip (Wallet.onchainProvider wallet)) as [chainTip|];
      [|discriminate].
    destruct (Wallet.getVtxos wallet) as [vtxos|]; [|discriminate].
    exists vtxos. split; [reflexivity|split; [reflexivity|]].
    destruct (filter (fun v => includes vtxoTxIds (Vtxo.txid v)) vtxos)
      as [|v selected] eqn:Hsel; [discriminate|].
    destruct (gather wallet chainTip (v :: selected) _) as [g|] eqn:Hg;
      [|discriminate].
    destruct (getFeeRate (Wallet.onchainProvider wallet)) as [feeRate|];
      [|discriminate].
    destruct (JsNumber.BigInt _) as [rate|]; [|discriminate].
    remember (fee (TxWeightEstimator.vsize
                     (TxWeightEstimator.addP2TROutput (txWeightEstimator g))) rate)
      as estimated eqn:Hestimated.
    clear Hestimated.
    destruct (Z.gtb_spec estimated (totalAmount g)) as [Hgt|Hle]; [discriminate|].
    injection Hbuild as <- <- <-.
    apply gather_totalAmount in Hg. cbn [totalAmount] in Hg.
    split; [lia|]. split; [|lia].
    cbn [Tx.addOutputAddress Tx.outputs]. rewrite addInputs_outputs. reflexivity.
  - intros chainTip vtxos g feeRate rate Htip Hvtxos Hsome Hg Hrate Hbig Hgt.
    assert (Hbuild : buildUnrollTransaction Wallet_MIN_FEE_RATE wallet vtxoTxIds
                       outputAddress = Throw FeeGreaterThanTotal).
    { unfold buildUnrollTransaction, bind. rewrite Htip, Hvtxos.
      destruct (filter (fun v => includes vtxoTxIds (Vtxo.txid v)) vtxos)
        as [|v selected]; [congruence|].
      rewrite Hg, Hrate, Hbig.
      destruct (Z.gtb_spec
                  (fee (TxWeightEstimator.vsize
                          (TxWeightEstimator.addP2TROutput (txWeightEstimator g))) rate)
                  (totalAmount g)); [reflexivity|lia]. }
    split; [exact Hbuild|].
    unfold prepareUnrollTransaction. rewrite Hbuild. reflexivity.
Qed.

End PrepareUnrollFacts.

(** A VTXO of 1,000 sat at 2 sat/vbyte: the sweep of 140 vbytes costs 280
    and leaves an output of 720. *)
Lemma prepareUnrollTransaction_fee_guard_witness :
  prepareUnrollTransaction (JsNumber.ofZ 1) Scenario.lib (Scenario.holding 1000)
    ["vtxo"%string] "tb1p-destination"
  = Ok (Tx.mk 2 [Tx.mkInput "vtxo" 0 1000 None None]
          [Tx.mkOutput "tb1p-destination" 720]) /\
  exists tx total feeAmount vtxos,
    buildUnrollTransaction (JsNumber.ofZ 1) (Scenario.holding 1000)
      ["vtxo"%string] "tb1p-destination" = Ok (tx, total, feeAmount) /\
    Wallet.getVtxos (Scenario.holding 1000) = Ok vtxos /\
    total = vtxoValues
              (filter (fun v => includes ["vtxo"%string] (Vtxo.txid v)) vtxos) /\
    Tx.outputs tx = [Tx.mkOutput "tb1p-destination" (total - feeAmount)] /\
    0 <= total - feeAmount.
Proof.
  assert (H : prepareUnrollTransaction (JsNumber.ofZ 1) Scenario.lib
                (Scenario.holding 1000) ["vtxo"%string] "tb1p-destination"
              = Ok (Tx.mk 2 [Tx.mkInput "vtxo" 0 1000 None None]
                      [Tx.mkOutput "tb1p-destination" 720]))
    by (vm_compute; reflexivity).
  split; [exact H|].
  exact (proj1 (prepareUnrollTransaction_fee_guard (JsNumber.ofZ 1) Scenario.lib
                  (Scenario.holding 1000) ["vtxo"%string] "tb1p-destination") _ H).
Defined.

(** A VTXO of 100 sat passes every per-VTXO check - unrolled, confirmed,
    exit path matured, spending leaf found - and the sweep still fails,
    on the fee. *)
Example prepareUnrollTransaction_fee_above_value :
  prepareUnrollTransaction (JsNumber.ofZ 1) Scenario.lib (Scenario.holding 100)
    ["vtxo"%string] "tb1p-destination"
  = Throw FeeGreaterThanTotal.
Proof. vm_compute. reflexivity. Qed.

(** * Further properties *)

(** ** The size estimator, continued *)

Section EstimatorMore.
Import TxWeightEstimator SizeSpec.

(** X1.  [getVarIntSize] never gives fewer bytes than the CompactSize
    encoding needs, and gives exactly as many except at the two boundary
    values 0xffff and 0xffffffff, where its strict comparisons count the
    next size up. *)
Theorem getVarIntSize_compactSize (n : Z) :
  compactSize n <= getVarIntSize n /\
  (getVarIntSize n = compactSize n <-> n <> 65535 /\ n <> 4294967295).
Proof.
  unfold getVarIntSize, compactSize.
  repeat match goal with
         | |- context [?x <? ?y] => destruct (Z.ltb_spec x y)
         | |- context [?x <=? ?y] => destruct (Z.leb_spec x y)
         end; try lia.
Qed.

Lemma estimator_eq (w w' : bool) (ic ic' oc oc' isz isz' iw iw' osz osz' : Z) :
  w = w' -> ic = ic' -> oc = oc' -> isz = isz' -> iw = iw' -> osz = osz' ->
  mk w ic oc isz iw osz = mk w' ic' oc' isz' iw' osz'.
Proof. intros; subst; reflexivity. Qed.

Lemma apply_commutes (a b : Op) (e : t) :
  apply a (apply b e) = apply b (apply a e).
Proof.
  destruct e as [w ic oc isz iw osz].
  destruct a, b;
    cbv [apply addP2AInput addKeySpendInput addP2PKHInput addTapscriptInput
         addP2WPKHOutput addP2TROutput addOutputAddress
         hasWitness inputCount outputCount inputSize outputSize inputWitnessSize];
    apply estimator_eq; try reflexivity; lia.
Qed.

Lemma run_cons (op : Op) (ops : list Op) (e : t) :
  run (op :: ops) e = run ops (apply op e).
Proof. reflexivity. Qed.

Lemma run_permuted (ops ops' : list Op) :
  Permutation ops ops' -> forall e, run ops e = run ops' e.
Proof.
  induction 1 as [|x l l' _ IH|x y l|l l' l'' _ IH1 _ IH2]; intros e.
  - reflexivity.
  - rewrite !run_cons. apply IH.
  - rewrite !run_cons, apply_commutes. reflexivity.
  - rewrite IH1. apply IH2.
Qed.

(** X2.  The estimate does not depend on the order of the builder calls:
    two sequences of the same calls leave the same estimator, hence the
    same [vsize] and the same fee. *)
Theorem vsize_order_independent (ops ops' : list Op) (e : t) (rate : Z) :
  Permutation ops ops' ->
  run ops e = run ops' e /\
  value (vsize (run ops e)) = value (vsize (run ops' e)) /\
  fee (vsize (run ops e)) rate = fee (vsize (run ops' e)) rate.
Proof.
  intros Hperm. rewrite (run_permuted ops ops' Hperm e).
  repeat split.
Qed.

Lemma vsize_order_independent_witness :
  value (vsize (run [AddOutputAddress 22; AddKeySpendInput true; AddP2AInput] create))
  = value (vsize (run [AddKeySpendInput true; AddP2AInput; AddOutputAddress 22] create)).
Proof.
  refine (proj1 (proj2 (vsize_order_independent
                          [AddOutputAddress 22; AddKeySpendInput true; AddP2AInput]
                          [AddKeySpendInput true; AddP2AInput; AddOutputAddress 22]
                          create 1 _))).
  apply Permutation_cons_append.
Defined.

(** X3.  The two fixed-size output helpers count what the address path
    counts for a script of their length: 34 bytes for Taproot, 22 for
    native segwit. *)
Theorem output_helpers_agree_with_address_path (e : t) :
  addP2TROutput e = addOutputAddress 34 e /\
  addP2WPKHOutput e = addOutputAddress 22 e.
Proof.
  unfold addP2TROutput, addP2WPKHOutput, addOutputAddress,
         OUTPUT_SIZE, P2TR_OUTPUT_SIZE, P2WPKH_OUTPUT_SIZE.
  change (getVarIntSize 34) with 1. change (getVarIntSize 22) with 1.
  split; f_equal; lia.
Qed.

Lemma total_strippedBytes_nonneg (ops : list Op) :
  Forall validOp ops -> 0 <= total strippedBytes ops.
Proof.
  induction 1 as [|op ops Hop _ IH]; [cbn; lia|].
  change (total strippedBytes (op :: ops))
    with (strippedBytes op + total strippedBytes ops).
  destruct op as [| d | | w s c | | | len];
    cbn [strippedBytes validOp] in *;
    try pose proof (getVarIntSize_pos len); lia.
Qed.

(** No transaction is estimated below twelve virtual bytes. *)
Lemma vsize_at_least_12 (ops : list Op) :
  Forall validOp ops -> 12 <= value (vsize (run ops create)).
Proof.
  intros Hops. rewrite vsize_value.
  destruct (run_fields ops create) as (Hw & Hi & Ho & Hs & Hb).
  cbn [create hasWitness inputCount outputCount inputSize outputSize
       inputWitnessSize orb] in *.
  pose proof (total_strippedBytes_nonneg ops Hops).
  pose proof (total_witnessBytes_nonneg ops Hops).
  pose proof (getVarIntSize_pos (inputCount (run ops create))).
  pose proof (getVarIntSize_pos (outputCount (run ops create))).
  rewrite Hb.
  destruct (hasWitness (run ops create));
    Z.to_euclidean_division_equations; lia.
Qed.

End EstimatorMore.

(** ** Coin selection, continued *)

Section SelectionMore.
Import JsNumber Stated.

(** Whatever the target, the loop takes a prefix of the coins it walks. *)
Lemma accumulate_prefix (forceChange : bool) (target : number) (l : list Coin.t) :
  forall sel amt,
  exists taken rest,
    l = taken ++ rest /\
    accumulate forceChange target l sel amt = (sel ++ taken, amt + sumValues taken).
Proof.
  induction l as [|c l IH]; intros sel amt.
  - exists [], []. cbn [accumulate sumValues fold_right app].
    rewrite app_nil_r, Z.add_0_r. split; reflexivity.
  - cbn [accumulate].
    destruct (if forceChange
              then gt (ofZ (amt + Coin.value c)) target
              else ge (ofZ (amt + Coin.value c)) target).
    + exists [c], l. rewrite sumValues_cons. cbn [sumValues fold_right].
      rewrite Z.add_0_r. split; reflexivity.
    + destruct (IH (sel ++ [c]) (amt + Coin.value c)) as (taken & rest & -> & Heq).
      exists (c :: taken), rest. rewrite Heq, sumValues_cons, <- app_assoc.
      cbn [app]. rewrite Z.add_assoc. split; reflexivity.
Qed.

Lemma selectCoins_inputs_prefix
    (coins : list Coin.t) (target : number) (forceChange : bool) (sel : Selection) :
  selectCoins coins target forceChange = Ok sel ->
  exists rest, sortDescending coins = inputs sel ++ rest.
Proof.
  unfold selectCoins. intros H.
  destruct (isNaN target); [discriminate|].
  destruct (lt target (ofZ 0)); [discriminate|].
  destruct (strictEq target (ofZ 0)).
  - injection H as <-. exists (sortDescending coins). reflexivity.
  - destruct (accumulate_prefix forceChange target (sortDescending coins) [] 0)
      as (taken & rest & Hsplit & Hacc).
    rewrite Hacc in H. cbn [app] in H. exists rest.
    destruct (strictEq _ target); [injection H as <-; exact Hsplit|].
    destruct (lt _ target); [discriminate|].
    unfold bind in H. destruct (BigInt _); [|discriminate].
    injection H as <-. exact Hsplit.
Qed.

Lemma descending_across (front back : list Coin.t) :
  Sorted descending (front ++ back) ->
  forall a b, In a front -> In b back -> Coin.value b <= Coin.value a.
Proof.
  intros Hsorted.
  apply Sorted_StronglySorted in Hsorted;
    [|intros x y z; unfold descending; lia].
  induction front as [|x front IH]; intros a b Ha Hb; [destruct Ha|].
  cbn [app] in Hsorted. inversion Hsorted as [|? ? Htail Hhead]; subst.
  destruct Ha as [->|Ha].
  - rewrite Forall_forall in Hhead. apply Hhead. apply in_or_app. right. exact Hb.
  - apply IH; assumption.
Qed.

(** X4.  Whatever [selectCoins] returns is the front of the coins in
    descending order of value: the inputs followed by the coins left out
    are a rearrangement of the coins, sorted by descending value, so no
    coin left out is worth more than a selected one. *)
Theorem selectCoins_takes_largest_first
    (coins : list Coin.t) (target : number) (forceChange : bool) (sel : Selection) :
  selectCoins coins target forceChange = Ok sel ->
  exists rest,
    Permutation coins (inputs sel ++ rest) /\
    Sorted descending (inputs sel ++ rest) /\
    (forall a b, In a (inputs sel) -> In b rest -> Coin.value b <= Coin.value a).
Proof.
  intros H. apply selectCoins_inputs_prefix in H as [rest Hsplit].
  exists rest.
  assert (Hsorted : Sorted descending (inputs sel ++ rest))
    by (rewrite <- Hsplit; apply sortDescending_sorted).
  split; [rewrite <- Hsplit; apply sortDescending_permutation|].
  split; [exact Hsorted|]. apply descending_across. exact Hsorted.
Qed.

Lemma selectCoins_takes_largest_first_witness :
  exists sel rest,
    selectCoins [Coin.mk "b" 1 12000; Coin.mk "a" 0 100000] (ofZ 50000) false = Ok sel /\
    Permutation [Coin.mk "b" 1 12000; Coin.mk "a" 0 100000] (inputs sel ++ rest) /\
    Sorted descending (inputs sel ++ rest).
Proof.
  eexists.
  assert (H : selectCoins [Coin.mk "b" 1 12000; Coin.mk "a" 0 100000] (ofZ 50000) false
              = Ok (mkSelection [Coin.mk "a" 0 100000] 50000))
    by (vm_compute; reflexivity).
  destruct (selectCoins_takes_largest_first _ _ _ _ H) as (rest & Hp & Hs & _).
  exists rest. split; [exact H|split; assumption].
Defined.

(** On an integer target the loop has not met its stopping rule on any
    shorter non-empty prefix of what it took. *)
Lemma accumulate_no_early_stop (forceChange : bool) (t : Z) (l : list Coin.t) :
  forall sel amt init last amt',
  accumulate forceChange (ofZ t) l sel amt = (sel ++ init ++ [last], amt') ->
  init <> [] ->
  (if forceChange then t <? amt + sumValues init else t <=? amt + sumValues init) = false.
Proof.
  induction l as [|c l IH]; intros sel amt init last amt' Hacc Hne.
  - cbn [accumulate] in Hacc. injection Hacc as Hsel _.
    rewrite <- (app_nil_r sel) in Hsel at 1. apply app_inv_head in Hsel.
    destruct init; discriminate.
  - cbn [accumulate] in Hacc. unfold gt, ge in Hacc. rewrite lt_ofZ, le_ofZ in Hacc.
    destruct (if forceChange then t <? amt + Coin.value c else t <=? amt + Coin.value c)
      eqn:Hstop.
    + injection Hacc as Hsel _. apply app_inv_head in Hsel.
      destruct init as [|x [|y init]]; [contradiction| |]; discriminate.
    + destruct (accumulate_prefix forceChange (ofZ t) l (sel ++ [c]) (amt + Coin.value c))
        as (taken & rest & _ & Hpre).
      pose proof Hacc as Hacc'. rewrite Hpre in Hacc'. injection Hacc' as Hsel _.
      rewrite <- app_assoc in Hsel. apply app_inv_head in Hsel. cbn [app] in Hsel.
      destruct init as [|x init]; [contradiction|].
      injection Hsel as <- Htaken.
      destruct init as [|y init].
      * cbn [sumValues fold_right]. rewrite Z.add_0_r. exact Hstop.
      * rewrite sumValues_cons, Z.add_assoc.
        apply (IH (sel ++ [c]) (amt + Coin.value c) (y :: init) last amt');
          [|discriminate].
        rewrite Hacc, <- app_assoc. reflexivity.
Qed.

(** X5.  [selectCoins] takes no coin it can do without: on an integer
    target, the inputs without the last one selected fall short of the
    target (or, with [forceChange], do not exceed it), so the change is
    less than (with [forceChange]: at most) the value of that last coin. *)
Theorem selectCoins_last_coin_needed
    (coins : list Coin.t) (t : Z) (forceChange : bool) (sel : Selection)
    (init : list Coin.t) (last : Coin.t) :
  selectCoins coins (ofZ t) forceChange = Ok sel ->
  inputs sel = init ++ [last] ->
  (if forceChange then sumValues init <= t else sumValues init < t) /\
  (if forceChange then changeAmount sel <= Coin.value last
   else changeAmount sel < Coin.value last).
Proof.
  intros Hsel Hinputs.
  destruct (Z_lt_le_dec 0 t) as [Hpos|Hnonpos].
  - destruct (selectCoins_integer coins t forceChange Hpos)
      as (taken & Hacc & _ & Heq).
    rewrite Heq in Hsel.
    assert (Htaken : taken = init ++ [last] /\
                     changeAmount sel = sumValues taken - t).
    { destruct (Z.eqb_spec (sumValues taken) t).
      - injection Hsel as <-. cbn [inputs changeAmount] in *. split; [exact Hinputs|lia].
      - destruct (sumValues taken <? t); [discriminate|].
        injection Hsel as <-. cbn [inputs changeAmount] in *.
        split; [exact Hinputs|reflexivity]. }
    destruct Htaken as [-> Hchange].
    rewrite sumValues_app, sumValues_cons in Hchange.
    cbn [sumValues fold_right] in Hchange. rewrite Z.add_0_r in Hchange.
    assert (Hshort : if forceChange then sumValues init <= t else sumValues init < t).
    { destruct init as [|x init].
      - cbn. destruct forceChange; lia.
      - pose proof (accumulate_no_early_stop forceChange t (sortDescending coins)
                      [] 0 (x :: init) last _ Hacc ltac:(discriminate)) as Hno.
        rewrite Z.add_0_l in Hno. destruct forceChange; lia. }
    split; [exact Hshort|]. destruct forceChange; lia.
  - exfalso. unfold selectCoins in Hsel. cbn [isNaN ofZ] in Hsel.
    fold (ofZ 0) (ofZ t) in Hsel. rewrite lt_ofZ, strictEq_ofZ in Hsel.
    destruct (Z.ltb_spec t 0); [discriminate|].
    destruct (Z.eqb_spec t 0); [|lia].
    injection Hsel as <-. cbn [inputs] in Hinputs. destruct init; discriminate.
Qed.

Lemma selectCoins_last_coin_needed_witness :
  sumValues [Coin.mk "a" 0 100000] < 111500 /\
  changeAmount (mkSelection [Coin.mk "a" 0 100000; Coin.mk "b" 1 12000] 500) < 12000.
Proof.
  exact (selectCoins_last_coin_needed
           [Coin.mk "b" 1 12000; Coin.mk "a" 0 100000] 111500 false
           (mkSelection [Coin.mk "a" 0 100000; Coin.mk "b" 1 12000] 500)
           [Coin.mk "a" 0 100000] (Coin.mk "b" 1 12000) eq_refl eq_refl).
Defined.

Lemma accumulate_force_extends (t : Z) (l : list Coin.t) :
  forall sel amt,
  exists taken extra amt1 amt2,
    accumulate false (ofZ t) l sel amt = (sel ++ taken, amt1) /\
    accumulate true (ofZ t) l sel amt = (sel ++ taken ++ extra, amt2).
Proof.
  induction l as [|c l IH]; intros sel amt.
  - exists [], [], amt, amt. cbn [accumulate app]. rewrite app_nil_r. split; reflexivity.
  - cbn [accumulate]. unfold gt, ge. rewrite lt_ofZ, le_ofZ.
    destruct (Z.leb_spec t (amt + Coin.value c)) as [Hle|Hgt].
    + destruct (accumulate_prefix true (ofZ t) l (sel ++ [c]) (amt + Coin.value c))
        as (taken & rest & _ & Hpre).
      destruct (t <? amt + Coin.value c).
      * exists [c], [], (amt + Coin.value c), (amt + Coin.value c).
        split; reflexivity.
      * exists [c], taken, (amt + Coin.value c), (amt + Coin.value c + sumValues taken).
        rewrite Hpre, <- app_assoc. split; reflexivity.
    + destruct (Z.ltb_spec t (amt + Coin.value c)); [lia|].
      destruct (IH (sel ++ [c]) (amt + Coin.value c))
        as (taken & extra & amt1 & amt2 & H1 & H2).
      exists (c :: taken), extra, amt1, amt2.
      rewrite H1, H2, <- !app_assoc. split; reflexivity.
Qed.

(** X6.  Asking for change only ever adds coins: on the same coins and
    integer target, the inputs selected with [forceChange] begin with the
    inputs selected without it. *)
Theorem selectCoins_forceChange_extends
    (coins : list Coin.t) (t : Z) (plain forced : Selection) :
  selectCoins coins (ofZ t) false = Ok plain ->
  selectCoins coins (ofZ t) true = Ok forced ->
  exists extra, inputs forced = inputs plain ++ extra.
Proof.
  intros Hplain Hforced.
  destruct (Z_lt_le_dec 0 t) as [Hpos|Hnonpos].
  - destruct (selectCoins_integer coins t false Hpos) as (k1 & Hacc1 & _ & Heq1).
    destruct (selectCoins_integer coins t true Hpos) as (k2 & Hacc2 & _ & Heq2).
    rewrite Heq1 in Hplain. rewrite Heq2 in Hforced.
    assert (H1 : inputs plain = k1).
    { destruct (sumValues k1 =? t); [injection Hplain as <-; reflexivity|].
      destruct (sumValues k1 <? t); [discriminate|].
      injection Hplain as <-; reflexivity. }
    assert (H2 : inputs forced = k2).
    { destruct (sumValues k2 =? t); [injection Hforced as <-; reflexivity|].
      destruct (sumValues k2 <? t); [discriminate|].
      injection Hforced as <-; reflexivity. }
    destruct (accumulate_force_extends t (sortDescending coins) [] 0)
      as (taken & extra & amt1 & amt2 & Ha1 & Ha2).
    cbn [app] in Ha1, Ha2. rewrite Hacc1 in Ha1. rewrite Hacc2 in Ha2.
    injection Ha1 as -> _. injection Ha2 as -> _.
    exists extra. rewrite H1, H2. reflexivity.
  - unfold selectCoins in Hplain, Hforced. cbn [isNaN ofZ] in Hplain, Hforced.
    fold (ofZ 0) (ofZ t) in Hplain, Hforced.
    rewrite lt_ofZ, strictEq_ofZ in Hplain, Hforced.
    destruct (Z.ltb_spec t 0); [discriminate|].
    destruct (Z.eqb_spec t 0); [|lia].
    injection Hplain as <-. injection Hforced as <-. exists []. reflexivity.
Qed.

Lemma selectCoins_forceChange_extends_witness :
  exists extra,
    [Coin.mk "a" 0 100000; Coin.mk "b" 1 12000] = [Coin.mk "a" 0 100000] ++ extra.
Proof.
  exact (selectCoins_forceChange_extends
           [Coin.mk "b" 1 12000; Coin.mk "a" 0 100000] 100000
           (mkSelection [Coin.mk "a" 0 100000] 0)
           (mkSelection [Coin.mk "a" 0 100000; Coin.mk "b" 1 12000] 12000)
           eq_refl eq_refl).
Defined.

End SelectionMore.

(** ** The fee loop and [send], continued *)

Section SendMore.
Import JsNumber TxWeightEstimator SendPlan.

Variable DUST_AMOUNT : Z.
Variable this : OnchainWallet.t.
Variable scriptLengthOf : string -> result Z.
Variable coins : list Coin.t.
Variable amount : Z.
Variable feeRate : Double.t.
Variable recipientAddress : string.

(** What a selection on an integer target leaves for the target. *)
Lemma selectCoins_budget (l : list Coin.t) (t : Z) (forceChange : bool) (sel : Selection) :
  selectCoins l (ofZ t) forceChange = Ok sel ->
  0 <= t /\ 0 <= changeAmount sel /\
  sumValues (inputs sel) - changeAmount sel = t.
Proof.
  intros Hsel.
  destruct (Z_lt_le_dec 0 t) as [Hpos|Hnonpos].
  - destruct (selectCoins_integer l t forceChange Hpos) as (taken & _ & _ & Heq).
    rewrite Heq in Hsel.
    destruct (Z.eqb_spec (sumValues taken) t).
    + injection Hsel as <-. cbn [inputs changeAmount]. lia.
    + destruct (Z.ltb_spec (sumValues taken) t); [discriminate|].
      injection Hsel as <-. cbn [inputs changeAmount]. lia.
  - unfold selectCoins in Hsel. cbn [isNaN ofZ] in Hsel.
    fold (ofZ 0) (ofZ t) in Hsel. rewrite lt_ofZ, strictEq_ofZ in Hsel.
    destruct (Z.ltb_spec t 0); [discriminate|].
    destruct (Z.eqb_spec t 0); [|lia].
    injection Hsel as <-. cbn. lia.
Qed.

Lemma selectCoins_target_finite
    (l : list Coin.t) (target : number) (forceChange : bool) (sel : Selection) :
  selectCoins l target forceChange = Ok sel -> exists q, target = Fin q.
Proof.
  unfold selectCoins. destruct target as [| | |q]; cbn; intros H.
  - discriminate.
  - destruct (accumulate forceChange PInf (sortDescending l) [] 0).
    cbn in H. discriminate.
  - discriminate.
  - exists q. reflexivity.
Qed.

(** A selection for [amount + fee] that succeeds was made for an integer
    fee. *)
Lemma selected_for_integer (fee : number) (sel : Selection) :
  integral fee ->
  selectCoins coins (add (ofZ amount) fee) false = Ok sel ->
  exists budgeted, fee = ofZ budgeted.
Proof.
  intros Hfee Hsel. apply selectCoins_target_finite in Hsel as [q Hq].
  destruct fee as [| | |f]; cbn [add ofZ] in Hq; try discriminate.
  exact Hfee.
Qed.

(** A pass that converges does so on the estimate for its selection, which
    is no larger than the fee the coins were selected for. *)
Lemma feeLoop_converged (n : nat) (sel : Selection) (f : number) : forall fee,
  integral fee ->
  OnchainWallet.feeLoop DUST_AMOUNT this scriptLengthOf n coins amount feeRate
    recipientAddress fee = Ok (sel, f) ->
  exists budgeted paymentScriptLen,
    selectCoins coins (ofZ (amount + budgeted)) false = Ok sel /\
    scriptLengthOf recipientAddress = Ok paymentScriptLen /\
    f = newFee DUST_AMOUNT (OnchainWallet.addressScriptLen this) feeRate
               paymentScriptLen sel /\
    le f (ofZ budgeted) = true.
Proof.
  induction n as [|n IH]; intros fee Hfee H; [discriminate|].
  rewrite feeLoop_step in H.
  destruct (selectCoins coins (add (ofZ amount) fee) false) as [selected|] eqn:Hsel;
    [|discriminate].
  destruct (scriptLengthOf recipientAddress) as [scriptLen|] eqn:Hlen;
    [|discriminate].
  cbn zeta in H.
  destruct (le (newFee DUST_AMOUNT (OnchainWallet.addressScriptLen this) feeRate
                  scriptLen selected) fee) eqn:Hle.
  - injection H as <- <-.
    destruct (selected_for_integer fee selected Hfee Hsel) as [budgeted ->].
    rewrite add_ofZ in Hsel.
    exists budgeted, scriptLen. repeat split; assumption.
  - eapply IH; [apply ceil_integral|exact H].
Qed.

Lemma estimateFeesAndSelectCoins_covers_fee_aux (sel : Selection) (f : number) :
  OnchainWallet.estimateFeesAndSelectCoins DUST_AMOUNT this scriptLengthOf coins amount
    feeRate recipientAddress = Ok (sel, f) ->
  0 <= changeAmount sel /\
  le f (ofZ (sumValues (inputs sel) - amount - changeAmount sel)) = true.
Proof.
  unfold OnchainWallet.estimateFeesAndSelectCoins. intros H.
  apply feeLoop_converged in H as (budgeted & _ & Hsel & _ & _ & Hf);
    [|exists 0; reflexivity].
  apply selectCoins_budget in Hsel as (_ & Hchange & Hsum).
  split; [exact Hchange|].
  apply le_ofZ_trans with budgeted; [exact Hf|lia].
Qed.

(** X7.  When [estimateFeesAndSelectCoins] succeeds, the recipient's
    address was decoded; the fee it returns is the estimate for the
    selection it returns - the ceiling of the double product of the rate
    and the size that section 4.1 gives a transaction with one key-spend
    input per selected coin, the payment output, and the change output if
    the change is at least the dust limit -; the change is not negative;
    and the selected inputs cover the amount, the change and at least
    that fee. *)
Theorem estimateFeesAndSelectCoins_covers_fee (sel : Selection) (f : number) :
  OnchainWallet.estimateFeesAndSelectCoins DUST_AMOUNT this scriptLengthOf coins amount
    feeRate recipientAddress = Ok (sel, f) ->
  (exists paymentScriptLen,
     scriptLengthOf recipientAddress = Ok paymentScriptLen /\
     f = Double.ceil
           (Double.mul
              (Double.ofZ
                 (estimatedVsize
                    (map (fun _ => AddKeySpendInput true) (inputs sel)
                     ++ [AddOutputAddress paymentScriptLen]
                     ++ (if DUST_AMOUNT <=? changeAmount sel
                         then [AddOutputAddress (OnchainWallet.addressScriptLen this)]
                         else []))))
              feeRate)) /\
  0 <= changeAmount sel /\
  le f (ofZ (sumValues (inputs sel) - amount - changeAmount sel)) = true.
Proof.
  unfold OnchainWallet.estimateFeesAndSelectCoins. intros H.
  apply feeLoop_converged in H as (budgeted & len & Hsel & Hlen & Hn & Hf);
    [|exists 0; reflexivity].
  apply selectCoins_budget in Hsel as (_ & Hchange & Hsum).
  split; [exists len; split; [exact Hlen|exact Hn]|].
  split; [exact Hchange|].
  apply le_ofZ_trans with budgeted; [exact Hf|lia].
Qed.

Lemma composition_valid (paymentScriptLen : Z) (sel : Selection) :
  0 <= paymentScriptLen -> 0 <= OnchainWallet.addressScriptLen this ->
  Forall validOp (composition DUST_AMOUNT (OnchainWallet.addressScriptLen this)
                    paymentScriptLen sel).
Proof.
  intros Hr Ho. unfold composition. apply Forall_app. split.
  - apply Forall_forall. intros op Hin. apply in_map_iff in Hin as (c & <- & _).
    exact I.
  - constructor; [exact Hr|].
    destruct (DUST_AMOUNT <=? changeAmount sel); repeat constructor. exact Ho.
Qed.

(** An estimate at a positive rate is an integer at least one, or
    infinite. *)
Lemma newFee_positive (paymentScriptLen : Z) (sel : Selection) :
  Double.isPositive feeRate = true ->
  0 <= paymentScriptLen -> 0 <= OnchainWallet.addressScriptLen this ->
  let estimate := newFee DUST_AMOUNT (OnchainWallet.addressScriptLen this) feeRate
                         paymentScriptLen sel in
  estimate = PInf \/ exists z, 1 <= z /\ estimate = ofZ z.
Proof.
  intros Hrate Hr Ho. cbn zeta. unfold newFee.
  apply priced_positive; [|exact Hrate].
  rewrite <- estimatedVsize_run.
  pose proof (vsize_at_least_12 _ (composition_valid paymentScriptLen sel Hr Ho)).
  lia.
Qed.

(** X8.  At a positive fee rate (the rates [send] passes are: it floors
    the rate at [MIN_FEE_RATE]), with scripts of non-negative length, the
    fee returned is a positive integer: the loop never settles on a free
    transaction, however the product of rate and size is rounded. *)
Theorem estimateFeesAndSelectCoins_fee_positive (sel : Selection) (f : number) :
  Double.isPositive feeRate = true ->
  (forall len, scriptLengthOf recipientAddress = Ok len -> 0 <= len) ->
  0 <= OnchainWallet.addressScriptLen this ->
  OnchainWallet.estimateFeesAndSelectCoins DUST_AMOUNT this scriptLengthOf coins amount
    feeRate recipientAddress = Ok (sel, f) ->
  exists z, f = ofZ z /\ 0 < z.
Proof.
  intros Hrate Hr Ho H. unfold OnchainWallet.estimateFeesAndSelectCoins in H.
  apply feeLoop_converged in H as (budgeted & len & _ & Hlen & Hn & Hf);
    [|exists 0; reflexivity].
  destruct (newFee_positive len sel Hrate (Hr len Hlen) Ho) as [Hinf|(z & Hz & Heq)].
  - rewrite Hn, Hinf in Hf. discriminate.
  - exists z. split; [rewrite Hn; exact Heq|lia].
Qed.

End SendMore.

Lemma estimateFeesAndSelectCoins_covers_fee_witness :
  (exists paymentScriptLen,
     Scenario.scriptLengthOf "tb1p-recipient" = Ok paymentScriptLen /\
     JsNumber.ofZ 188 =
       Double.ceil
         (Double.mul
            (Double.ofZ
               (SendPlan.estimatedVsize
                  (map (fun _ => TxWeightEstimator.AddKeySpendInput true)
                       [Coin.mk "a" 0 1000; Coin.mk "b" 1 500]
                   ++ [TxWeightEstimator.AddOutputAddress paymentScriptLen]
                   ++ (if 546 <=? 112
                       then [TxWeightEstimator.AddOutputAddress 34] else []))))
            Scenario.rate_1_1)) /\
  0 <= 112 /\
  JsNumber.le (JsNumber.ofZ 188) (JsNumber.ofZ (1500 - 1200 - 112)) = true.
Proof.
  exact (estimateFeesAndSelectCoins_covers_fee 546 Scenario.wallet
           Scenario.scriptLengthOf [Coin.mk "a" 0 1000; Coin.mk "b" 1 500] 1200
           Scenario.rate_1_1 "tb1p-recipient"
           (mkSelection [Coin.mk "a" 0 1000; Coin.mk "b" 1 500] 112)
           (JsNumber.ofZ 188) eq_refl).
Defined.

Lemma estimateFeesAndSelectCoins_fee_positive_witness :
  exists z, JsNumber.ofZ 188 = JsNumber.ofZ z /\ 0 < z.
Proof.
  refine (estimateFeesAndSelectCoins_fee_positive 546 Scenario.wallet
            Scenario.scriptLengthOf [Coin.mk "a" 0 1000; Coin.mk "b" 1 500] 1200
            Scenario.rate_1_1 "tb1p-recipient"
            (mkSelection [Coin.mk "a" 0 1000; Coin.mk "b" 1 500] 112)
            (JsNumber.ofZ 188) _ _ _ eq_refl).
  - reflexivity.
  - intros len Hlen. vm_compute in Hlen. injection Hlen as <-. lia.
  - cbn. lia.
Defined.

(** ** Integer fee rates *)

Section IntegerRate.
Import JsNumber TxWeightEstimator SendPlan.

(** X18.  At an integer fee rate of at least one sat/vbyte nothing is
    rounded: when [estimateFeesAndSelectCoins] succeeds, the fee it returns
    is exactly the rate times the size estimated for the returned
    selection, as long as that product is below 2^53. *)
Theorem estimateFeesAndSelectCoins_integer_rate
    (DUST_AMOUNT : Z) (this : OnchainWallet.t) (scriptLengthOf : string -> result Z)
    (coins : list Coin.t) (amount : Z) (rate : Z) (recipientAddress : string)
    (sel : Selection) (f : number) :
  1 <= rate ->
  (forall len, scriptLengthOf recipientAddress = Ok len -> 0 <= len) ->
  0 <= OnchainWallet.addressScriptLen this ->
  OnchainWallet.estimateFeesAndSelectCoins DUST_AMOUNT this scriptLengthOf coins amount
    (Double.ofZ rate) recipientAddress = Ok (sel, f) ->
  exists paymentScriptLen,
    scriptLengthOf recipientAddress = Ok paymentScriptLen /\
    let size :=
      estimatedVsize
        (map (fun _ => AddKeySpendInput true) (inputs sel)
         ++ [AddOutputAddress paymentScriptLen]
         ++ (if DUST_AMOUNT <=? changeAmount sel
             then [AddOutputAddress (OnchainWallet.addressScriptLen this)]
             else [])) in
    (rate * size < 2 ^ 53 -> f = ofZ (rate * size)).
Proof.
  intros Hrate Hlens Hown H. unfold OnchainWallet.estimateFeesAndSelectCoins in H.
  apply feeLoop_converged in H as (budgeted & len & _ & Hlen & Hn & _);
    [|exists 0; reflexivity].
  exists len. split; [exact Hlen|]. cbn zeta. intros Hsmall.
  rewrite Hn. unfold newFee.
  change (map (fun _ => AddKeySpendInput true) (inputs sel)
          ++ [AddOutputAddress len]
          ++ (if DUST_AMOUNT <=? changeAmount sel
              then [AddOutputAddress (OnchainWallet.addressScriptLen this)]
              else []))
    with (composition DUST_AMOUNT (OnchainWallet.addressScriptLen this) len sel)
    in Hsmall |- *.
  pose proof (vsize_at_least_12 _
                (composition_valid DUST_AMOUNT this len sel (Hlens len Hlen) Hown))
    as Hsize.
  rewrite estimatedVsize_run in Hsize.
  destruct (estimatedVsize
              (composition DUST_AMOUNT (OnchainWallet.addressScriptLen this) len sel))
    as [|size|size]; try lia.
  destruct rate as [|r|r]; try lia.
  assert (Hd : Double.digits (size * r) <= 53).
  { apply digits_small. rewrite Pos2Z.inj_mul. lia. }
  rewrite mul_ofZ, ceil_ofZ by exact Hd.
  f_equal. lia.
Qed.

End IntegerRate.

Lemma estimateFeesAndSelectCoins_integer_rate_witness :
  exists paymentScriptLen,
    Scenario.scriptLengthOf "tb1q-recipient" = Ok paymentScriptLen /\
    let size :=
      SendPlan.estimatedVsize
        (map (fun _ => TxWeightEstimator.AddKeySpendInput true) [Coin.mk "c" 0 51910]
         ++ [TxWeightEstimator.AddOutputAddress paymentScriptLen]
         ++ (if 546 <=? 470 then [TxWeightEstimator.AddOutputAddress 34] else [])) in
    (10 * size < 2 ^ 53 -> JsNumber.ofZ 1010 = JsNumber.ofZ (10 * size)).
Proof.
  refine (estimateFeesAndSelectCoins_integer_rate 546 Scenario.wallet
            Scenario.scriptLengthOf [Coin.mk "c" 0 51910] 50000 10 "tb1q-recipient"
            (mkSelection [Coin.mk "c" 0 51910] 470) (JsNumber.ofZ 1010) _ _ _ eq_refl).
  - lia.
  - intros len Hlen. vm_compute in Hlen. injection Hlen as <-. lia.
  - cbn. lia.
Defined.

Section SendTransactionFacts.
Import JsNumber.

Variable DUST_AMOUNT : Z.
Variable this : OnchainWallet.t.
Variable defaultVersion : Z.

Lemma addInputs_fields (selected : list Coin.t) : forall tx,
  let tx' := fold_left (fun tx input => Tx.addInput (OnchainWallet.coinInput input) tx)
                       selected tx in
  Tx.version tx' = Tx.version tx /\
  Tx.inputs tx' = Tx.inputs tx ++ map OnchainWallet.coinInput selected /\
  Tx.outputs tx' = Tx.outputs tx.
Proof.
  induction selected as [|c l IH]; intros tx; cbn zeta.
  - cbn [fold_left map]. rewrite app_nil_r. repeat split.
  - cbn [fold_left map]. destruct (IH (Tx.addInput (OnchainWallet.coinInput c) tx))
      as (Hv & Hi & Ho).
    rewrite Hv, Hi, Ho. cbn [Tx.addInput Tx.version Tx.inputs Tx.outputs].
    rewrite <- app_assoc. repeat split.
Qed.

Lemma coinInputs_value (selected : list Coin.t) :
  fold_right (fun i acc => Tx.witnessAmount i + acc) 0
             (map OnchainWallet.coinInput selected)
  = sumValues selected.
Proof.
  induction selected as [|c l IH]; [reflexivity|].
  cbn [map fold_right]. rewrite IH. reflexivity.
Qed.

(** X9.  The transaction [send] hands to the signer, for an amount that
    passed its two tests and a selection that
    [estimateFeesAndSelectCoins] returned: it spends the selected coins,
    which are coins of the wallet, in order; it pays the amount to the
    recipient first and has one output or two; no output is below the
    dust limit; and it leaves at least the estimated fee to the miners. *)
Theorem sendTransaction_sound
    (scriptLengthOf : string -> result Z)
    (coins : list Coin.t) (recipientAddress : string) (amount : Z)
    (feeRate : Double.t) (sel : Selection) (f : number) :
  OnchainWallet.checkAmount DUST_AMOUNT amount = None ->
  OnchainWallet.estimateFeesAndSelectCoins DUST_AMOUNT this scriptLengthOf coins amount
    feeRate recipientAddress = Ok (sel, f) ->
  let tx := OnchainWallet.sendTransaction DUST_AMOUNT this defaultVersion
              recipientAddress amount (inputs sel) (changeAmount sel) in
  Tx.inputs tx = map OnchainWallet.coinInput (inputs sel) /\
  (forall c, In c (inputs sel) -> In c coins) /\
  (Tx.outputs tx = [Tx.mkOutput recipientAddress amount] \/
   Tx.outputs tx = [Tx.mkOutput recipientAddress amount;
                    Tx.mkOutput (OnchainWallet.address this) (changeAmount sel)]) /\
  Forall (fun o => DUST_AMOUNT <= Tx.amount o) (Tx.outputs tx) /\
  le f (ofZ (inputValue tx - outputValue tx)) = true.
Proof.
  intros Hamount Hest tx.
  assert (Hok : 0 < amount /\ DUST_AMOUNT <= amount).
  { unfold OnchainWallet.checkAmount in Hamount.
    destruct (Z.leb_spec amount 0); [discriminate|].
    destruct (Z.ltb_spec amount DUST_AMOUNT); [discriminate|]. lia. }
  assert (Hcoins : forall c, In c (inputs sel) -> In c coins).
  { unfold OnchainWallet.estimateFeesAndSelectCoins in Hest.
    apply feeLoop_converged in Hest as (budgeted & _ & Hsel & _);
      [|exists 0; reflexivity].
    apply selectCoins_inputs_prefix in Hsel as [rest Hsplit].
    intros c Hc.
    apply (Permutation_in c (Permutation_sym (sortDescending_permutation coins))).
    rewrite Hsplit. apply in_or_app. left. exact Hc. }
  apply estimateFeesAndSelectCoins_covers_fee_aux in Hest as (Hchange & Hsum).
  destruct (addInputs_fields (inputs sel) (Tx.mk defaultVersion [] []))
    as (_ & Hi & Ho).
  cbn [Tx.inputs Tx.outputs app] in Hi, Ho.
  subst tx. unfold OnchainWallet.sendTransaction, inputValue, outputValue.
  destruct (Z.geb_spec (changeAmount sel) DUST_AMOUNT) as [Hkept|Hdropped];
    cbn [Tx.addOutputAddress Tx.inputs Tx.outputs]; rewrite Hi, Ho, coinInputs_value;
    cbn [app fold_right Tx.amount].
  - split; [reflexivity|]. split; [exact Hcoins|]. split; [right; reflexivity|].
    split; [|apply (le_ofZ_trans _ _ _ Hsum); lia].
    apply Forall_cons; [cbn [Tx.amount]; lia|].
    apply Forall_cons; [cbn [Tx.amount]; lia|]. apply Forall_nil.
  - split; [reflexivity|]. split; [exact Hcoins|]. split; [left; reflexivity|].
    split; [|apply (le_ofZ_trans _ _ _ Hsum); lia].
    apply Forall_cons; [cbn [Tx.amount]; lia|]. apply Forall_nil.
Qed.

End SendTransactionFacts.

Lemma sendTransaction_sound_witness :
  JsNumber.le (JsNumber.ofZ 1010)
    (JsNumber.ofZ
       (inputValue
          (OnchainWallet.sendTransaction 546 Scenario.wallet 2 "tb1q-recipient"
             50000 [Coin.mk "c" 0 51910] 470)
        - outputValue
            (OnchainWallet.sendTransaction 546 Scenario.wallet 2 "tb1q-recipient"
               50000 [Coin.mk "c" 0 51910] 470))) = true.
Proof.
  exact (proj2 (proj2 (proj2 (proj2
           (sendTransaction_sound 546 Scenario.wallet 2 Scenario.scriptLengthOf
              [Coin.mk "c" 0 51910] "tb1q-recipient" 50000 (Double.ofZ 10)
              (mkSelection [Coin.mk "c" 0 51910] 470) (JsNumber.ofZ 1010)
              eq_refl eq_refl))))).
Defined.

(** ** The anchor bump, continued *)

Section BumpMore.
Import JsNumber.


Variable P2A_amount : Z.
Variable lib : TransactionLib.
Variable this : OnchainWallet.t.

(** [bumpP2A] signs and finalises the child that [unsignedChild] builds. *)
Lemma buildChild_signs_unsignedChild (parent : Tx.t) :
  OnchainWallet.buildChild P2A_amount lib this parent
  = (let* child := OnchainWallet.unsignedChild P2A_amount lib this parent in
     let* child := sign (OnchainWallet.identity this) child in
     OnchainWallet.finalizeFrom lib 1 (Tx.inputsLength child - 1) child)%result.
Proof.
  unfold OnchainWallet.buildChild, OnchainWallet.unsignedChild, bind.
  destruct (findP2AOutput lib parent); [|reflexivity].
  destruct (getFeeRate (OnchainWallet.provider this)); [|reflexivity].
  destruct (falsy _); [reflexivity|].
  destruct (OnchainWallet.getCoins this); [|reflexivity].
  destruct (selectCoins _ _ true); reflexivity.
Qed.


End BumpMore.


(** ** The unroll step, continued *)

Section NextMore.
Import Unroll Unroll.Session ScanSpec.

Lemma scan_breaks (explorer : OnchainProvider) (l : list ChainTx.t) (node : ChainTx.t) :
  scan explorer l = Ended (Some node) <->
  exists before after e,
    l = before ++ node :: after /\ Forall (passed explorer) before /\
    skipped node = false /\
    getTxStatus explorer (ChainTx.txid node) = Throw e.
Proof.
  split.
  - intros Hscan.
    destruct (first_not_passed explorer l)
      as [Hall|(before & n & after & -> & Hb & Hn)].
    + apply scan_completes in Hall. congruence.
    + rewrite scan_past in Hscan by exact Hb.
      destruct (scan_stops explorer n after Hn) as (Hs & [(_ & Hr)|(e & Hq & Hr)]);
        rewrite Hr in Hscan; [discriminate|].
      injection Hscan as <-. exists before, after, e. repeat split; assumption.
  - intros (before & after & e & Hl & Hb & Hs & Hq).
    eapply scan_candidate; eassumption.
Qed.

Variable lib : TransactionLib.

(** What [next] does after the scan, for the node to broadcast. *)
Lemma unrollStep_prepares (this : Session.t) (node : ChainTx.t)
    (tx : Tx.t) (pkg : string * string) :
  unrollStep lib this node = Ok (UNROLL tx pkg) <->
  exists psbt others raw,
    getVirtualTxs (indexer this) [ChainTx.txid node] = Ok (psbt :: others) /\
    fromPSBT lib psbt = Ok raw /\
    finalised lib node raw tx /\
    bumpP2A (bumper this) tx = Ok pkg.
Proof.
  unfold unrollStep, finalised, bind. split.
  - intros H.
    destruct (getVirtualTxs (indexer this) [ChainTx.txid node])
      as [[|psbt others]|] eqn:Hfetch; try discriminate.
    destruct (fromPSBT lib psbt) as [raw|] eqn:Hraw; try discriminate.
    exists psbt, others, raw. split; [reflexivity|]. split; [exact Hraw|].
    destruct (ChainTx.type node).
    1-3, 5: destruct (finalize lib raw) as [tx'|] eqn:Hfinal; try discriminate;
      destruct (bumpP2A (bumper this) tx') as [pkg'|] eqn:Hpkg; try discriminate;
      injection H as <- <-; split; [reflexivity|exact Hpkg].
    destruct (Tx.inputs raw) as [|input rest] eqn:Hin; try discriminate.
    destruct (Tx.tapKeySig input) as [tapKeySig|] eqn:Hsig; try discriminate.
    match type of H with
    | match bumpP2A _ ?t with Ok _ => _ | Throw _ => _ end = _ =>
        destruct (bumpP2A (bumper this) t) as [pkg'|] eqn:Hpkg; try discriminate
    end.
    injection H as <- <-. split; [|exact Hpkg].
    exists input, rest, tapKeySig. repeat split. exact Hsig.
  - intros (psbt & others & raw & -> & -> & Hfinal & Hpkg).
    destruct (ChainTx.type node).
    1-3, 5: rewrite Hfinal, Hpkg; reflexivity.
    destruct Hfinal as (input & rest & tapKeySig & -> & Hsig & Hv & Ho & Hi).
    rewrite Hsig.
    replace (Tx.mk (Tx.version raw)
               (Tx.mkInput (Tx.txid input) (Tx.index input) (Tx.witnessAmount input)
                  (Some tapKeySig) (Some [tapKeySig]) :: rest)
               (Tx.outputs raw)) with tx
      by (destruct tx; cbn in Hv, Ho, Hi; subst; reflexivity).
    rewrite Hpkg. reflexivity.
Qed.

(** X11.  [next] answers with an [UNROLL] step exactly when the first node
    the scan does not continue past is one whose status query throws, and
    the step is then the one prepared for that node: the indexer's first
    virtual transaction for the node's txid, decoded, with its witness
    finalised - for a TREE node the key signature stored on its first
    input, for any other node the library's script finalisation -, and
    the package the bumper returns for that finalised transaction. *)
Theorem next_unroll (this : Session.t) (tx : Tx.t) (pkg : string * string) :
  next lib this = Ok (UNROLL tx pkg) <->
  exists i node e psbt others raw,
    reached (explorer this) (chain this) i node /\
    skipped node = false /\
    getTxStatus (explorer this) (ChainTx.txid node) = Throw e /\
    getVirtualTxs (indexer this) [ChainTx.txid node] = Ok (psbt :: others) /\
    fromPSBT lib psbt = Ok raw /\
    match ChainTx.type node with
    | TREE =>
        exists input rest tapKeySig,
          Tx.inputs raw = input :: rest /\
          Tx.tapKeySig input = Some tapKeySig /\
          Tx.version tx = Tx.version raw /\
          Tx.outputs tx = Tx.outputs raw /\
          Tx.inputs tx =
            Tx.mkInput (Tx.txid input) (Tx.index input) (Tx.witnessAmount input)
                       (Some tapKeySig) (Some [tapKeySig]) :: rest
    | _ => finalize lib raw = Ok tx
    end /\
    bumpP2A (bumper this) tx = Ok pkg.
Proof.
  unfold next. split.
  - intros Hnext.
    destruct (scan (explorer this) (rev (chain this))) as [step|[node|]] eqn:Hscan.
    + injection Hnext as ->.
      apply scan_wait in Hscan as (_ & n & _ & _ & _ & _ & Hw). discriminate.
    + apply scan_breaks in Hscan as (before & after & e & Hrev & Hb & Hs & Hq).
      apply unrollStep_prepares in Hnext
        as (psbt & others & raw & Hfetch & Hraw & Hfinal & Hpkg).
      exists (List.length after), node, e, psbt, others, raw.
      split; [|repeat split; assumption].
      apply reached_split. exists before, after. repeat split; assumption.
    + discriminate.
  - intros (i & node & e & psbt & others & raw
            & Hreach & Hs & Hq & Hfetch & Hraw & Hfinal & Hpkg).
    apply reached_split in Hreach as (before & after & Hrev & Hb & _).
    assert (Hscan : scan (explorer this) (rev (chain this)) = Ended (Some node)).
    { apply scan_breaks. exists before, after, e. repeat split; assumption. }
    rewrite Hscan. apply unrollStep_prepares.
    exists psbt, others, raw. repeat split; assumption.
Qed.

Lemma passed_agree (explorer explorer' : OnchainProvider) (node : ChainTx.t) :
  getTxStatus explorer' (ChainTx.txid node) = getTxStatus explorer (ChainTx.txid node) ->
  passed explorer node -> passed explorer' node.
Proof.
  intros Heq [Hs|(h & t & Hq)]; [left; exact Hs|right].
  exists h, t. rewrite Heq. exact Hq.
Qed.

(** X12.  [next] looks at no node below the one that decides the step, and
    at no node it skips: if the scan stops at the node of index [i],
    another explorer that answers alike for the nodes of index [i] and
    above that are not skipped gives the same step, whatever it says of the
    others. *)
Theorem next_ignores_nodes_below
    (this : Session.t) (explorer' : OnchainProvider) (i : nat) (node : ChainTx.t) :
  reached (explorer this) (chain this) i node ->
  ~ passed (explorer this) node ->
  (forall (j : nat) (n : ChainTx.t),
     (i <= j)%nat -> nth_error (chain this) j = Some n -> skipped n = false ->
     getTxStatus explorer' (ChainTx.txid n)
     = getTxStatus (explorer this) (ChainTx.txid n)) ->
  next lib (asking explorer' this) = next lib this.
Proof.
  intros Hreach Hnp Hagree.
  destruct Hreach as [Hnth Habove].
  assert (Hreach' : reached explorer' (chain this) i node).
  { split; [exact Hnth|]. intros j n Hj Hn.
    destruct (skipped n) eqn:Hsk; [left; exact Hsk|].
    apply (passed_agree (explorer this)).
    - apply (Hagree j); [lia|exact Hn|exact Hsk].
    - apply (Habove j); assumption. }
  assert (Hnode : getTxStatus explorer' (ChainTx.txid node)
                  = getTxStatus (explorer this) (ChainTx.txid node)).
  { apply (Hagree i); [lia|exact Hnth|].
    destruct (skipped node) eqn:Hsk; [|reflexivity].
    exfalso. apply Hnp. left. exact Hsk. }
  apply reached_split in Hreach' as (before' & after' & Hrev' & Hb' & _).
  assert (Hreach : reached (explorer this) (chain this) i node)
    by (split; assumption).
  apply reached_split in Hreach as (before & after & Hrev & Hb & _).
  assert (Hscan : scan explorer' (rev (chain this))
                  = scan (explorer this) (rev (chain this))).
  { assert (Hnp' : ~ passed explorer' node).
    { intros Hp. apply Hnp. apply (passed_agree explorer'); [|exact Hp].
      symmetry. exact Hnode. }
    rewrite Hrev' at 1. rewrite Hrev.
    rewrite !scan_past by assumption.
    destruct (scan_stops (explorer this) node after Hnp)
      as (_ & [(Hq & Hr)|(e & Hq & Hr)]);
      destruct (scan_stops explorer' node after' Hnp')
        as (_ & [(Hq' & Hr')|(e' & Hq' & Hr')]);
      rewrite Hr, Hr'; try reflexivity; congruence. }
  unfold next, asking; cbn [explorer chain txid].
  rewrite Hscan.
  destruct (scan (explorer this) (rev (chain this))) as [step|[cand|]];
    reflexivity.
Qed.

End NextMore.

Lemma Scenario_mid_reached (leaf : result TxStatus) :
  ScanSpec.reached (Scenario.midPending leaf) Scenario.threeNodes
    1 (ChainTx.mk "mid" TREE).
Proof.
  split; [reflexivity|].
  intros [|[|[|[|j]]]] above Hj Hnth; cbn in Hnth; try lia; try discriminate.
  injection Hnth as <-. left. reflexivity.
Qed.

Lemma next_ignores_nodes_below_witness :
  Unroll.Session.next Scenario.lib
    (ScanSpec.asking (Scenario.midPending (Throw (Provider NotFound)))
       (Scenario.watching (Scenario.midPending (Ok Unconfirmed))))
  = Unroll.Session.next Scenario.lib
      (Scenario.watching (Scenario.midPending (Ok Unconfirmed))).
Proof.
  apply (next_ignores_nodes_below Scenario.lib
           (Scenario.watching (Scenario.midPending (Ok Unconfirmed)))
           (Scenario.midPending (Throw (Provider NotFound)))
           1 (ChainTx.mk "mid" TREE)).
  - apply Scenario_mid_reached.
  - intros [H|(h & t & H)]; discriminate.
  - intros [|[|[|[|j]]]] n Hj Hn Hsk; cbn in Hn; try lia; try discriminate;
      injection Hn as <-; try reflexivity; discriminate.
Defined.

(** ** Exit paths and the final sweep, continued *)

Section SweepMore.

Lemma matured_later (confirmedAt current later : BlockTime) (exit : ExitPath.t) :
  height current <= height later -> time current <= time later ->
  matured confirmedAt current exit = true ->
  matured confirmedAt later exit = true.
Proof.
  unfold matured. intros Hh Ht.
  destruct (ExitPath.timelockType exit); rewrite !Z.geb_le; lia.
Qed.

(** X13.  An exit never closes again: if [availableExitPath] finds a path
    at some chain tip, it finds one at every tip that is no lower and no
    earlier. *)
Theorem availableExitPath_stays_available
    (confirmedAt current later : BlockTime) (vtxo : Vtxo.t) (exit : ExitPath.t) :
  height current <= height later -> time current <= time later ->
  availableExitPath confirmedAt current vtxo = Some exit ->
  exists exit',
    availableExitPath confirmedAt later vtxo = Some exit' /\
    matured confirmedAt later exit' = true.
Proof.
  intros Hh Ht Hsome.
  destruct (availableExitPath confirmedAt later vtxo) as [exit'|] eqn:Hlater.
  - exists exit'. split; [reflexivity|].
    apply firstMatured_some in Hlater as (_ & _ & _ & _ & H). exact H.
  - exfalso. apply firstMatured_none in Hlater.
    apply firstMatured_some in Hsome as (before & after & Heq & _ & Hm).
    rewrite Forall_forall in Hlater.
    assert (Hin : In exit (Vtxo.exitPaths vtxo))
      by (rewrite Heq; apply in_or_app; right; left; reflexivity).
    apply Hlater in Hin.
    rewrite (matured_later confirmedAt current later exit Hh Ht Hm) in Hin.
    discriminate.
Qed.

Lemma availableExitPath_stays_available_witness :
  exists exit',
    availableExitPath (mkBlockTime 1000 5000) (mkBlockTime 1144 5300)
      (Scenario.vtxoWorth 1000) = Some exit' /\
    matured (mkBlockTime 1000 5000) (mkBlockTime 1144 5300) exit' = true.
Proof.
  apply (availableExitPath_stays_available
           (mkBlockTime 1000 5000) (mkBlockTime 1143 5300) (mkBlockTime 1144 5300)
           (Scenario.vtxoWorth 1000) (ExitPath.mk seconds 300 "csv-seconds")).
  - cbn. lia.
  - cbn. lia.
  - reflexivity.
Defined.

Variable Wallet_MIN_FEE_RATE : JsNumber.number.
Variable lib : TransactionLib.
Variable wallet : Wallet.t.

Lemma addInputs_plain (inputs : list Tx.Input) : forall tx,
  let tx' := fold_left (fun tx input => Tx.addInput input tx) inputs tx in
  Tx.version tx' = Tx.version tx /\
  Tx.inputs tx' = Tx.inputs tx ++ inputs.
Proof.
  induction inputs as [|i inputs IH]; intros tx; cbn zeta.
  - cbn [fold_left]. rewrite app_nil_r. split; reflexivity.
  - cbn [fold_left]. destruct (IH (Tx.addInput i tx)) as (Hv & Hi).
    rewrite Hv, Hi. cbn [Tx.addInput Tx.version Tx.inputs].
    rewrite <- app_assoc. split; reflexivity.
Qed.

Lemma gather_checks (chainTip : BlockTime) (vtxos : list Vtxo.t) :
  forall acc g,
    gather wallet chainTip vtxos acc = Ok g ->
    Forall (sweepable wallet chainTip) vtxos /\
    gInputs g = gInputs acc ++ map vtxoInput vtxos /\
    TxWeightEstimator.inputCount (txWeightEstimator g)
      = TxWeightEstimator.inputCount (txWeightEstimator acc)
        + Z.of_nat (List.length vtxos).
Proof.
  induction vtxos as [|v vtxos IH]; intros acc g H.
  - injection H as <-. cbn [map List.length]. rewrite app_nil_r.
    repeat split; [constructor|cbn; lia].
  - cbn [gather] in H. unfold bind in H.
    destruct (Vtxo.isUnrolled v) eqn:Hu; cbn [negb] in H; [|discriminate].
    destruct (getTxStatus (Wallet.onchainProvider wallet) (Vtxo.txid v))
      as [[|h t]|] eqn:Hq; try discriminate.
    destruct (availableExitPath _ chainTip v) as [exit|] eqn:He; [|discriminate].
    destruct (Vtxo.findLeaf v (ExitPath.script exit)) as [leaf|] eqn:Hl;
      [|discriminate].
    apply IH in H as (Hall & Hin & Hcount).
    cbn [gInputs txWeightEstimator TxWeightEstimator.addTapscriptInput
         TxWeightEstimator.inputCount] in Hin, Hcount.
    split; [|split].
    + constructor; [|exact Hall]. split; [exact Hu|].
      exists h, t, exit, leaf. repeat split; assumption.
    + rewrite Hin, <- app_assoc. reflexivity.
    + rewrite Hcount. cbn [List.length]. lia.
Qed.

(** X14.  [prepareUnrollTransaction] succeeds only on VTXOs it has
    checked: the wallet holds at least one VTXO with one of the given
    txids, and every one of them is fully unrolled, is confirmed, has a
    matured exit path and the spending leaf of that path; the transaction
    handed to the signer spends exactly these VTXOs, in the order the
    wallet lists them. *)
Theorem prepareUnrollTransaction_checks
    (vtxoTxIds : list string) (outputAddress : string) (signedTx : Tx.t) :
  prepareUnrollTransaction Wallet_MIN_FEE_RATE lib wallet vtxoTxIds outputAddress
    = Ok signedTx ->
  exists chainTip vtxos tx total feeAmount,
    getChainTip (Wallet.onchainProvider wallet) = Ok chainTip /\
    Wallet.getVtxos wallet = Ok vtxos /\
    let swept := filter (fun v => includes vtxoTxIds (Vtxo.txid v)) vtxos in
    swept <> [] /\
    Forall (sweepable wallet chainTip) swept /\
    buildUnrollTransaction Wallet_MIN_FEE_RATE wallet vtxoTxIds outputAddress
      = Ok (tx, total, feeAmount) /\
    (exists signed, sign (Wallet.identity wallet) tx = Ok signed /\
                    finalize lib signed = Ok signedTx) /\
    Tx.version tx = 2 /\
    Tx.inputs tx = map vtxoInput swept.
Proof.
  intros H. unfold prepareUnrollTransaction, bind in H.
  destruct (buildUnrollTransaction Wallet_MIN_FEE_RATE wallet vtxoTxIds outputAddress)
    as [[[tx total] feeAmount]|] eqn:Hbuild; [|discriminate].
  destruct (sign (Wallet.identity wallet) tx) as [signed|] eqn:Hsign; [|discriminate].
  rename H into Hfinal.
  unfold buildUnrollTransaction, bind in Hbuild.
  destruct (getChainTip (Wallet.onchainProvider wallet)) as [chainTip|];
    [|discriminate].
  destruct (Wallet.getVtxos wallet) as [vtxos|]; [|discriminate].
  exists chainTip, vtxos, tx, total, feeAmount.
  split; [reflexivity|]. split; [reflexivity|]. cbn zeta.
  destruct (filter (fun v => includes vtxoTxIds (Vtxo.txid v)) vtxos)
    as [|v swept] eqn:Hswept; [discriminate|].
  destruct (gather wallet chainTip (v :: swept) _) as [g|] eqn:Hg; [|discriminate].
  destruct (getFeeRate (Wallet.onchainProvider wallet)) as [feeRate|];
    [|discriminate].
  destruct (JsNumber.BigInt _) as [rate|]; [|discriminate].
  remember (fee (TxWeightEstimator.vsize
                   (TxWeightEstimator.addP2TROutput (txWeightEstimator g))) rate)
    as estimated eqn:Hestimated.
  clear Hestimated.
  destruct (estimated >? totalAmount g); [discriminate|].
  injection Hbuild as <- <- <-.
  apply gather_checks in Hg as (Hall & Hin & _). cbn [gInputs app] in Hin.
  destruct (addInputs_plain (gInputs g) (Tx.mk 2 [] [])) as (Hv & Hi).
  cbn [Tx.inputs Tx.version app] in Hv, Hi.
  split; [discriminate|]. split; [exact Hall|]. split; [reflexivity|].
  split.
  { exists signed. split; [|exact Hfinal].
    rewrite <- Hsign. reflexivity. }
  cbn [Tx.addOutputAddress Tx.version Tx.inputs]. rewrite Hv, Hi, Hin.
  split; reflexivity.
Qed.

End SweepMore.

Lemma prepareUnrollTransaction_checks_witness :
  exists chainTip vtxos tx,
    getChainTip (Wallet.onchainProvider (Scenario.holding 1000)) = Ok chainTip /\
    Wallet.getVtxos (Scenario.holding 1000) = Ok vtxos /\
    Forall (sweepable (Scenario.holding 1000) chainTip)
           (filter (fun v => includes ["vtxo"%string] (Vtxo.txid v)) vtxos) /\
    Tx.inputs tx
      = map vtxoInput (filter (fun v => includes ["vtxo"%string] (Vtxo.txid v)) vtxos).
Proof.
  assert (H : prepareUnrollTransaction (JsNumber.ofZ 1) Scenario.lib
                (Scenario.holding 1000) ["vtxo"%string] "tb1p-destination"
              = Ok (Tx.mk 2 [Tx.mkInput "vtxo" 0 1000 None None]
                      [Tx.mkOutput "tb1p-destination" 720]))
    by (vm_compute; reflexivity).
  destruct (prepareUnrollTransaction_checks (JsNumber.ofZ 1) Scenario.lib
              (Scenario.holding 1000) ["vtxo"%string] "tb1p-destination" _ H)
    as (chainTip & vtxos & tx & total & feeAmount & Htip & Hv & _ & Hall & _ & _ & _ & Hin).
  exists chainTip, vtxos, tx. repeat split; assumption.
Defined.

(** ** Edge cases *)

Section Edges.
Import JsNumber.

(** X16.  On a chain that is empty or holds only COMMITMENT and UNSPECIFIED
    nodes, [next] answers [DONE] for the outpoint of the session whatever
    the explorer would say: it has nothing to ask. *)
Theorem next_done_without_lookup (lib : TransactionLib) (this : Unroll.Session.t) :
  Forall (fun node => Unroll.Session.skipped node = true) (Unroll.Session.chain this) ->
  Unroll.Session.next lib this = Ok (Unroll.DONE (Unroll.Session.txid this)).
Proof.
  intros Hall. unfold Unroll.Session.next.
  assert (Hscan : Unroll.Session.scan (Unroll.Session.explorer this)
                    (rev (Unroll.Session.chain this)) = Unroll.Session.Ended None).
  { apply scan_completes. apply Forall_rev.
    eapply Forall_impl; [|exact Hall]. intros node Hs. left. exact Hs. }
  rewrite Hscan. reflexivity.
Qed.



Section FeeLoopFailures.
Variable DUST_AMOUNT : Z.
Variable this : OnchainWallet.t.
Variable scriptLengthOf : string -> result Z.
Variable coins : list Coin.t.
Variable amount : Z.
Variable feeRate : Double.t.
Variable recipientAddress : string.

Hypothesis amount_nonneg : 0 <= amount.
Hypothesis rate_positive : Double.isPositive feeRate = true.
Hypothesis lengths_nonneg :
  forall len, scriptLengthOf recipientAddress = Ok len -> 0 <= len.
Hypothesis own_length_nonneg : 0 <= OnchainWallet.addressScriptLen this.


End FeeLoopFailures.


End Edges.

Lemma next_done_without_lookup_witness :
  Unroll.Session.next Scenario.lib
    (Unroll.Session.mk "vtxo" 0
       [ChainTx.mk "c1" COMMITMENT; ChainTx.mk "c0" UNSPECIFIED]
       Scenario.bumper Scenario.unreachable Scenario.indexer)
  = Ok (Unroll.DONE "vtxo").
Proof.
  apply (next_done_without_lookup Scenario.lib
           (Unroll.Session.mk "vtxo" 0
              [ChainTx.mk "c1" COMMITMENT; ChainTx.mk "c0" UNSPECIFIED]
              Scenario.bumper Scenario.unreachable Scenario.indexer)).
  repeat constructor.
Defined.


(** The two failures at work: a coin that covers the amount but not the
    fee, and a recipient address that is no address. *)
Example estimateFeesAndSelectCoins_short_of_fee :
  OnchainWallet.estimateFeesAndSelectCoins 546 Scenario.wallet
    Scenario.scriptLengthOf [Coin.mk "c" 0 50050] 50000 Scenario.rate_1_1
    "tb1q-recipient" = Throw InsufficientFunds.
Proof. vm_compute. reflexivity. Qed.

Example estimateFeesAndSelectCoins_undecodable_recipient :
  OnchainWallet.estimateFeesAndSelectCoins 546 Scenario.wallet
    Scenario.scriptLengthOf [Coin.mk "c" 0 51910] 50000 (Double.ofZ 10)
    "not-an-address" = Throw (Library "Unknown address type").
Proof. vm_compute. reflexivity. Qed.
